(** * Sudoku validator with a worker pool: a shallow embedding of [sudoku.c]

    The development follows the source top-down:
    - [Validator]: [validate_board_internal], its three scans and its messages;
    - [Queue]: the linked-list task queue ([queue_init], [enqueue_task],
      [dequeue_task]) over an explicit heap of nodes;
    - [Pool]: [worker_loop] and [main] as a transition system over the queue;
    - [Ints], [Frame], [Runs], [Trace]: notions used to state further
      properties of the validator, the queue, [main] and the pool;
    - [Input]: [trim_newline], [read_board_from_stdin] and the count prompt
      of [main] over the characters of the standard input.

    Definitions come first, the theorems about them follow at the end of the
    file. *)

From stdpp Require Import base tactics option list numbers strings pretty gmap.

(** ** Control flow of a C function body

    A loop body either falls through to the next iteration with a new state,
    executes a [return], or performs an access that C leaves undefined. *)

Inductive flow (St R : Type) : Type :=
| Next (s : St)
| Return (r : R)
| Undefined.
Arguments Next {St R} s.
Arguments Return {St R} r.
Arguments Undefined {St R}.

Definition flow_bind {St T R} (x : flow St R) (k : St → flow T R) : flow T R :=
  match x with
  | Next s => k s
  | Return r => Return r
  | Undefined => Undefined
  end.

Notation "x ← y ;;; z" := (flow_bind y (λ x, z))
  (at level 20, y at level 100, z at level 200, only parsing, right associativity).

(** [for (int i = lo; i < lo + n; ++i) body], threading the loop state. *)
Fixpoint for_loop {St R} (body : nat → St → flow St R) (i n : nat) (s : St) : flow St R :=
  match n with
  | 0 => Next s
  | S n' => s' ← body i s ;;; for_loop body (S i) n' s'
  end.

(** Monadic fold over an explicit list of indices; [for_loop] is the fold over
    [seq i n]. *)
Fixpoint fold_flow {A St R} (body : A → St → flow St R) (l : list A) (s : St) : flow St R :=
  match l with
  | [] => Next s
  | a :: l' => s' ← body a s ;;; fold_flow body l' s'
  end.

Module Validator.

(** [int board[9][9]]: the cell at row [r], column [c].  Only indices below 9
    are ever read.  The cells are C [int]s; the one computation on them,
    [v - 1], is reached for [v] in [1,9] only, so that a cell is taken as the
    integer it denotes. *)
Definition board := nat → nat → Z.

(** A board given by its rows, for concrete inputs. *)
Definition board_of_rows (rows : list (list Z)) : board :=
  λ r c, default 0%Z (rows !! r ≫= (.!! c)).

(** The texts written into [reason], one constructor per [snprintf] call of
    [validate_board_internal]; the arguments are the [%d] arguments in order. *)
Inductive message : Type :=
| Invalid_number (v : Z) (row col : nat)
| Duplicate_in_row (v : Z) (row : nat)
| Duplicate_in_column (v : Z) (col : nat)
| Invalid_number_in_block (v : Z) (blk row col : nat)
| Duplicate_in_block (v : Z) (blk row col : nat)
| OK.

Definition format (m : message) : string :=
  match m with
  | Invalid_number v r c =>
      "Invalid number " +:+ pretty v +:+ " at row " +:+ pretty r +:+ " col " +:+ pretty c
  | Duplicate_in_row v r =>
      "Duplicate " +:+ pretty v +:+ " in row " +:+ pretty r
  | Duplicate_in_column v c =>
      "Duplicate " +:+ pretty v +:+ " in column " +:+ pretty c
  | Invalid_number_in_block v k r c =>
      "Invalid number " +:+ pretty v +:+ " in 3x3 block " +:+ pretty k
        +:+ " at row " +:+ pretty r +:+ " col " +:+ pretty c
  | Duplicate_in_block v k r c =>
      "Duplicate " +:+ pretty v +:+ " in 3x3 block " +:+ pretty k
        +:+ " (top-left row " +:+ pretty r +:+ " col " +:+ pretty c +:+ ")"
  | OK => "OK"
  end.

(** [snprintf(buf, size, ...)]: nothing is written when [size] is 0, otherwise
    at most [size - 1] characters and the terminator. *)
Definition snprintf (buf : string) (size : nat) (text : string) : string :=
  match size with
  | 0 => buf
  | S k => String.substring 0 k text
  end.

(** [int seen[9] = {0}], with the bounds of the array made explicit. *)
Definition seen_init : list Z := replicate 9 0%Z.

Definition seen_read (seen : list Z) (i : Z) : option Z :=
  if decide (0 ≤ i)%Z then seen !! Z.to_nat i else None.

Definition seen_write (seen : list Z) (i : Z) (x : Z) : option (list Z) :=
  if decide ((0 ≤ i)%Z ∧ Z.to_nat i < length seen)
  then Some (<[Z.to_nat i := x]> seen) else None.

Definition out_of_range (v : Z) : bool := (v <=? 0)%Z || (v >? 9)%Z.

(** The cell step shared in shape by the three scans: range test, test of
    [seen[v-1]], then [seen[v-1] = 1]. *)
Definition mark (v : Z) (seen : list Z) (invalid duplicate : message)
  : flow (list Z) message :=
  if out_of_range v then Return invalid
  else match seen_read seen (v - 1)%Z with
       | None => Undefined
       | Some s =>
           if decide (s ≠ 0%Z) then Return duplicate
           else match seen_write seen (v - 1)%Z 1%Z with
                | None => Undefined
                | Some seen' => Next seen'
                end
       end.

(** Body of the inner loop of the row scan. *)
Definition row_cell (b : board) (r c : nat) (seen : list Z) : flow (list Z) message :=
  let v := b r c in
  mark v seen (Invalid_number v (r + 1) (c + 1)) (Duplicate_in_row v (r + 1)).

(** Body of the inner loop of the column scan. *)
Definition column_cell (b : board) (c r : nat) (seen : list Z) : flow (list Z) message :=
  let v := b r c in
  mark v seen (Invalid_number v (r + 1) (c + 1)) (Duplicate_in_column v (c + 1)).

(** Body of the innermost loop of the block scan. *)
Definition block_cell (b : board) (idx br bc r c : nat) (seen : list Z)
  : flow (list Z) message :=
  let v := b r c in
  mark v seen (Invalid_number_in_block v (idx + 1) (r + 1) (c + 1))
              (Duplicate_in_block v (idx + 1) (br * 3 + 1) (bc * 3 + 1)).

Definition check_rows (b : board) : flow () message :=
  for_loop (λ r _, _ ← for_loop (row_cell b r) 0 9 seen_init ;;; Next ()) 0 9 ().

Definition check_columns (b : board) : flow () message :=
  for_loop (λ c _, _ ← for_loop (column_cell b c) 0 9 seen_init ;;; Next ()) 0 9 ().

(** The loop state of the block scan is the running counter [idx]. *)
Definition check_blocks (b : board) : flow nat message :=
  for_loop (λ br idx,
    for_loop (λ bc idx,
      _ ← for_loop (λ r seen,
             for_loop (λ c seen, block_cell b idx br bc r c seen) (bc * 3) 3 seen)
           (br * 3) 3 seen_init ;;;
      Next (idx + 1))
    0 3 idx)
  0 3 0.

(** The message chosen by [validate_board_internal]: the first [return]
    reached, [None] if the run is undefined. *)
Definition validate_message (b : board) : option message :=
  match check_rows b with
  | Return m => Some m
  | Undefined => None
  | Next _ =>
      match check_columns b with
      | Return m => Some m
      | Undefined => None
      | Next _ =>
          match check_blocks b with
          | Return m => Some m
          | Undefined => None
          | Next _ => Some OK
          end
      end
  end.

Definition is_OK (m : message) : bool :=
  match m with OK => true | _ => false end.

(** [validate_board_internal(board, reason, reason_len)]: the returned flag
    and the contents of [reason] afterwards. *)
Definition validate_board_internal (b : board) (reason : string) (reason_len : nat)
  : option (bool * string) :=
  m ← validate_message b;
  Some (is_OK m, snprintf reason reason_len (format m)).

(** The solved grid used as the running example. *)
Definition solved : board := board_of_rows
  [ [5;3;4;6;7;8;9;1;2];
    [6;7;2;1;9;5;3;4;8];
    [1;9;8;3;4;2;5;6;7];
    [8;5;9;7;6;1;4;2;3];
    [4;2;6;8;5;3;7;9;1];
    [7;1;3;9;2;4;8;5;6];
    [9;6;1;5;3;7;2;8;4];
    [2;8;7;4;1;9;6;3;5];
    [3;4;5;2;8;6;1;7;9] ]%Z.

(** ** The Sudoku rule and the order of the scans

    The grid has 27 units: 9 rows, 9 columns and 9 blocks.  Position [p] of
    unit [u] is the [p]-th cell the corresponding scan reads in that unit. *)

Inductive scan : Type := Rows | Columns | Blocks.

Definition unit_cell (s : scan) (u p : nat) : nat * nat :=
  match s with
  | Rows => (u, p)
  | Columns => (p, u)
  | Blocks => (u / 3 * 3 + p / 3, u mod 3 * 3 + p mod 3)
  end.

Definition value_at (b : board) (s : scan) (u p : nat) : Z :=
  b (unit_cell s u p).1 (unit_cell s u p).2.

Definition unit_values (b : board) (s : scan) (u : nat) : list Z :=
  value_at b s u <$> seq 0 9.

(** A list of values contains each of 1..9 exactly once. *)
Definition each_once (l : list Z) : bool :=
  forallb (λ k, bool_decide (count_occ Z.eq_dec l k = 1)) (seqZ 1 9).

Definition units_ok (b : board) (s : scan) : bool :=
  forallb (λ u, each_once (unit_values b s u)) (seq 0 9).

(** The Sudoku rule: every row, every column and every block is complete. *)
Definition sudoku_valid (b : board) : bool :=
  units_ok b Rows && units_ok b Columns && units_ok b Blocks.

(** The order in which the cells are visited: the row scan, then the column
    scan, then the block scan; units by index; positions by index. *)
Definition visit : Type := scan * nat * nat.

Definition unit_visits (s : scan) (u : nat) : list visit :=
  (λ p, (s, u, p)) <$> seq 0 9.

Definition scan_visits (s : scan) : list visit :=
  concat (unit_visits s <$> seq 0 9).

Definition visits : list visit :=
  scan_visits Rows ++ scan_visits Columns ++ scan_visits Blocks.

(** A visit is a violation when its value is out of range or repeats the
    value of an earlier position of the same unit. *)
Definition violates (b : board) (x : visit) : bool :=
  let '(s, u, p) := x in
  let v := value_at b s u p in
  out_of_range v || existsb (λ q, bool_decide (value_at b s u q = v)) (seq 0 p).

Definition first_violation (b : board) : option visit :=
  snd <$> list_find (λ x, violates b x = true) visits.

(** The text for a violation: value and 1-based place. *)
Definition report (b : board) (x : visit) : message :=
  let '(s, u, p) := x in
  let v := value_at b s u p in
  let '(r, c) := unit_cell s u p in
  match s with
  | Rows =>
      if out_of_range v then Invalid_number v (r + 1) (c + 1)
      else Duplicate_in_row v (u + 1)
  | Columns =>
      if out_of_range v then Invalid_number v (r + 1) (c + 1)
      else Duplicate_in_column v (u + 1)
  | Blocks =>
      if out_of_range v then Invalid_number_in_block v (u + 1) (r + 1) (c + 1)
      else Duplicate_in_block v (u + 1) (u / 3 * 3 + 1) (u mod 3 * 3 + 1)
  end.

(** The board with the contents of cells [(r, c1)] and [(r, c2)] exchanged. *)
Definition swap_in_row (b : board) (r c1 c2 : nat) : board :=
  λ r' c',
    if decide (r' = r ∧ c' = c1) then b r c2
    else if decide (r' = r ∧ c' = c2) then b r c1
    else b r' c'.

(** ** The scans in a uniform shape

    Each scan is a fold over the nine units, and each unit a fold over its
    nine positions; the lemmas below show the three scans of the source to be
    instances. *)

Definition unit_step (b : board) (s : scan) (u p : nat) (seen : list Z)
  : flow (list Z) message :=
  mark (value_at b s u p) seen (report b (s, u, p)) (report b (s, u, p)).

Definition scan_unit (b : board) (s : scan) (u : nat) : flow (list Z) message :=
  fold_flow (unit_step b s u) (seq 0 9) seen_init.

Definition scan_units (b : board) (s : scan) : flow () message :=
  fold_flow (λ u _, _ ← scan_unit b s u ;;; Next ()) (seq 0 9) ().

(** The [seen] array records exactly the values in [prev]. *)
Definition marks (seen : list Z) (prev : list Z) : Prop :=
  length seen = 9 ∧
  ∀ k : Z, (1 ≤ k ≤ 9)%Z →
    seen !! Z.to_nat (k - 1) = Some (if bool_decide (k ∈ prev) then 1%Z else 0%Z).

(** Position of a scan in the order of [visits]. *)
Definition scan_index (s : scan) : nat :=
  match s with Rows => 0 | Columns => 1 | Blocks => 2 end.

Definition visit_index (x : visit) : nat :=
  let '(s, u, p) := x in scan_index s * 81 + u * 9 + p.

(** ** Concrete boards *)

(** [solved] with the first two cells of its first row exchanged. *)
Definition solved_swapped : board := swap_in_row solved 0 0 1.

(** [solved] with a zero in the middle cell. *)
Definition solved_with_zero : board :=
  λ r c, if decide (r = 4 ∧ c = 4) then 0%Z else solved r c.

(** A Latin square that is not a Sudoku: row [r] is 1..9 rotated by [r]. *)
Definition latin : board :=
  λ r c, (Z.of_nat ((r + c) mod 9) + 1)%Z.

(** [solved] with a ten in row 3, column 8 (counting from 1). *)
Definition solved_with_ten : board :=
  λ r c, if decide (r = 2 ∧ c = 7) then 10%Z else solved r c.

(** [solved] with the first value of row 3 repeated in its fifth cell. *)
Definition solved_row_duplicate : board :=
  λ r c, if decide (r = 2 ∧ c = 4) then solved 2 0 else solved r c.

(** [solved] with columns 6 and 7 (counting from 1) exchanged: rows and
    columns stay complete, the blocks of the two columns do not. *)
Definition solved_columns_swapped : board :=
  λ r c, solved r (if decide (c = 5) then 6 else if decide (c = 6) then 5 else c).

End Validator.

(** [board_task_t]: an id and a board (the field [board], named [task_board]
    here).  A [board_task_t *] is modelled by the task it points to, [None]
    standing for [NULL]: a task is owned by one party at a time (producer,
    queue, worker), so no two pointers to it are ever in use together. *)
Record board_task_t : Type := { id : Z; task_board : Validator.board }.

Definition task_ptr : Type := option board_task_t.

Module Queue.

(** Addresses of queue nodes; [None] is [NULL]. *)
Definition loc : Type := positive.
Definition ptr : Type := option loc.

(** [task_node_t]. *)
Record task_node_t : Type := { task : task_ptr; next : ptr }.

Abbreviation node_heap := (gmap loc task_node_t).

(** [task_queue_t] together with the heap its nodes live in.  The mutex and
    the condition variable carry no data: every queue function below is the
    critical section it runs between [pthread_mutex_lock] and
    [pthread_mutex_unlock], taken as one atomic step. *)
Record state : Type := { head : ptr; tail : ptr; heap : node_heap }.

(** How a call ends: it returns a value in a new state, the process exits,
    the caller blocks, or the behaviour is undefined. *)
Inductive result (A : Type) : Type :=
| Ok (a : A) (st : state)
| Exit (code : Z)
| Block
| Undef.
Arguments Ok {A} a st.
Arguments Exit {A} code.
Arguments Block {A}.
Arguments Undef {A}.

Definition queue_init (st : state) : state :=
  {| head := None; tail := None; heap := heap st |}.

Section WithMalloc.
(** [malloc(sizeof(task_node_t))]: [NULL] or an address of the heap. *)
Variable malloc : node_heap → ptr.

(** [enqueue_task].  Its [pthread_cond_signal] acts on the workers that wait,
    which belong to the state of the pool: see [Pool.step_enqueue]. *)

Definition enqueue_task (st : state) (t : task_ptr) : result () :=
  match malloc (heap st) with
  | None => Exit 1
  | Some node =>
      let h := <[node := {| task := t; next := None |}]> (heap st) in
      match tail st with
      | None => Ok () {| head := Some node; tail := Some node; heap := h |}
      | Some tl =>
          match h !! tl with
          | None => Undef
          | Some last_node =>
              Ok () {| head := head st;
                       tail := Some node;
                       heap := <[tl := {| task := task last_node;
                                          next := Some node |}]> h |}
          end
      end
  end.
End WithMalloc.

(** [dequeue_task].  The loop [while (q->head == NULL) pthread_cond_wait(...)]
    leaves the caller blocked for as long as the queue is empty; the node is
    unlinked under the mutex, then read and freed by the caller alone. *)
Definition dequeue_task (st : state) : result task_ptr :=
  match head st with
  | None => Block
  | Some node =>
      match heap st !! node with
      | None => Undef
      | Some nd =>
          let hd := next nd in
          Ok (task nd)
             {| head := hd;
                tail := match hd with None => None | Some _ => tail st end;
                heap := delete node (heap st) |}
      end
  end.

(** Calls on one queue, in the order they take the mutex. *)
Inductive op : Type := Enq (t : task_ptr) | Deq.

(** Runs the calls in order and collects what the dequeues return. *)
Fixpoint queue_run (malloc : node_heap → ptr) (ops : list op) (st : state)
  : result (list task_ptr) :=
  match ops with
  | [] => Ok [] st
  | Enq t :: ops' =>
      match enqueue_task malloc st t with
      | Ok _ st' => queue_run malloc ops' st'
      | Exit c => Exit c
      | Block => Block
      | Undef => Undef
      end
  | Deq :: ops' =>
      match dequeue_task st with
      | Ok t st' =>
          match queue_run malloc ops' st' with
          | Ok ts st'' => Ok (t :: ts) st''
          | r => r
          end
      | Exit c => Exit c
      | Block => Block
      | Undef => Undef
      end
  end.

(** The FIFO list the queue is compared with: enqueue appends, dequeue takes
    the first entry and is stuck on the empty list. *)
Fixpoint fifo_run (ops : list op) (l : list task_ptr)
  : option (list task_ptr * list task_ptr) :=
  match ops with
  | [] => Some ([], l)
  | Enq t :: ops' => fifo_run ops' (l ++ [t])
  | Deq :: ops' =>
      match l with
      | [] => None
      | t :: l' =>
          '(ts, l'') ← fifo_run ops' l';
          Some (t :: ts, l'')
      end
  end.

(** What [malloc] promises: a returned address is not in use. *)
Definition malloc_fresh (malloc : node_heap → ptr) : Prop :=
  ∀ h n, malloc h = Some n → h !! n = None.

(** Allocation does not fail. *)
Definition malloc_total (malloc : node_heap → ptr) : Prop :=
  ∀ h, is_Some (malloc h).

(** An allocator that never fails, and one that always does. *)
Definition malloc_next : node_heap → ptr := λ h, Some (fresh (dom h)).
Definition malloc_fails : node_heap → ptr := λ _, None.

(** The state [st] holds the entries [l]: the nodes at the distinct addresses
    [ns] are linked from [head] to [tail] and carry [l] in order. *)
Definition is_queue (st : state) (l : list task_ptr) : Prop :=
  ∃ ns : list loc,
    length ns = length l
    ∧ NoDup ns
    ∧ head st = ns !! 0
    ∧ tail st = last ns
    ∧ ∀ i n, ns !! i = Some n →
        ∃ e, l !! i = Some e
             ∧ heap st !! n = Some {| task := e; next := ns !! S i |}.

(** [head] and [tail] are [NULL] together. *)
Definition null_together (st : state) : Prop :=
  head st = None ↔ tail st = None.

(** The states reached from [queue_init] by calls that return. *)
Inductive reachable (malloc : node_heap → ptr) : state → Prop :=
| reachable_init st :
    reachable malloc (queue_init st)
| reachable_enqueue st t st' :
    reachable malloc st →
    enqueue_task malloc st t = Ok () st' →
    reachable malloc st'
| reachable_dequeue st t st' :
    reachable malloc st →
    dequeue_task st = Ok t st' →
    reachable malloc st'.

Definition empty_state : state := {| head := None; tail := None; heap := ∅ |}.

End Queue.

Module Pool.
Import Validator Queue.

(** ** [main]

    What [main] does to the pool, in program order.  Console output,
    [free(workers)] and [queue_destroy] touch nothing the model tracks and
    are left out; [return c] from [main] ends the process like [exit(c)].
    [Overflow] is the [++i] of the submission loop when [i] is [INT_MAX]:
    the behaviour of the program is undefined from there on, and the
    transition system has no step for it. *)
Inductive action : Type :=
| Init_queue                  (* queue_init(&queue) *)
| Create (i : nat)            (* pthread_create(&workers[i], NULL, worker_loop, NULL) *)
| Enqueue (t : task_ptr)      (* enqueue_task(&queue, t) *)
| Join (i : nat)              (* pthread_join(workers[i], NULL) *)
| Exit_process (code : Z)     (* return code / exit(code) *)
| Overflow.                   (* ++i with i == INT_MAX *)

(** The largest [int]. *)
Definition INT_MAX : Z := (2 ^ 31 - 1)%Z.

(** What [main] gets from outside: its argument, its input and the outcome
    of its own allocations and thread creations. *)
Record environment : Type := {
  argv1 : option Z;                        (* atoi(argv[1]) when argc >= 2 *)
  workers_malloc : bool;                   (* malloc of the workers array *)
  pthread_create : nat → bool;             (* creation of worker i *)
  read_board_count : option Z;             (* the count prompt; None on EOF *)
  read_board_from_stdin : nat → option board;  (* board i; None on failure *)
  task_malloc : nat → bool                 (* malloc of the task for board i *)
}.

(** [worker_count], 4 unless the argument is positive. *)
Definition worker_count (env : environment) : nat :=
  match argv1 env with
  | Some n => if (0 <? n)%Z then Z.to_nat n else 4
  | None => 4
  end.

(** The loop creating workers [i .. i + n - 1], followed by [k]. *)
Fixpoint create_workers (env : environment) (i n : nat) (k : list action)
  : list action :=
  match n with
  | 0 => k
  | S n' =>
      if pthread_create env i
      then Create i :: create_workers env (S i) n' k
      else [Exit_process 1]
  end.

(** One [NULL] per worker, then one join per worker. *)
Definition shutdown (N : nat) : list action :=
  replicate N (Enqueue None) ++ (Join <$> seq 0 N).

(** The submission loop [for (int i = ...; i <= board_count; ++i)] with [n]
    iterations left, and what follows it.  The counter is an [int]: after
    the iteration for [i = INT_MAX], which is also the last one since
    [board_count] is an [int], [++i] overflows. *)
Fixpoint submit (env : environment) (N i n : nat) : list action :=
  match n with
  | 0 => shutdown N ++ [Exit_process 0]
  | S n' =>
      match read_board_from_stdin env i with
      | None => shutdown N ++ [Exit_process 1]
      | Some brd =>
          if task_malloc env i
          then Enqueue (Some {| id := Z.of_nat i; task_board := brd |})
                 :: (if decide (Z.of_nat i = INT_MAX) then [Overflow]
                     else submit env N (S i) n')
          else [Exit_process 1]
      end
  end.

Definition main (env : environment) : list action :=
  let N := worker_count env in
  Init_queue ::
  if workers_malloc env then
    create_workers env 0 N
      match read_board_count env with
      | None => [Exit_process 1]
      | Some count => submit env N 1 (Z.to_nat count)
      end
  else [Exit_process 1].

(** The shape of a run of [main] that reaches the shutdown protocol. *)
Definition pool_run (N : nat) (tasks : list board_task_t) (code : Z) : list action :=
  Init_queue :: (Create <$> seq 0 N) ++ (Enqueue ∘ Some <$> tasks)
    ++ shutdown N ++ [Exit_process code].

(** The tasks made from boards [i .. i + n - 1] of the input. *)
Definition tasks_from (env : environment) (i n : nat) : list board_task_t :=
  omap (λ j, brd ← read_board_from_stdin env j;
             Some {| id := Z.of_nat j; task_board := brd |}) (seq i n).

(** ** [worker_loop] *)

Inductive worker_state : Type :=
| Ready                          (* about to lock the mutex and test [head] *)
| Waiting                        (* inside [pthread_cond_wait] *)
| Processing (t : board_task_t)  (* between [dequeue_task] and [free(task)] *)
| Terminated.                    (* left the loop *)

(** What a worker does that others can observe.  [Printed w text] is the
    line ["[Worker %lu] " ++ text] written by worker [w], whose
    [pthread_self()] the model does not number. *)
Inductive event : Type :=
| Dequeued (w : nat) (t : task_ptr)
| Printed (w : nat) (text : string)
| Joined (w : nat).

(** [if (task == NULL) break;] *)
Definition after_dequeue (t : task_ptr) : worker_state :=
  match t with
  | None => Terminated
  | Some task => Processing task
  end.

(** The rest of the iteration: [char reason[128] = {0}], the call of the
    validator and the line printed; [free(task)] ends it. *)
Definition process (w : nat) (t : board_task_t) : option event :=
  '(ok, reason) ← validate_board_internal (task_board t) "" 128;
  Some (Printed w
          (if ok : bool
           then "Board " +:+ pretty (id t) +:+ ": VALID"
           else "Board " +:+ pretty (id t) +:+ ": INVALID -> " +:+ reason)).

(** ** The pool as a transition system *)

Record system : Type := {
  todo : list action;            (* what [main] has still to do *)
  queue : Queue.state;
  workers : list worker_state;
  log : list event;              (* oldest first *)
  exited : option Z              (* the exit status once the process has ended *)
}.

Definition initial (acts : list action) : system :=
  {| todo := acts; queue := empty_state; workers := []; log := []; exited := None |}.

(** [pthread_cond_signal]: waiting workers may become ready, and if any
    worker waits at least one does. *)
Definition wakes (a b : worker_state) : Prop :=
  b = a ∨ (a = Waiting ∧ b = Ready).

Definition signalled (ws ws' : list worker_state) : Prop :=
  Forall2 wakes ws ws' ∧ (Waiting ∈ ws → ws' ≠ ws).

Inductive label : Type :=
| Main_step
| Worker_step (w : nat)
| Spurious_wakeup (w : nat).

(** A waiting worker is woken by a signal; a spurious wake-up that finds the
    queue empty changes nothing and is not a step, one that finds an entry
    takes it ([step_spurious]). *)
Inductive step (malloc : node_heap → ptr) : system → label → system → Prop :=
| step_init s rest :
    exited s = None → todo s = Init_queue :: rest →
    step malloc s Main_step
      {| todo := rest; queue := queue_init (queue s); workers := workers s;
         log := log s; exited := None |}
| step_create s i rest :
    exited s = None → todo s = Create i :: rest →
    step malloc s Main_step
      {| todo := rest; queue := queue s; workers := workers s ++ [Ready];
         log := log s; exited := None |}
| step_enqueue s t rest q' ws' :
    exited s = None → todo s = Enqueue t :: rest →
    enqueue_task malloc (queue s) t = Ok () q' →
    signalled (workers s) ws' →
    step malloc s Main_step
      {| todo := rest; queue := q'; workers := ws'; log := log s; exited := None |}
| step_enqueue_exit s t rest c :
    exited s = None → todo s = Enqueue t :: rest →
    enqueue_task malloc (queue s) t = Exit c →
    step malloc s Main_step
      {| todo := []; queue := queue s; workers := workers s; log := log s;
         exited := Some c |}
| step_join s i rest :
    exited s = None → todo s = Join i :: rest →
    workers s !! i = Some Terminated →
    step malloc s Main_step
      {| todo := rest; queue := queue s; workers := workers s;
         log := log s ++ [Joined i]; exited := None |}
| step_exit s c rest :
    exited s = None → todo s = Exit_process c :: rest →
    step malloc s Main_step
      {| todo := []; queue := queue s; workers := workers s; log := log s;
         exited := Some c |}
| step_wait s w :
    exited s = None → workers s !! w = Some Ready →
    dequeue_task (queue s) = Block →
    step malloc s (Worker_step w)
      {| todo := todo s; queue := queue s; workers := <[w := Waiting]> (workers s);
         log := log s; exited := None |}
| step_dequeue s w t q' :
    exited s = None → workers s !! w = Some Ready →
    dequeue_task (queue s) = Ok t q' →
    step malloc s (Worker_step w)
      {| todo := todo s; queue := q';
         workers := <[w := after_dequeue t]> (workers s);
         log := log s ++ [Dequeued w t]; exited := None |}
| step_spurious s w t q' :
    exited s = None → workers s !! w = Some Waiting →
    dequeue_task (queue s) = Ok t q' →
    step malloc s (Spurious_wakeup w)
      {| todo := todo s; queue := q';
         workers := <[w := after_dequeue t]> (workers s);
         log := log s ++ [Dequeued w t]; exited := None |}
| step_process s w t ev :
    exited s = None → workers s !! w = Some (Processing t) →
    process w t = Some ev →
    step malloc s (Worker_step w)
      {| todo := todo s; queue := queue s; workers := <[w := Ready]> (workers s);
         log := log s ++ [ev]; exited := None |}.

(** Steps that do not rely on a spurious wake-up. *)
Definition proper (l : label) : Prop :=
  match l with Spurious_wakeup _ => False | _ => True end.

(** The states of the runs from [s0]. *)
Inductive reaches (malloc : node_heap → ptr) (s0 : system) : system → Prop :=
| reaches_refl : reaches malloc s0 s0
| reaches_step s l s' :
    reaches malloc s0 s → step malloc s l s' → reaches malloc s0 s'.

(** The entries worker [w] has dequeued, oldest first. *)
Definition dequeued_by (w : nat) (evs : list event) : list task_ptr :=
  omap (λ ev, match ev with
              | Dequeued w' t => if decide (w' = w) then Some t else None
              | _ => None
              end) evs.

Definition is_terminated (ws : worker_state) : bool :=
  match ws with Terminated => true | _ => false end.

Definition is_live (ws : worker_state) : bool :=
  negb (is_terminated ws).

Definition is_ready (ws : worker_state) : bool :=
  match ws with Ready => true | _ => false end.

Definition is_waiting (ws : worker_state) : bool :=
  match ws with Waiting => true | _ => false end.

(** Workers that can take a step of their own accord. *)
Definition is_active (ws : worker_state) : bool :=
  match ws with Ready | Processing _ => true | _ => false end.

Definition is_sentinel (t : task_ptr) : bool :=
  match t with None => true | Some _ => false end.

(** The number of elements of [l] that satisfy [f]. *)
Definition tally {A} (f : A → bool) (l : list A) : nat :=
  sum_list ((λ x, if f x then 1 else 0) <$> l).

Definition terminated_at (s : system) (w : nat) : bool :=
  match workers s !! w with
  | Some ws => is_terminated ws
  | None => false
  end.

(** ** Invariants of the runs of [pool_run] *)

(** What [main] has still to do when [i] workers are created, the tasks [ts]
    and [k] sentinels are to be enqueued and the workers from [j] on are to
    be joined. *)
Definition remaining (N : nat) (code : Z) (i : nat) (ts : list board_task_t)
    (k j : nat) : list action :=
  (Create <$> seq i (N - i)) ++ (Enqueue ∘ Some <$> ts)
    ++ replicate k (Enqueue None) ++ (Join <$> seq j (N - j))
    ++ [Exit_process code].

(** What each worker has dequeued: tasks, then [NULL] exactly if it has
    terminated. *)
Definition log_inv (s : system) : Prop :=
  ∀ w, ∃ ts, dequeued_by w (log s)
             = (Some <$> ts) ++ (if terminated_at s w then [None] else []).

Definition running_inv (N : nat) (code : Z) (s : system) : Prop :=
  exited s = None
  ∧ ∃ i ts k j l,
      todo s = remaining N code i ts k j
      ∧ length (workers s) = i ∧ i ≤ N ∧ j ≤ N
      ∧ (0 < j → i = N ∧ ts = [] ∧ k = 0)
      ∧ (∀ w, w < j → workers s !! w = Some Terminated)
      ∧ is_queue (queue s) l
      ∧ tally is_live (workers s) + (N - i)
        = tally is_sentinel l + k
      ∧ (Waiting ∈ workers s → length l ≤ tally is_ready (workers s))
      ∧ log_inv s.

Definition final_inv (N : nat) (code : Z) (s : system) : Prop :=
  exited s = Some code
  ∧ todo s = []
  ∧ length (workers s) = N
  ∧ (∀ w, w < N → workers s !! w = Some Terminated)
  ∧ log_inv s.

Definition pool_inv (N : nat) (tasks : list board_task_t) (code : Z)
    (s : system) : Prop :=
  s = initial (pool_run N tasks code) ∨ running_inv N code s ∨ final_inv N code s.

(** A bound on the number of steps left: every step lowers it. *)
Definition weight (ws : worker_state) : nat :=
  match ws with
  | Ready => 1
  | Waiting => 0
  | Processing _ => 2
  | Terminated => 0
  end.

Definition potential (s : system) : nat :=
  match exited s with
  | Some _ => 0
  | None =>
      sum_list (weight <$> workers s) + 3 * size (heap (queue s))
      + length (todo s) * (length (workers s) + length (todo s) + 4)
  end.

(** Environments for the examples: two workers, [n] boards all equal to
    [solved]; reading fails at board [fail_read], the task allocation fails
    at board [fail_alloc]. *)
Definition example_env (n fail_read fail_alloc : nat) : environment :=
  {| argv1 := Some 2%Z;
     workers_malloc := true;
     pthread_create := λ _, true;
     read_board_count := Some (Z.of_nat n);
     read_board_from_stdin := λ i, if decide (i = fail_read) then None else Some solved;
     task_malloc := λ i, bool_decide (i ≠ fail_alloc) |}.

End Pool.

(** ** Boards of C [int]s *)

Module Ints.

(** The values of a 32-bit [int]. *)
Definition is_int (v : Z) : Prop := (- 2 ^ 31 ≤ v < 2 ^ 31)%Z.

(** A board whose 81 cells are [int]s. *)
Definition int_board (b : Validator.board) : Prop :=
  ∀ r c, r < 9 → c < 9 → is_int (b r c).

(** Two boards with the same 81 cells. *)
Definition same_cells (b b' : Validator.board) : Prop :=
  ∀ r c, r < 9 → c < 9 → b r c = b' r c.

(** [latin] with other memory around its 81 cells. *)
Definition latin_elsewhere : Validator.board :=
  λ r c, if decide (r < 9 ∧ c < 9) then Validator.latin r c else 77%Z.

End Ints.

(** ** The nodes a queue owns *)

Module Frame.
Import Queue.

(** [st] holds the entries [l] in nodes of its own, and the rest of its heap
    is [h0]: the nodes lie at distinct addresses that [h0] does not use, and
    the heap of [st] agrees with [h0] everywhere else. *)
Definition is_queue_over (h0 : node_heap) (st : state) (l : list task_ptr) : Prop :=
  ∃ ns : list loc,
    length ns = length l
    ∧ NoDup ns
    ∧ head st = ns !! 0
    ∧ tail st = last ns
    ∧ (∀ i n, ns !! i = Some n →
         ∃ e, l !! i = Some e
              ∧ heap st !! n = Some {| task := e; next := ns !! S i |})
    ∧ (∀ n, n ∈ ns → h0 !! n = None)
    ∧ (∀ n, n ∉ ns → heap st !! n = h0 !! n).

(** The number of enqueues among the calls. *)
Fixpoint enqueues (ops : list op) : nat :=
  match ops with
  | [] => 0
  | Enq _ :: ops' => S (enqueues ops')
  | Deq :: ops' => enqueues ops'
  end.

End Frame.

(** ** What a run of [main] amounts to *)

Module Runs.
Import Validator Queue Pool.

(** Nothing [main] depends on fails: the workers array and every task are
    allocated, every worker is created, the count and every board are read,
    and the count is below [INT_MAX], so that the loop counter does not
    overflow. *)
Definition run_succeeds (env : environment) : Prop :=
  workers_malloc env = true
  ∧ (∀ j, j < worker_count env → pthread_create env j = true)
  ∧ ∃ count, read_board_count env = Some count
             ∧ (count < INT_MAX)%Z
             ∧ ∀ j, 1 ≤ j < 1 + Z.to_nat count →
                 is_Some (read_board_from_stdin env j) ∧ task_malloc env j = true.

(** The set-up of [main] fails: the workers array is not allocated, some
    worker is not created, or the count is not read. *)
Definition setup_fails (env : environment) : Prop :=
  workers_malloc env = false
  ∨ (∃ j, j < worker_count env ∧ pthread_create env j = false)
  ∨ read_board_count env = None.

(** The tasks handed to [enqueue_task], in order. *)
Definition enqueued_tasks (acts : list action) : list board_task_t :=
  omap (λ a, match a with Enqueue (Some t) => Some t | _ => None end) acts.

Definition is_exit (a : action) : bool :=
  match a with Exit_process _ => true | _ => false end.

(** An environment in which creating worker [m] fails. *)
Definition create_fails_env (m : nat) : environment :=
  {| argv1 := Some 3%Z;
     workers_malloc := true;
     pthread_create := λ i, bool_decide (i ≠ m);
     read_board_count := Some 1%Z;
     read_board_from_stdin := λ _, Some solved;
     task_malloc := λ _, true |}.

End Runs.

(** ** What the runs of the pool leave in the log *)

Module Trace.
Import Validator Queue Pool.

(** Every entry taken from the queue, oldest first. *)
Definition all_dequeued (evs : list event) : list task_ptr :=
  omap (λ ev, match ev with Dequeued _ t => Some t | _ => None end) evs.

(** The entries [main] has still to enqueue, in order. *)
Definition pending (acts : list action) : list task_ptr :=
  omap (λ a, match a with Enqueue t => Some t | _ => None end) acts.

(** The tasks among queue entries, the [NULL]s dropped. *)
Definition tasks_of (l : list task_ptr) : list board_task_t :=
  omap (λ t, t) l.

(** The lines printed, oldest first, without the worker prefix. *)
Definition texts (evs : list event) : list string :=
  omap (λ ev, match ev with Printed _ text => Some text | _ => None end) evs.

(** The lines worker [w] has printed. *)
Definition printed_by (w : nat) (evs : list event) : list string :=
  omap (λ ev, match ev with
              | Printed w' text => if decide (w' = w) then Some text else None
              | _ => None
              end) evs.

(** The line [worker_loop] prints for task [t], after the worker prefix. *)
Definition line (t : board_task_t) : string :=
  match validate_board_internal (task_board t) "" 128 with
  | Some (true, _) => "Board " +:+ pretty (id t) +:+ ": VALID"
  | Some (false, reason) =>
      "Board " +:+ pretty (id t) +:+ ": INVALID -> " +:+ reason
  | None => ""
  end.

(** The task a worker holds between [dequeue_task] and its [printf]. *)
Definition in_progress (ws : worker_state) : option board_task_t :=
  match ws with Processing t => Some t | _ => None end.

(** What has been dequeued, what is queued and what is still to be enqueued
    make up, in this order, what [main] enqueues. *)
Definition fifo_inv (acts : list action) (s : system) : Prop :=
  (Init_queue ∉ todo s ∨ s = initial acts)
  ∧ ∃ l rest,
      is_queue (queue s) l
      ∧ all_dequeued (log s) ++ l ++ rest = pending acts
      ∧ (exited s = None → rest = pending (todo s)).

(** One terminated worker per sentinel dequeued; one line per task dequeued,
    but for the tasks in progress. *)
Definition report_inv (s : system) : Prop :=
  tally is_sentinel (all_dequeued (log s)) = tally is_terminated (workers s)
  ∧ texts (log s) ++ (line <$> omap in_progress (workers s))
    ≡ₚ line <$> tasks_of (all_dequeued (log s))
  ∧ ∀ w, printed_by w (log s)
         ++ (line <$> option_list (workers s !! w ≫= in_progress))
         = line <$> tasks_of (dequeued_by w (log s)).

(** One worker and one board, [solved]. *)
Definition one_worker_env : environment :=
  {| argv1 := Some 1%Z;
     workers_malloc := true;
     pthread_create := λ _, true;
     read_board_count := Some 1%Z;
     read_board_from_stdin := λ _, Some solved;
     task_malloc := λ _, true |}.

(** The state in which the run of [one_worker_env] ends. *)
Definition one_worker_final : system :=
  {| todo := [];
     queue := empty_state;
     workers := [Terminated];
     log := [Dequeued 0 (Some {| id := 1; task_board := solved |});
             Printed 0 "Board 1: VALID"; Dequeued 0 None; Joined 0];
     exited := Some 0%Z |}.

(** A state of that run in which the worker holds the board. *)
Definition one_worker_busy : system :=
  {| todo := shutdown 1 ++ [Exit_process 0];
     queue := empty_state;
     workers := [Processing {| id := 1; task_board := solved |}];
     log := [Dequeued 0 (Some {| id := 1; task_board := solved |})];
     exited := None |}.

(** A state of the run of [create_fails_env 2]: two workers are created, the
    first one waits, and [main] is about to end the process. *)
Definition starved : system :=
  {| todo := [Exit_process 1];
     queue := empty_state;
     workers := [Waiting; Ready];
     log := [];
     exited := None |}.

End Trace.

(** ** Input parsing

    The standard input is the string of the characters still to be read.
    The C-library calls are modelled after the C standard, in the "C" locale:
    [fgets], [strlen], [strtok] with the delimiters [" \t"] and [strtol] in
    base 10.  [int] has 32 bits; the width of [long] is a parameter
    ([long_bits]); [(int)v] keeps the low 32 bits. *)

Module Input.
Import Stdlib.Strings.Ascii.
Import Validator.

Definition NUL : ascii := "000"%char.
Definition LF : ascii := "010"%char.
Definition HT : ascii := "009"%char.

(** [MAX_LINE] *)
Definition MAX_LINE : nat := 512.

(** What the string functions see of a buffer: the characters before the
    first NUL. *)
Fixpoint c_str (buf : string) : string :=
  match buf with
  | "" => ""
  | String c rest => if decide (c = NUL) then "" else String c (c_str rest)
  end.

(** The characters one [fgets] call may store, [n] at most: up to and
    including the first newline. *)
Fixpoint read_line (n : nat) (input : string) : string * string :=
  match n, input with
  | S n', String c rest =>
      if decide (c = LF) then (String c "", rest)
      else let '(l, r) := read_line n' rest in (String c l, r)
  | _, _ => ("", input)
  end.

(** [fgets(buf, size, stdin)]: the buffer as a C string and the input left;
    [None] is [NULL], at the end of the input (a read error, which the
    callers treat alike, is not told apart). *)
Definition fgets (size : nat) (input : string) : option (string * string) :=
  match input with
  | "" => None
  | _ => let '(buf, rest) := read_line (size - 1) input in Some (c_str buf, rest)
  end.

(** [trim_newline] *)
Definition trim_newline (s : string) : string :=
  match String.length s with
  | 0 => s
  | S k =>
      if decide (String.get k s = Some LF) then String.substring 0 k s else s
  end.

(** *** [strtok(_, " \t")] *)

Definition is_delim (c : ascii) : bool :=
  bool_decide (c = " "%char ∨ c = HT).

Fixpoint skip_delims (s : string) : string :=
  match s with
  | "" => ""
  | String c rest => if is_delim c then skip_delims rest else s
  end.

(** The token at the start of [s] and what follows the delimiter ending it. *)
Fixpoint token (s : string) : string * string :=
  match s with
  | "" => ("", "")
  | String c rest =>
      if is_delim c then ("", rest)
      else let '(t, r) := token rest in (String c t, r)
  end.

(** One call: the token returned and the position saved for the next call;
    [None] is [NULL]. *)
Definition strtok (s : string) : option (string * string) :=
  match skip_delims s with
  | "" => None
  | s' => Some (token s')
  end.

(** *** [strtol(_, &endptr, 10)] *)

Definition isspace (c : ascii) : bool :=
  bool_decide (nat_of_ascii c = 32 ∨ 9 ≤ nat_of_ascii c ≤ 13).

Definition digit_of (c : ascii) : option Z :=
  if decide (48 ≤ nat_of_ascii c ≤ 57)
  then Some (Z.of_nat (nat_of_ascii c) - 48)%Z
  else None.

Fixpoint skip_space (s : string) : string :=
  match s with
  | "" => ""
  | String c rest => if isspace c then skip_space rest else s
  end.

(** The value of the longest prefix of digits, after [acc], and the rest. *)
Fixpoint digits (acc : Z) (s : string) : Z * string :=
  match s with
  | "" => (acc, "")
  | String c rest =>
      match digit_of c with
      | Some d => digits (acc * 10 + d) rest
      | None => (acc, s)
      end
  end.

Record strtol_t : Type := {
  value : Z;          (* the result *)
  endptr : string;    (* what [endptr] points at *)
  converted : bool;   (* [endptr != nptr] *)
  erange : bool       (* [errno == ERANGE] afterwards *)
}.

Definition LONG_MAX (long_bits : nat) : Z := (2 ^ (Z.of_nat long_bits - 1) - 1)%Z.
Definition LONG_MIN (long_bits : nat) : Z := (- 2 ^ (Z.of_nat long_bits - 1))%Z.
Global Arguments LONG_MAX : simpl never.
Global Arguments LONG_MIN : simpl never.

Definition strtol (long_bits : nat) (s : string) : strtol_t :=
  let s1 := skip_space s in
  let '(neg, s2) :=
    match s1 with
    | String c r =>
        if decide (c = "-"%char) then (true, r)
        else if decide (c = "+"%char) then (false, r)
        else (false, s1)
    | "" => (false, s1)
    end in
  match s2 with
  | String c _ =>
      match digit_of c with
      | Some _ =>
          let '(m, rest) := digits 0 s2 in
          let v := if neg : bool then (- m)%Z else m in
          {| value := LONG_MIN long_bits `max` (v `min` LONG_MAX long_bits);
             endptr := rest;
             converted := true;
             erange :=
               bool_decide (v < LONG_MIN long_bits ∨ LONG_MAX long_bits < v)%Z |}
      | None => {| value := 0; endptr := s; converted := false; erange := false |}
      end
  | "" => {| value := 0; endptr := s; converted := false; erange := false |}
  end.

(** [(int)v] *)
Definition to_int (v : Z) : Z := ((v + 2 ^ 31) `mod` 2 ^ 32 - 2 ^ 31)%Z.

(** *** [read_board_from_stdin] *)

(** The loop over the tokens of a line, [k = 9 - count] iterations at most:
    [None] when it leaves with [parse_error] set, else [vals[0 .. count-1]]. *)
Fixpoint row_loop (long_bits : nat) (k : nat) (tok : option (string * string))
    (vals : list Z) : option (list Z) :=
  match k, tok with
  | S k', Some (t, saved) =>
      let r := strtol long_bits t in
      if negb (converted r) || negb (bool_decide (endptr r = "")) || erange r
      then None
      else row_loop long_bits k' (strtok saved) (vals ++ [to_int (value r)])
  | _, _ => Some vals
  end.

(** The values of a line that is accepted as a row; [None] when the row is
    asked for again. *)
Definition parse_row (long_bits : nat) (line : string) : option (list Z) :=
  match row_loop long_bits 9 (strtok line) [] with
  | Some vals => if decide (length vals = 9) then Some vals else None
  | None => None
  end.

(** The [while (1)] loop for one row, which takes at least one character
    from the input each time round: [fuel] bounds the iterations left, and
    [None] is "out of fuel", [Some None] is [return false]. *)
Fixpoint read_row_loop (long_bits : nat) (fuel : nat) (input : string)
    : option (option (list Z * string)) :=
  match fuel with
  | 0 => None
  | S fuel' =>
      match fgets MAX_LINE input with
      | None => Some None
      | Some (buf, rest) =>
          let line := trim_newline buf in
          if decide (line = "") then read_row_loop long_bits fuel' rest
          else match parse_row long_bits line with
               | None => read_row_loop long_bits fuel' rest
               | Some vals => Some (Some (vals, rest))
               end
      end
  end.

(** With more fuel than characters the loop never runs out of it. *)
Definition read_row (long_bits : nat) (input : string)
    : option (list Z * string) :=
  default None (read_row_loop long_bits (S (String.length input)) input).

(** The [for] loop over the rows [9 - n .. 8]. *)
Fixpoint read_rows (long_bits : nat) (n : nat) (input : string)
    (rows : list (list Z)) : option (list (list Z) * string) :=
  match n with
  | 0 => Some (rows, input)
  | S n' =>
      '(vals, rest) ← read_row long_bits input;
      read_rows long_bits n' rest (rows ++ [vals])
  end.

(** The board stored in [out] and the input left; [None] is [false]. *)
Definition read_board_from_stdin (long_bits : nat) (input : string)
    : option (board * string) :=
  '(rows, rest) ← read_rows long_bits 9 input [];
  Some (board_of_rows rows, rest).

(** *** The count prompt of [main] *)

Fixpoint read_count_loop (long_bits : nat) (fuel : nat) (input : string)
    : option (option (Z * string)) :=
  match fuel with
  | 0 => None
  | S fuel' =>
      match fgets 64 input with
      | None => Some None
      | Some (buf, rest) =>
          let line := trim_newline buf in
          if decide (line = "") then read_count_loop long_bits fuel' rest
          else
            let r := strtol long_bits line in
            if negb (converted r) || negb (bool_decide (endptr r = ""))
               || bool_decide (value r ≤ 0)%Z
            then read_count_loop long_bits fuel' rest
            else Some (Some (to_int (value r), rest))
      end
  end.

(** [board_count] and the input left; [None] is [return 1]. *)
Definition read_board_count (long_bits : nat) (input : string)
    : option (Z * string) :=
  default None (read_count_loop long_bits (S (String.length input)) input).

(** *** Input as a user types it *)

Definition nl : string := String LF "".

(** Every character of [s] satisfies [P]. *)
Fixpoint all_chars (P : ascii → bool) (s : string) : bool :=
  match s with
  | "" => true
  | String c rest => P c && all_chars P rest
  end.

(** The characters [%d] prints. *)
Definition is_numeral_char (c : ascii) : bool :=
  bool_decide (is_Some (digit_of c) ∨ c = "-"%char).

(** Characters that end neither a line nor a C string. *)
Definition is_text_char (c : ascii) : bool :=
  bool_decide (c ≠ LF ∧ c ≠ NUL).

(** What may follow the last number of a row: nothing, or a blank and
    anything. *)
Definition is_tail (tail : string) : Prop :=
  tail = "" ∨ ∃ d rest, tail = String d rest ∧ is_delim d = true.

(** Nine [int]s. *)
Definition is_row (vals : list Z) : Prop :=
  length vals = 9 ∧ Forall Ints.is_int vals.

(** Nine rows of nine [int]s. *)
Definition is_grid (rows : list (list Z)) : Prop :=
  length rows = 9 ∧ Forall is_row rows.

Definition row_text (vals : list Z) : string :=
  String.concat " " (pretty <$> vals) +:+ nl.

Definition board_text (rows : list (list Z)) : string :=
  String.concat "" (row_text <$> rows).

(** A line that fits the buffer of [read_board_from_stdin], without its
    line feed. *)
Definition is_line (l : string) : Prop :=
  all_chars is_text_char l = true ∧ String.length l < MAX_LINE - 1.

(** Lines, each ended by a line feed. *)
Definition lines_text (ls : list string) : string :=
  String.concat "" ((λ l, l +:+ nl) <$> ls).

(** The console input of a session: the count, then the boards. *)
Definition session_text (boards : list (list (list Z))) : string :=
  pretty (Z.of_nat (length boards)) +:+ nl
    +:+ String.concat "" (board_text <$> boards).

(** The rows of [solved]. *)
Definition solved_rows : list (list Z) :=
  [ [5;3;4;6;7;8;9;1;2];
    [6;7;2;1;9;5;3;4;8];
    [1;9;8;3;4;2;5;6;7];
    [8;5;9;7;6;1;4;2;3];
    [4;2;6;8;5;3;7;9;1];
    [7;1;3;9;2;4;8;5;6];
    [9;6;1;5;3;7;2;8;4];
    [2;8;7;4;1;9;6;3;5];
    [3;4;5;2;8;6;1;7;9] ]%Z.

(** The tasks [main] makes of boards, numbered from 1. *)
Definition tasks_of_boards (boards : list (list (list Z))) : list board_task_t :=
  imap (λ i rows, {| id := Z.of_nat (S i); task_board := board_of_rows rows |})
       boards.

(** *** The environment of [main] when the input is [input] *)

(** The input left after [j] boards have been read. *)
Fixpoint skip_boards (long_bits : nat) (j : nat) (input : string)
    : option string :=
  match j with
  | 0 => Some input
  | S j' =>
      rest ← skip_boards long_bits j' input;
      snd <$> read_board_from_stdin long_bits rest
  end.

(** No allocation and no thread creation fails; the count and board [j] are
    read from [input], board [j] after the count and the boards before it. *)
Definition env_of_input (long_bits : nat) (arg : option Z) (input : string)
    : Pool.environment :=
  {| Pool.argv1 := arg;
     Pool.workers_malloc := true;
     Pool.pthread_create := λ _, true;
     Pool.read_board_count := fst <$> read_board_count long_bits input;
     Pool.read_board_from_stdin := λ j,
       after_count ← snd <$> read_board_count long_bits input;
       rest ← skip_boards long_bits (j - 1) after_count;
       fst <$> read_board_from_stdin long_bits rest;
     Pool.task_malloc := λ _, true |}.

End Input.

(** ** Proof automation *)

(** One block of the block scan: rewrites the loop nest of block
    [br * 3 + bc] into its uniform scan and cases on the result. *)
Local Ltac block_step Hloop br bc :=
  let H := fresh in
  pose proof (Hloop br bc ltac:(lia) ltac:(lia)) as H;
  cbn [Nat.mul Nat.add] in H; rewrite H; clear H;
  match goal with
  | |- context [Validator.scan_unit ?b Validator.Blocks ?k] =>
      destruct (Validator.scan_unit b Validator.Blocks k);
      cbn [flow_bind Nat.add]; [|done..]
  end.

(** Closes the cases of [remaining_cases] that name another action. *)
Local Ltac wrong_action :=
  repeat match goal with
         | H : _ ∨ _ |- _ => destruct H
         | H : _ ∧ _ |- _ => destruct H
         | H : ∃ _, _ |- _ => destruct H
         end;
  solve [simplify_eq; lia | simplify_eq; done | lia].

(* ===================================================================== *)
(** * Theorems *)

(** ** Loops *)

Section Loops.
Context {A St R : Type}.

Lemma for_loop_fold (body : nat → St → flow St R) i n s :
  for_loop body i n s = fold_flow body (seq i n) s.
Proof.
  revert i s. induction n as [|n IH]; intros i s; simpl; [done|].
  destruct (body i s); simpl; auto.
Qed.

Lemma fold_flow_ext (f g : A → St → flow St R) l s :
  (∀ a s, a ∈ l → f a s = g a s) → fold_flow f l s = fold_flow g l s.
Proof.
  revert s. induction l as [|a l IH]; intros s Hfg; simpl; [done|].
  rewrite Hfg by left. destruct (g a s); simpl; [|done..].
  apply IH. intros. apply Hfg. by right.
Qed.

Lemma fold_flow_app (f : A → St → flow St R) l1 l2 s :
  fold_flow f (l1 ++ l2) s = (s' ← fold_flow f l1 s ;;; fold_flow f l2 s').
Proof.
  revert s. induction l1 as [|a l1 IH]; intros s; simpl; [done|].
  destruct (f a s); simpl; auto.
Qed.

Lemma fold_flow_fmap {B} (h : B → A) (f : A → St → flow St R) l s :
  fold_flow f (h <$> l) s = fold_flow (λ x, f (h x)) l s.
Proof.
  revert s. induction l as [|a l IH]; intros s; simpl; [done|].
  destruct (f (h a) s); simpl; auto.
Qed.
End Loops.

(** A loop nest over [rs] and [cs] sharing one state is the fold over the
    pairs in row-major order. *)
Lemma fold_flow_nest {A B St R} (f : A → B → St → flow St R) rs cs s :
  fold_flow (λ r s, fold_flow (f r) cs s) rs s
  = fold_flow (λ x s, f x.1 x.2 s) (r ← rs; pair r <$> cs) s.
Proof.
  revert s. induction rs as [|r rs IH]; intros s; simpl; [done|].
  rewrite fold_flow_app, fold_flow_fmap. simpl.
  destruct (fold_flow (f r) cs s); simpl; auto.
Qed.

Import Validator.

(** ** The [seen] array *)

Lemma out_of_range_false v : out_of_range v = false ↔ (1 ≤ v ≤ 9)%Z.
Proof. unfold out_of_range. rewrite orb_false_iff. lia. Qed.

Lemma out_of_range_true v : out_of_range v = true ↔ ¬ (1 ≤ v ≤ 9)%Z.
Proof. rewrite <-out_of_range_false. destruct (out_of_range v); naive_solver. Qed.

Lemma marks_init : marks seen_init [].
Proof.
  split; [done|]. intros k Hk.
  rewrite bool_decide_eq_false_2 by apply not_elem_of_nil.
  apply lookup_replicate_2. lia.
Qed.

Lemma marks_ext seen prev prev' :
  (∀ k, k ∈ prev ↔ k ∈ prev') → marks seen prev → marks seen prev'.
Proof.
  intros Heq [Hlen Hm]. split; [done|]. intros k Hk.
  rewrite (Hm k Hk). by rewrite (bool_decide_ext _ _ (Heq k)).
Qed.

(** An out-of-range value returns before [seen] is touched. *)
Lemma mark_invalid v seen inv dup :
  out_of_range v = true → mark v seen inv dup = Return inv.
Proof. unfold mark. by intros ->. Qed.

Lemma mark_duplicate v seen prev inv dup :
  marks seen prev → out_of_range v = false → v ∈ prev →
  mark v seen inv dup = Return dup.
Proof.
  intros [Hlen Hm] Hv Hin. unfold mark. rewrite Hv.
  apply out_of_range_false in Hv. unfold seen_read.
  rewrite decide_True by lia. rewrite (Hm v Hv), bool_decide_eq_true_2 by done.
  by rewrite decide_True.
Qed.

Lemma mark_fresh v seen prev inv dup :
  marks seen prev → out_of_range v = false → v ∉ prev →
  ∃ seen', mark v seen inv dup = Next seen' ∧ marks seen' (prev ++ [v]).
Proof.
  intros [Hlen Hm] Hv Hin. unfold mark. rewrite Hv.
  apply out_of_range_false in Hv. unfold seen_read, seen_write.
  rewrite decide_True by lia. rewrite (Hm v Hv), bool_decide_eq_false_2 by done.
  rewrite decide_False by (intros H; by apply H). rewrite decide_True by lia.
  eexists; split; [done|]. split; [by rewrite length_insert|].
  intros k Hk. destruct (decide (k = v)) as [->|Hne].
  - rewrite list_lookup_insert_eq by lia.
    rewrite bool_decide_eq_true_2; [done|]. apply elem_of_app. right. by left.
  - rewrite list_lookup_insert_ne by lia. rewrite (Hm k Hk).
    rewrite (bool_decide_ext (k ∈ prev) (k ∈ prev ++ [v])); [done|].
    rewrite elem_of_app, list_elem_of_singleton. tauto.
Qed.

(** Whatever the two messages, [mark] returns the one [report] selects. *)
Lemma mark_report v seen inv dup :
  mark v seen inv dup
  = mark v seen (if out_of_range v then inv else dup)
                (if out_of_range v then inv else dup).
Proof. unfold mark. by destruct (out_of_range v). Qed.

(** ** The three scans of the source are uniform scans *)

Lemma check_rows_uniform b : check_rows b = scan_units b Rows.
Proof.
  unfold check_rows, scan_units. rewrite for_loop_fold.
  apply fold_flow_ext; intros r [] _.
  unfold scan_unit. rewrite for_loop_fold. f_equal.
  apply fold_flow_ext; intros c seen _.
  unfold row_cell, unit_step, report, value_at; simpl.
  rewrite mark_report. by destruct (out_of_range (b r c)).
Qed.

Lemma check_columns_uniform b : check_columns b = scan_units b Columns.
Proof.
  unfold check_columns, scan_units. rewrite for_loop_fold.
  apply fold_flow_ext; intros c [] _.
  unfold scan_unit. rewrite for_loop_fold. f_equal.
  apply fold_flow_ext; intros r seen _.
  unfold column_cell, unit_step, report, value_at; simpl.
  rewrite mark_report. by destruct (out_of_range (b r c)).
Qed.

(** One block: the loop nest over its rows and columns, with [idx] the
    running counter, which is [br * 3 + bc]. *)
Lemma block_loop_uniform b br bc :
  br < 3 → bc < 3 →
  for_loop (λ r seen,
      for_loop (λ c seen, block_cell b (br * 3 + bc) br bc r c seen) (bc * 3) 3 seen)
    (br * 3) 3 seen_init
  = scan_unit b Blocks (br * 3 + bc).
Proof.
  intros Hbr Hbc. rewrite for_loop_fold.
  erewrite fold_flow_ext; [|intros; apply for_loop_fold].
  rewrite fold_flow_nest. unfold scan_unit.
  assert ((r ← seq (br * 3) 3; pair r <$> seq (bc * 3) 3)
          = unit_cell Blocks (br * 3 + bc) <$> seq 0 9) as ->.
  { destruct br as [|[|[|?]]]; [| | |lia];
      (destruct bc as [|[|[|?]]]; [| | |lia]); reflexivity. }
  rewrite fold_flow_fmap. apply fold_flow_ext; intros p seen _.
  unfold block_cell, unit_step, report, value_at.
  destruct (unit_cell Blocks (br * 3 + bc) p) as [r c] eqn:Hcell; cbn [fst snd].
  rewrite mark_report.
  assert ((br * 3 + bc) / 3 = br) as -> by (symmetry; apply Nat.div_unique with bc; lia).
  assert ((br * 3 + bc) mod 3 = bc) as -> by (symmetry; apply Nat.mod_unique with br; lia).
  by destruct (out_of_range (b r c)).
Qed.

Lemma check_blocks_uniform b :
  (_ ← check_blocks b ;;; Next ()) = scan_units b Blocks.
Proof.
  assert (∃ block_loop : nat → nat → nat → flow (list Z) message,
    (∀ br bc, br < 3 → bc < 3 →
       block_loop (br * 3 + bc) br bc = scan_unit b Blocks (br * 3 + bc)) ∧
    check_blocks b
    = for_loop (λ br idx,
        for_loop (λ bc idx, _ ← block_loop idx br bc ;;; Next (idx + 1)) 0 3 idx)
      0 3 0) as (block_loop & Hloop & ->).
  { eexists (λ idx br bc, for_loop (λ r seen,
      for_loop (λ c seen, block_cell b idx br bc r c seen) (bc * 3) 3 seen)
      (br * 3) 3 seen_init).
    split; [apply block_loop_uniform | reflexivity]. }
  unfold scan_units. cbn [for_loop seq fold_flow].
  block_step Hloop 0 0. block_step Hloop 0 1. block_step Hloop 0 2.
  block_step Hloop 1 0. block_step Hloop 1 1. block_step Hloop 1 2.
  block_step Hloop 2 0. block_step Hloop 2 1. block_step Hloop 2 2.
  done.
Qed.

(** ** A unit scan stops at the first violating position *)

Lemma violates_spec b s u p :
  violates b (s, u, p) = true ↔
  out_of_range (value_at b s u p) = true
  ∨ value_at b s u p ∈ (value_at b s u <$> seq 0 p).
Proof.
  unfold violates. rewrite orb_true_iff, existsb_exists.
  apply or_iff_compat_l. rewrite list_elem_of_fmap. split.
  - intros (q & Hq & Heq). apply bool_decide_eq_true in Heq.
    exists q. by rewrite <-list_elem_of_In in Hq.
  - intros (q & Heq & Hq). exists q. rewrite <-list_elem_of_In.
    split; [done|]. by apply bool_decide_eq_true_2.
Qed.

Lemma scan_unit_from b s u n : ∀ i seen,
  marks seen (value_at b s u <$> seq 0 i) →
  (∀ q, q < i → violates b (s, u, q) = false) →
  (∃ seen', fold_flow (unit_step b s u) (seq i n) seen = Next seen'
            ∧ ∀ p, p < i + n → violates b (s, u, p) = false)
  ∨ (∃ p, i ≤ p < i + n
          ∧ fold_flow (unit_step b s u) (seq i n) seen = Return (report b (s, u, p))
          ∧ violates b (s, u, p) = true
          ∧ ∀ q, q < p → violates b (s, u, q) = false).
Proof.
  induction n as [|n IH]; intros i seen Hseen Hclean.
  { left. exists seen. split; [done|]. intros p Hp. apply Hclean. lia. }
  cbn [seq fold_flow]. unfold unit_step at 1 3.
  destruct (out_of_range (value_at b s u i)) eqn:Hrange.
  { right. exists i. rewrite mark_invalid by done.
    repeat split; [lia..|by apply violates_spec; left|done]. }
  destruct (decide (value_at b s u i ∈ (value_at b s u <$> seq 0 i))) as [Hin|Hin].
  { right. exists i. rewrite (mark_duplicate _ _ _ _ _ Hseen) by done.
    repeat split; [lia..|by apply violates_spec; right|done]. }
  destruct (mark_fresh _ _ _ (report b (s, u, i)) (report b (s, u, i)) Hseen Hrange Hin)
    as (seen' & -> & Hseen'). cbn [flow_bind].
  assert (violates b (s, u, i) = false) as Hi.
  { apply not_true_is_false. rewrite violates_spec. intros [?|?]; [congruence|done]. }
  destruct (IH (S i) seen') as [(seen'' & -> & Hall)|(p & Hp & -> & Hv & Hbefore)].
  - by rewrite seq_S, fmap_app.
  - intros q Hq. destruct (decide (q = i)) as [->|]; [done|]. apply Hclean. lia.
  - left. exists seen''. split; [done|]. intros p Hp. apply Hall. lia.
  - right. exists p. repeat split; [lia..|done|done].
Qed.

Lemma scan_unit_cases b s u :
  (∃ seen', scan_unit b s u = Next seen'
            ∧ ∀ p, p < 9 → violates b (s, u, p) = false)
  ∨ (∃ p, p < 9
          ∧ scan_unit b s u = Return (report b (s, u, p))
          ∧ violates b (s, u, p) = true
          ∧ ∀ q, q < p → violates b (s, u, q) = false).
Proof.
  destruct (scan_unit_from b s u 9 0 seen_init marks_init) as [H|(p & Hp & H)].
  - intros q Hq. lia.
  - by left.
  - right. exists p. split; [lia|done].
Qed.

(** ** A scan stops at the first violating visit of its units *)

Lemma scan_units_from b s n : ∀ i,
  (fold_flow (λ u _, _ ← scan_unit b s u ;;; Next ()) (seq i n) () = Next ()
   ∧ ∀ u p, i ≤ u < i + n → p < 9 → violates b (s, u, p) = false)
  ∨ (∃ u p, i ≤ u < i + n ∧ p < 9
       ∧ fold_flow (λ u _, _ ← scan_unit b s u ;;; Next ()) (seq i n) ()
         = Return (report b (s, u, p))
       ∧ violates b (s, u, p) = true
       ∧ (∀ u' q, i ≤ u' < u → q < 9 → violates b (s, u', q) = false)
       ∧ ∀ q, q < p → violates b (s, u, q) = false).
Proof.
  induction n as [|n IH]; intros i.
  { left. split; [done|]. intros; lia. }
  cbn [seq fold_flow].
  destruct (scan_unit_cases b s i) as [(seen' & -> & Hi)|(p & Hp & -> & Hv & Hbefore)];
    cbn [flow_bind].
  - destruct (IH (S i)) as [[-> Hall]|(u & p & Hu & Hp & -> & Hv & Hunits & Hbefore)].
    + left. split; [done|]. intros u p Hu Hp.
      destruct (decide (u = i)) as [->|]; [by apply Hi|]. apply Hall; [lia|done].
    + right. exists u, p. repeat split; [lia..|done|done| |done].
      intros u' q Hu' Hq.
      destruct (decide (u' = i)) as [->|]; [by apply Hi|]. apply Hunits; [lia|done].
  - right. exists i, p. repeat split; [lia..|done|done| |done].
    intros; lia.
Qed.

Lemma scan_units_cases b s :
  (scan_units b s = Next ()
   ∧ ∀ u p, u < 9 → p < 9 → violates b (s, u, p) = false)
  ∨ (∃ u p, u < 9 ∧ p < 9
       ∧ scan_units b s = Return (report b (s, u, p))
       ∧ violates b (s, u, p) = true
       ∧ (∀ u' q, u' < u → q < 9 → violates b (s, u', q) = false)
       ∧ ∀ q, q < p → violates b (s, u, q) = false).
Proof.
  destruct (scan_units_from b s 9 0) as [[H Hall]|(u & p & Hu & Hp & H & Hv & Hunits & Hb)].
  - left. split; [done|]. intros. apply Hall; [lia|done].
  - right. exists u, p. repeat split; [lia|done..| |done].
    intros. apply Hunits; [lia|done].
Qed.

(** ** The order of the visits *)

Lemma visits_lookup s u p :
  u < 9 → p < 9 → visits !! visit_index (s, u, p) = Some (s, u, p).
Proof.
  intros Hu Hp.
  destruct s;
    (do 9 (destruct u as [|u];
           [do 9 (destruct p as [|p]; [reflexivity|]); lia|]); lia).
Qed.

Lemma visits_lookup_inv i x :
  visits !! i = Some x →
  ∃ s u p, x = (s, u, p) ∧ u < 9 ∧ p < 9 ∧ i = visit_index (s, u, p).
Proof.
  intros Hx. assert (i < 243) as Hi by (by apply lookup_lt_Some in Hx).
  set (k := i / 81). set (u := (i mod 81) / 9). set (p := (i mod 81) mod 9).
  assert (k < 3) by (apply Nat.Div0.div_lt_upper_bound; lia).
  assert (i mod 81 < 81) by (apply Nat.mod_upper_bound; lia).
  assert (u < 9) by (apply Nat.Div0.div_lt_upper_bound; lia).
  assert (p < 9) by (apply Nat.mod_upper_bound; lia).
  assert (i = k * 81 + u * 9 + p) as Hsplit.
  { pose proof (Nat.div_mod_eq i 81). pose proof (Nat.div_mod_eq (i mod 81) 9).
    unfold k, u, p. lia. }
  exists (match k with 0 => Rows | 1 => Columns | _ => Blocks end), u, p.
  assert (visit_index (match k with 0 => Rows | 1 => Columns | _ => Blocks end, u, p) = i)
    as Hidx.
  { rewrite Hsplit. destruct k as [|[|[|?]]]; simpl; lia. }
  repeat split; [|done..].
  pose proof (visits_lookup
    (match k with 0 => Rows | 1 => Columns | _ => Blocks end) u p) as Hl.
  rewrite Hidx in Hl. rewrite Hl in Hx by done. by injection Hx.
Qed.

(** [first_violation] is the violating visit with no violating visit before
    it in the order of [visits]. *)
Lemma first_violation_Some b x :
  first_violation b = Some x ↔
  ∃ i, visits !! i = Some x ∧ violates b x = true
       ∧ ∀ j y, visits !! j = Some y → j < i → violates b y = false.
Proof.
  unfold first_violation. split.
  - intros Hx. apply fmap_Some in Hx as ([i x'] & Hfind & ->).
    apply list_find_Some in Hfind as (Hi & Hv & Hbefore).
    exists i. repeat split; [done..|]. intros j y Hy Hj.
    apply not_true_is_false. eauto.
  - intros (i & Hi & Hv & Hbefore).
    assert (list_find (λ x, violates b x = true) visits = Some (i, x)) as ->; [|done].
    apply list_find_Some. repeat split; [done..|].
    intros j y Hy Hj. rewrite (Hbefore j y Hy Hj). done.
Qed.

Lemma first_violation_None b :
  first_violation b = None ↔
  ∀ s u p, u < 9 → p < 9 → violates b (s, u, p) = false.
Proof.
  unfold first_violation. rewrite fmap_None, list_find_None, Forall_lookup. split.
  - intros Hall s u p Hu Hp. apply not_true_is_false.
    apply (Hall _ _ (visits_lookup s u p Hu Hp)).
  - intros Hall i x Hx.
    apply visits_lookup_inv in Hx as (s & u & p & -> & Hu & Hp & _).
    by rewrite Hall.
Qed.

(** The first violation of a scan, with every earlier scan clean. *)
Lemma first_violation_in_scan b s u p :
  u < 9 → p < 9 →
  (∀ s' u' q, scan_index s' < scan_index s → u' < 9 → q < 9 →
     violates b (s', u', q) = false) →
  (∀ u' q, u' < u → q < 9 → violates b (s, u', q) = false) →
  (∀ q, q < p → violates b (s, u, q) = false) →
  violates b (s, u, p) = true →
  first_violation b = Some (s, u, p).
Proof.
  intros Hu Hp Hscans Hunits Hpos Hv. apply first_violation_Some.
  exists (visit_index (s, u, p)). repeat split; [by apply visits_lookup|done|].
  intros j y Hy Hj.
  apply visits_lookup_inv in Hy as (s' & u' & q & -> & Hu' & Hq & ->).
  destruct (decide (scan_index s' < scan_index s)); [by apply Hscans|].
  assert (s' = s) as ->.
  { revert Hj n. destruct s, s'; simpl; done || lia. }
  destruct (decide (u' < u)); [by apply Hunits|].
  assert (u' = u) as -> by (simpl in Hj; lia).
  apply Hpos. simpl in Hj; lia.
Qed.

(** ** The message of the validator *)

Lemma check_blocks_cases b :
  match scan_units b Blocks with
  | Next _ => ∃ idx, check_blocks b = Next idx
  | Return m => check_blocks b = Return m
  | Undefined => check_blocks b = Undefined
  end.
Proof.
  rewrite <-check_blocks_uniform. destruct (check_blocks b); simpl; eauto.
Qed.

Theorem validate_message_spec b :
  validate_message b = Some (from_option (report b) OK (first_violation b)).
Proof.
  unfold validate_message.
  rewrite check_rows_uniform, check_columns_uniform.
  pose proof (check_blocks_cases b) as Hblocks.
  destruct (scan_units_cases b Rows)
    as [[-> Hrows]|(u & p & Hu & Hp & -> & Hv & Hunits & Hpos)].
  2: { rewrite (first_violation_in_scan b Rows u p); try done.
       intros s' ? ? Hs'. destruct s'; simpl in Hs'; lia. }
  destruct (scan_units_cases b Columns)
    as [[-> Hcols]|(u & p & Hu & Hp & -> & Hv & Hunits & Hpos)].
  2: { rewrite (first_violation_in_scan b Columns u p); try done.
       intros s' ? ? Hs'. destruct s'; simpl in Hs'; try lia. auto. }
  destruct (scan_units_cases b Blocks)
    as [[Hb Hblks]|(u & p & Hu & Hp & Hb & Hv & Hunits & Hpos)];
    rewrite Hb in Hblocks.
  2: { rewrite Hblocks. rewrite (first_violation_in_scan b Blocks u p); try done.
       intros s' ? ? Hs'. destruct s'; simpl in Hs'; try lia; auto. }
  destruct Hblocks as [idx ->].
  assert (first_violation b = None) as ->; [|done].
  apply first_violation_None. intros [] ????; auto.
Qed.

(** ** Complete units are the units without violation *)

Lemma each_once_spec (l : list Z) :
  each_once l = true ↔ ∀ k, (1 ≤ k ≤ 9)%Z → count_occ Z.eq_dec l k = 1.
Proof.
  unfold each_once. rewrite forallb_forall. split.
  - intros H k Hk. eapply bool_decide_eq_true_1, H, list_elem_of_In, elem_of_seqZ. lia.
  - intros H k Hk. apply bool_decide_eq_true_2, H.
    apply list_elem_of_In, elem_of_seqZ in Hk. lia.
Qed.

Lemma each_once_Permutation (l : list Z) :
  length l = 9 → each_once l = true ↔ l ≡ₚ seqZ 1 9.
Proof.
  intros Hlen. rewrite each_once_spec. split.
  - intros H. symmetry. apply submseteq_length_Permutation.
    + apply NoDup_submseteq; [apply NoDup_seqZ|].
      intros k Hk. apply elem_of_seqZ in Hk. apply list_elem_of_In.
      apply (count_occ_In Z.eq_dec). rewrite H; lia.
    + by rewrite Hlen.
  - intros Hperm k Hk.
    rewrite (proj1 (Permutation_count_occ Z.eq_dec l (seqZ 1 9)) Hperm k).
    apply NoDup_count_occ'.
    + apply NoDup_ListNoDup, NoDup_seqZ.
    + apply list_elem_of_In, elem_of_seqZ. lia.
Qed.

Lemma each_once_NoDup (l : list Z) :
  length l = 9 →
  each_once l = true ↔ NoDup l ∧ ∀ x, x ∈ l → out_of_range x = false.
Proof.
  intros Hlen. rewrite each_once_Permutation by done. split.
  - intros Hperm. split.
    + rewrite Hperm. apply NoDup_seqZ.
    + intros x Hx. rewrite Hperm in Hx. apply elem_of_seqZ in Hx.
      apply out_of_range_false. lia.
  - intros [Hnd Hrange]. apply submseteq_length_Permutation.
    + apply NoDup_submseteq; [done|]. intros x Hx.
      apply Hrange, out_of_range_false in Hx. apply elem_of_seqZ. lia.
    + by rewrite Hlen.
Qed.

Lemma clean_prefix_spec (f : nat → Z) n :
  (∀ p, p < n → out_of_range (f p) = false ∧ f p ∉ (f <$> seq 0 p))
  ↔ NoDup (f <$> seq 0 n) ∧ ∀ x, x ∈ (f <$> seq 0 n) → out_of_range x = false.
Proof.
  induction n as [|n IH].
  { split; [|intros; lia]. intros _. split; [constructor|]. by intros x ?%elem_of_nil. }
  rewrite seq_S, fmap_app. simpl. rewrite NoDup_app. split.
  - intros H. assert (∀ p, p < n → out_of_range (f p) = false ∧ f p ∉ f <$> seq 0 p)
      as [Hnd Hr]%IH by (intros; apply H; lia).
    destruct (H n) as [Hn Hnin]; [lia|]. repeat split; [done| |apply NoDup_singleton|].
    + intros x Hx ->%list_elem_of_singleton. done.
    + intros x [?| ->%list_elem_of_singleton]%elem_of_app; auto.
  - intros [(Hnd & Hnin & _) Hr] p Hp.
    destruct (decide (p = n)) as [->|].
    + split; [apply Hr, elem_of_app; right; by left|].
      intros Hin. apply (Hnin _ Hin). by left.
    + apply IH; [|lia]. split; [done|]. intros x Hx. apply Hr, elem_of_app. by left.
Qed.

Lemma unit_clean_iff b s u :
  (∀ p, p < 9 → violates b (s, u, p) = false) ↔ each_once (unit_values b s u) = true.
Proof.
  unfold unit_values. rewrite each_once_NoDup by done.
  rewrite <-clean_prefix_spec. apply forall_proper; intros p.
  apply imp_iff_compat_l. rewrite <-not_true_iff_false, violates_spec.
  destruct (out_of_range (value_at b s u p)); intuition congruence.
Qed.

Lemma units_ok_spec b s :
  units_ok b s = true ↔ ∀ u p, u < 9 → p < 9 → violates b (s, u, p) = false.
Proof.
  unfold units_ok. rewrite forallb_forall. split.
  - intros H u p Hu Hp. revert p Hp. apply unit_clean_iff, H.
    apply list_elem_of_In, elem_of_seq. lia.
  - intros H u Hu. apply list_elem_of_In, elem_of_seq in Hu.
    apply unit_clean_iff. intros p Hp. apply H; lia.
Qed.

Lemma sudoku_valid_spec b :
  sudoku_valid b = true ↔ first_violation b = None.
Proof.
  unfold sudoku_valid. rewrite !andb_true_iff, !units_ok_spec, first_violation_None.
  split; [intros [[??]?] []; auto|]. intros H. repeat split; apply H.
Qed.

Lemma sudoku_invalid_spec b :
  sudoku_valid b = false ↔ ∃ x, first_violation b = Some x.
Proof.
  rewrite <-not_true_iff_false, sudoku_valid_spec.
  destruct (first_violation b) as [x|].
  - split; [eauto|done].
  - split; [intros H; by destruct H|intros [x Hx]; done].
Qed.

(** ** Results of [validate_board_internal] *)

Lemma report_not_OK b x : is_OK (report b x) = false.
Proof.
  destruct x as [[s u] p]. unfold report.
  destruct (unit_cell s u p), s, (out_of_range (value_at b _ u p)); done.
Qed.

Lemma substring_whole (s : string) k :
  String.length s ≤ k → String.substring 0 k s = s.
Proof.
  revert k. induction s as [|a s IH]; intros k Hk; simpl in *.
  - by destruct k.
  - destruct k as [|k]; [lia|]. simpl. rewrite IH; [done|lia].
Qed.

Lemma validate_board_internal_spec b reason reason_len :
  validate_board_internal b reason reason_len
  = Some (match first_violation b with
          | None => (true, snprintf reason reason_len "OK")
          | Some x => (false, snprintf reason reason_len (format (report b x)))
          end).
Proof.
  unfold validate_board_internal. rewrite validate_message_spec.
  destruct (first_violation b) as [x|]; cbn [from_option mbind option_bind]; [|done].
  by rewrite report_not_OK.
Qed.

(** Every cell of a board whose rows are clean is in range. *)
Lemma rows_clean_in_range b r c :
  (∀ u p, u < 9 → p < 9 → violates b (Rows, u, p) = false) →
  r < 9 → c < 9 → out_of_range (b r c) = false.
Proof.
  intros Hrows Hr Hc. specialize (Hrows r c Hr Hc).
  apply not_true_iff_false in Hrows. rewrite violates_spec in Hrows.
  unfold value_at in Hrows; simpl in Hrows.
  destruct (out_of_range (b r c)); [|done]. destruct Hrows. by left.
Qed.

Lemma unit_cell_bounds s u p :
  u < 9 → p < 9 → (unit_cell s u p).1 < 9 ∧ (unit_cell s u p).2 < 9.
Proof.
  intros Hu Hp. destruct s; simpl; [lia..|].
  pose proof (Nat.Div0.div_lt_upper_bound u 3 3). 
  pose proof (Nat.Div0.div_lt_upper_bound p 3 3).
  pose proof (Nat.mod_upper_bound u 3). pose proof (Nat.mod_upper_bound p 3).
  change (u / 3 * 3 + p / 3 < 9 ∧ u mod 3 * 3 + p mod 3 < 9). lia.
Qed.

Lemma rows_clean_values_in_range b s u p :
  (∀ u p, u < 9 → p < 9 → violates b (Rows, u, p) = false) →
  u < 9 → p < 9 → out_of_range (value_at b s u p) = false.
Proof.
  intros Hrows Hu Hp. destruct (unit_cell_bounds s u p Hu Hp).
  unfold value_at. by apply rows_clean_in_range.
Qed.

(** C1. With a buffer of at least three bytes, [validate_board_internal]
    returns true with [reason] exactly "OK" if and only if every row, every
    column and every 3×3 block contains each of 1..9 exactly once; on every
    other board it returns false. *)
Theorem validate_true_iff_valid (b : board) (reason : string) (reason_len : nat) :
  3 ≤ reason_len →
  (sudoku_valid b = true
   ↔ validate_board_internal b reason reason_len = Some (true, "OK"))
  ∧ (sudoku_valid b = false
     ↔ ∃ text, validate_board_internal b reason reason_len = Some (false, text)).
Proof.
  intros Hlen. rewrite validate_board_internal_spec.
  assert (snprintf reason reason_len "OK" = "OK") as ->.
  { destruct reason_len as [|k]; [lia|]. apply substring_whole. simpl. lia. }
  rewrite sudoku_valid_spec, sudoku_invalid_spec.
  destruct (first_violation b) as [x|]; split; split; try done; eauto.
  - by intros [x ?].
  - by intros [text ?].
Qed.

Lemma validate_true_iff_valid_witness :
  (sudoku_valid solved = true
   ↔ validate_board_internal solved "" 128 = Some (true, "OK"))
  ∧ (sudoku_valid solved = false
     ↔ ∃ text, validate_board_internal solved "" 128 = Some (false, text)).
Proof. apply (validate_true_iff_valid solved "" 128). lia. Defined.

(** C2. On an invalid board [validate_board_internal] returns false, and the
    text written describes the first violating visit in the order of
    [visits]: the row scan (rows by index, cells left to right), then the
    column scan (columns by index, cells top to bottom), then the block scan
    (blocks and their cells in row-major order).  The text names the
    offending value and the 1-based index of the row, column or block; it is
    written whole when it fits [reason_len] with its terminator, and cut to
    [reason_len - 1] characters otherwise. *)
Theorem first_violation_reported (b : board) (reason : string) (reason_len : nat) :
  sudoku_valid b = false →
  ∃ i s u p text,
    visits !! i = Some (s, u, p)
    ∧ violates b (s, u, p) = true
    ∧ (∀ j y, visits !! j = Some y → j < i → violates b y = false)
    ∧ text
      = (let v := value_at b s u p in
         let row := (unit_cell s u p).1 + 1 in
         let col := (unit_cell s u p).2 + 1 in
         match s with
         | Rows =>
             if out_of_range v
             then "Invalid number " +:+ pretty v +:+ " at row " +:+ pretty row
                    +:+ " col " +:+ pretty col
             else "Duplicate " +:+ pretty v +:+ " in row " +:+ pretty (u + 1)
         | Columns =>
             if out_of_range v
             then "Invalid number " +:+ pretty v +:+ " at row " +:+ pretty row
                    +:+ " col " +:+ pretty col
             else "Duplicate " +:+ pretty v +:+ " in column " +:+ pretty (u + 1)
         | Blocks =>
             if out_of_range v
             then "Invalid number " +:+ pretty v +:+ " in 3x3 block "
                    +:+ pretty (u + 1) +:+ " at row " +:+ pretty row
                    +:+ " col " +:+ pretty col
             else "Duplicate " +:+ pretty v +:+ " in 3x3 block "
                    +:+ pretty (u + 1) +:+ " (top-left row "
                    +:+ pretty (u / 3 * 3 + 1) +:+ " col "
                    +:+ pretty (u `mod` 3 * 3 + 1) +:+ ")"
         end)
    ∧ validate_board_internal b reason reason_len
      = Some (false, match reason_len with
                     | 0 => reason
                     | S k => String.substring 0 k text
                     end)
    ∧ (String.length text < reason_len →
       validate_board_internal b reason reason_len = Some (false, text)).
Proof.
  intros [x Hx]%sudoku_invalid_spec. rewrite validate_board_internal_spec, Hx.
  apply first_violation_Some in Hx as (i & Hi & Hv & Hbefore).
  destruct x as [[s u] p]. exists i, s, u, p. eexists.
  split_and!; [done|done|done|reflexivity| |].
  - f_equal. f_equal. unfold snprintf, report.
    destruct (unit_cell s u p) as [r c] eqn:Hcell. cbn [fst snd].
    destruct reason_len as [|k]; [done|].
    destruct s; by destruct (out_of_range _).
  - intros Hlen. f_equal. f_equal. unfold snprintf, report.
    destruct (unit_cell s u p) as [r c] eqn:Hcell. cbn [fst snd] in *.
    destruct reason_len as [|k]; [lia|].
    destruct s; destruct (out_of_range _); unfold format;
      apply substring_whole; lia.
Qed.

Lemma first_violation_reported_witness :
  ∃ i s u p text,
    visits !! i = Some (s, u, p)
    ∧ violates solved_row_duplicate (s, u, p) = true
    ∧ (∀ j y, visits !! j = Some y → j < i →
         violates solved_row_duplicate y = false)
    ∧ text
      = (let v := value_at solved_row_duplicate s u p in
         let row := (unit_cell s u p).1 + 1 in
         let col := (unit_cell s u p).2 + 1 in
         match s with
         | Rows =>
             if out_of_range v
             then "Invalid number " +:+ pretty v +:+ " at row " +:+ pretty row
                    +:+ " col " +:+ pretty col
             else "Duplicate " +:+ pretty v +:+ " in row " +:+ pretty (u + 1)
         | Columns =>
             if out_of_range v
             then "Invalid number " +:+ pretty v +:+ " at row " +:+ pretty row
                    +:+ " col " +:+ pretty col
             else "Duplicate " +:+ pretty v +:+ " in column " +:+ pretty (u + 1)
         | Blocks =>
             if out_of_range v
             then "Invalid number " +:+ pretty v +:+ " in 3x3 block "
                    +:+ pretty (u + 1) +:+ " at row " +:+ pretty row
                    +:+ " col " +:+ pretty col
             else "Duplicate " +:+ pretty v +:+ " in 3x3 block "
                    +:+ pretty (u + 1) +:+ " (top-left row "
                    +:+ pretty (u / 3 * 3 + 1) +:+ " col "
                    +:+ pretty (u `mod` 3 * 3 + 1) +:+ ")"
         end)
    ∧ validate_board_internal solved_row_duplicate "" 128
      = Some (false, String.substring 0 127 text)
    ∧ (String.length text < 128 →
       validate_board_internal solved_row_duplicate "" 128 = Some (false, text)).
Proof.
  apply (first_violation_reported solved_row_duplicate "" 128).
  vm_compute. reflexivity.
Defined.

(** C3. The run of the validator is always defined, and a value outside
    [1,9] at any cell makes it return false.  If that cell's visit in the
    row scan is the first violation, the text is "Invalid number", the value,
    " at row ", the cell's 1-based row, " col ", its 1-based column, written
    whole when it fits [reason_len] with its terminator and cut to
    [reason_len - 1] characters otherwise.  An out-of-range value returns
    from [mark] without reading or writing [seen].  A zero is such a value. *)
Theorem out_of_range_rejected (b : board) (reason : string) (reason_len : nat) :
  is_Some (validate_board_internal b reason reason_len)
  ∧ (∀ r c, r < 9 → c < 9 → out_of_range (b r c) = true →
       (∃ text, validate_board_internal b reason reason_len = Some (false, text))
       ∧ (first_violation b = Some (Rows, r, c) →
          let text := "Invalid number " +:+ pretty (b r c) +:+ " at row "
                        +:+ pretty (r + 1) +:+ " col " +:+ pretty (c + 1) in
          validate_board_internal b reason reason_len
          = Some (false, match reason_len with
                         | 0 => reason
                         | S k => String.substring 0 k text
                         end)
          ∧ (String.length text < reason_len →
             validate_board_internal b reason reason_len = Some (false, text)))
       ∧ (∀ seen seen' invalid duplicate,
            mark (b r c) seen invalid duplicate = Return invalid
            ∧ mark (b r c) seen invalid duplicate
              = mark (b r c) seen' invalid duplicate))
  ∧ (∀ r c, r < 9 → c < 9 → b r c = 0%Z →
       ∃ text, validate_board_internal b reason reason_len = Some (false, text)).
Proof.
  assert (∀ r c, r < 9 → c < 9 → out_of_range (b r c) = true →
    ∃ text, validate_board_internal b reason reason_len = Some (false, text)) as Hbad.
  { intros r c Hr Hc Hv. rewrite validate_board_internal_spec.
    destruct (first_violation b) as [x|] eqn:Hx; [eauto|].
    rewrite first_violation_None in Hx.
    rewrite (rows_clean_in_range b r c) in Hv; [done| |done..].
    intros; by apply Hx. }
  split; [rewrite validate_board_internal_spec; eauto|]. split.
  - intros r c Hr Hc Hv. split; [eauto|]. split.
    + intros Hfirst text. rewrite validate_board_internal_spec, Hfirst.
      assert (format (report b (Rows, r, c)) = text) as ->.
      { unfold report, value_at. cbn [unit_cell fst snd]. by rewrite Hv. }
      unfold snprintf. split; [done|]. intros Hlen.
      destruct reason_len as [|k]; [lia|].
      by rewrite substring_whole by lia.
    + intros. by rewrite !mark_invalid.
  - intros r c Hr Hc Hz. apply (Hbad r c); [done..|]. by rewrite Hz.
Qed.

Lemma out_of_range_rejected_witness :
  (∃ text, validate_board_internal solved_with_zero "" 128 = Some (false, text))
  ∧ validate_board_internal solved_with_ten "" 128
    = Some (false, "Invalid number 10 at row 3 col 8").
Proof.
  split.
  - destruct (out_of_range_rejected solved_with_zero "" 128) as (_ & _ & Hzero).
    apply (Hzero 4 4); [lia|lia|reflexivity].
  - destruct (out_of_range_rejected solved_with_ten "" 128) as (_ & Hbad & _).
    destruct (Hbad 2 7) as (_ & Htext & _); [lia|lia|reflexivity|].
    destruct Htext as [_ Hwhole]; [vm_compute; reflexivity|].
    apply Hwhole. vm_compute. lia.
Defined.

(** C10. When the row scan completes, every cell holds a value in [1,9]:
    every value read by any scan passes the range test, and whatever the
    column scan or the block scan returns is a duplicate message. *)
Theorem later_scans_report_duplicates (b : board) :
  check_rows b = Next () →
  (∀ r c, r < 9 → c < 9 → (1 ≤ b r c ≤ 9)%Z)
  ∧ (∀ s u p, u < 9 → p < 9 → out_of_range (value_at b s u p) = false)
  ∧ (∀ m, check_columns b = Return m → ∃ v c, m = Duplicate_in_column v c)
  ∧ (∀ m, check_blocks b = Return m → ∃ v k r c, m = Duplicate_in_block v k r c).
Proof.
  rewrite check_rows_uniform. intros Hrows.
  assert (∀ u p, u < 9 → p < 9 → violates b (Rows, u, p) = false) as Hclean.
  { destruct (scan_units_cases b Rows) as [[_ H]|(u & p & _ & _ & H & _)]; [done|].
    congruence. }
  split; [|split; [|split]].
  - intros r c Hr Hc. by apply out_of_range_false, rows_clean_in_range.
  - intros s u p Hu Hp. by apply rows_clean_values_in_range.
  - intros m. rewrite check_columns_uniform. intros Hm.
    destruct (scan_units_cases b Columns) as [[H _]|(u & p & Hu & Hp & H & _)];
      [congruence|].
    rewrite Hm in H. injection H as ->. unfold report.
    rewrite (rows_clean_values_in_range b Columns u p) by done. simpl. eauto.
  - intros m Hm. pose proof (check_blocks_cases b) as Hcases.
    destruct (scan_units_cases b Blocks) as [[H _]|(u & p & Hu & Hp & H & _)];
      rewrite H in Hcases; [destruct Hcases; congruence|].
    rewrite Hm in Hcases. injection Hcases as ->. unfold report.
    rewrite (rows_clean_values_in_range b Blocks u p) by done.
    destruct (unit_cell Blocks u p). eauto.
Qed.

Lemma later_scans_report_duplicates_witness :
  (∀ r c, r < 9 → c < 9 → (1 ≤ solved_swapped r c ≤ 9)%Z)
  ∧ (∀ s u p, u < 9 → p < 9 → out_of_range (value_at solved_swapped s u p) = false)
  ∧ (∀ m, check_columns solved_swapped = Return m → ∃ v c, m = Duplicate_in_column v c)
  ∧ (∀ m, check_blocks solved_swapped = Return m
       → ∃ v k r c, m = Duplicate_in_block v k r c).
Proof. apply (later_scans_report_duplicates solved_swapped). vm_compute. reflexivity. Defined.

Lemma count_occ_repeated (f : nat → Z) p n :
  p < n → f p ∈ (f <$> seq 0 p) → 2 ≤ count_occ Z.eq_dec (f <$> seq 0 n) (f p).
Proof.
  intros Hp Hin.
  replace n with (p + S (n - S p)) by lia.
  rewrite seq_app, fmap_app, count_occ_app. cbn [seq fmap list_fmap Nat.add count_occ].
  apply list_elem_of_In, (count_occ_In Z.eq_dec) in Hin.
  destruct (Z.eq_dec (f p) (f p)); [lia|done].
Qed.

(** C5. On a board whose rows and columns are all complete while some block
    is not, [validate_board_internal] returns false and the text is
    "Duplicate ", a value that occurs at least twice in the first incomplete
    block [k] in row-major order, " in 3x3 block ", its 1-based index
    [k + 1], and the 1-based row and column of its top-left cell; the text is
    written whole when it fits [reason_len] with its terminator and cut to
    [reason_len - 1] characters otherwise. *)
Theorem block_duplicate_reported (b : board) (reason : string) (reason_len : nat) :
  units_ok b Rows = true → units_ok b Columns = true → units_ok b Blocks = false →
  ∃ k v text,
    k < 9
    ∧ each_once (unit_values b Blocks k) = false
    ∧ (∀ j, j < k → each_once (unit_values b Blocks j) = true)
    ∧ 2 ≤ count_occ Z.eq_dec (unit_values b Blocks k) v
    ∧ text = "Duplicate " +:+ pretty v +:+ " in 3x3 block " +:+ pretty (k + 1)
               +:+ " (top-left row " +:+ pretty (k / 3 * 3 + 1)
               +:+ " col " +:+ pretty (k `mod` 3 * 3 + 1) +:+ ")"
    ∧ validate_board_internal b reason reason_len
      = Some (false, match reason_len with
                     | 0 => reason
                     | S n => String.substring 0 n text
                     end)
    ∧ (String.length text < reason_len →
       validate_board_internal b reason reason_len = Some (false, text)).
Proof.
  intros Hrows' Hcols' Hblocks.
  pose proof (proj1 (units_ok_spec b Rows) Hrows') as Hrows.
  pose proof (proj1 (units_ok_spec b Columns) Hcols') as Hcols.
  destruct (scan_units_cases b Blocks)
    as [[_ Hall]|(k & p & Hk & Hp & _ & Hv & Hunits & Hpos)].
  { apply (proj2 (units_ok_spec b Blocks)) in Hall. congruence. }
  assert (out_of_range (value_at b Blocks k p) = false) as Hrange
    by (by apply rows_clean_values_in_range).
  exists k, (value_at b Blocks k p). eexists.
  split; [done|]. split; [|split; [|split; [|split; [reflexivity|]]]].
  - apply not_true_iff_false. rewrite <-unit_clean_iff. intros H.
    rewrite H in Hv; done.
  - intros j Hj. apply unit_clean_iff. intros q Hq. by apply Hunits.
  - apply violates_spec in Hv as [Hv|Hv]; [congruence|].
    by apply count_occ_repeated.
  - rewrite validate_board_internal_spec.
    rewrite (first_violation_in_scan b Blocks k p); try done.
    2: { intros [] u' q Hs Hu' Hq; simpl in Hs; try lia; auto. }
    unfold report. rewrite Hrange. destruct (unit_cell Blocks k p).
    unfold snprintf, format. split; [done|]. intros Hlen.
    destruct reason_len as [|len]; [lia|]. by rewrite substring_whole by lia.
Qed.

Lemma block_duplicate_reported_witness :
  ∃ k v text,
    k < 9
    ∧ each_once (unit_values solved_columns_swapped Blocks k) = false
    ∧ (∀ j, j < k → each_once (unit_values solved_columns_swapped Blocks j) = true)
    ∧ 2 ≤ count_occ Z.eq_dec (unit_values solved_columns_swapped Blocks k) v
    ∧ text = "Duplicate " +:+ pretty v +:+ " in 3x3 block " +:+ pretty (k + 1)
               +:+ " (top-left row " +:+ pretty (k / 3 * 3 + 1)
               +:+ " col " +:+ pretty (k `mod` 3 * 3 + 1) +:+ ")"
    ∧ validate_board_internal solved_columns_swapped "" 128
      = Some (false, String.substring 0 127 text)
    ∧ (String.length text < 128 →
       validate_board_internal solved_columns_swapped "" 128 = Some (false, text)).
Proof.
  apply (block_duplicate_reported solved_columns_swapped "" 128);
    vm_compute; reflexivity.
Defined.

(** ** Exchanging two cells of a row *)

Lemma violates_false b s u p :
  violates b (s, u, p) = false ↔
  out_of_range (value_at b s u p) = false
  ∧ ∀ q, q < p → value_at b s u q ≠ value_at b s u p.
Proof.
  rewrite <-not_true_iff_false, violates_spec, list_elem_of_fmap. split.
  - intros H. split.
    + destruct (out_of_range _); [|done]. destruct H; by left.
    + intros q Hq Heq. apply H. right. exists q. split; [done|].
      apply elem_of_seq. lia.
  - intros [Hrange Hne] [?|(q & Heq & Hq%elem_of_seq)]; [congruence|].
    apply (Hne q); [lia|done].
Qed.

Lemma clean_unit_inj b s u p q :
  (∀ p, p < 9 → violates b (s, u, p) = false) →
  p < 9 → q < 9 → value_at b s u p = value_at b s u q → p = q.
Proof.
  intros Hclean Hp Hq Heq.
  destruct (Nat.lt_total p q) as [Hlt|[?|Hlt]]; [|done|].
  - destruct (proj1 (violates_false b s u q) (Hclean q Hq)) as [_ H].
    by destruct (H p Hlt).
  - destruct (proj1 (violates_false b s u p) (Hclean p Hp)) as [_ H].
    by destruct (H q Hlt).
Qed.

Lemma violates_ext b b' s u p :
  (∀ q, q ≤ p → value_at b' s u q = value_at b s u q) →
  violates b' (s, u, p) = violates b (s, u, p).
Proof.
  intros Heq. apply eq_true_iff_eq. rewrite !violates_spec.
  rewrite (Heq p) by lia.
  assert ((value_at b' s u <$> seq 0 p) = (value_at b s u <$> seq 0 p)) as ->; [|done].
  apply list_fmap_ext. intros i q Hq%lookup_seq. apply Heq. lia.
Qed.

(** In a complete unit every value of 1..9 sits at some position. *)
Lemma complete_unit_has b s u w :
  (∀ p, p < 9 → violates b (s, u, p) = false) →
  out_of_range w = false → ∃ p, p < 9 ∧ value_at b s u p = w.
Proof.
  intros Hclean Hw. apply unit_clean_iff in Hclean.
  apply each_once_Permutation in Hclean; [|done].
  assert (w ∈ unit_values b s u) as Hin.
  { rewrite Hclean. apply elem_of_seqZ. apply out_of_range_false in Hw. lia. }
  apply list_elem_of_fmap in Hin as (p & -> & Hp%elem_of_seq).
  exists p. split; [lia|done].
Qed.

Section SwapInRow.
Variables (b b' : board) (r cl ch : nat).
Hypothesis Hvalid : sudoku_valid b = true.
Hypothesis Hr : r < 9.
Hypothesis Hcl : cl < ch.
Hypothesis Hch : ch < 9.
Hypothesis Hb' : ∀ r' c', b' r' c' = swap_in_row b r cl ch r' c'.

Local Lemma b_clean s u p : u < 9 → p < 9 → violates b (s, u, p) = false.
Proof.
  apply sudoku_valid_spec in Hvalid. by apply first_violation_None.
Qed.

Local Lemma b_range r' c' : r' < 9 → c' < 9 → out_of_range (b r' c') = false.
Proof. apply rows_clean_in_range. intros; by apply b_clean. Qed.

Local Lemma b_row_inj u p q : u < 9 → p < 9 → q < 9 → b u p = b u q → p = q.
Proof.
  intros Hu. apply (clean_unit_inj b Rows u). intros; by apply b_clean.
Qed.

Local Lemma b_col_inj u p q : u < 9 → p < 9 → q < 9 → b p u = b q u → p = q.
Proof.
  intros Hu. apply (clean_unit_inj b Columns u). intros; by apply b_clean.
Qed.

Local Lemma b'_range r' c' : r' < 9 → c' < 9 → out_of_range (b' r' c') = false.
Proof.
  intros. rewrite Hb'. unfold swap_in_row.
  repeat case_decide; apply b_range; lia.
Qed.

(** The rows of the new board are still complete. *)
Local Lemma b'_rows_clean u p : u < 9 → p < 9 → violates b' (Rows, u, p) = false.
Proof.
  intros Hu Hp. apply violates_false. unfold value_at; simpl.
  split; [by apply b'_range|]. intros q Hq. rewrite !Hb'. unfold swap_in_row.
  repeat case_decide; destruct_and?; subst;
    intros Heq; apply b_row_inj in Heq; lia.
Qed.

(** The columns to the left of [cl] are untouched. *)
Local Lemma b'_left_columns_clean u p :
  u < cl → p < 9 → violates b' (Columns, u, p) = false.
Proof.
  intros Hu Hp. rewrite (violates_ext b b'); [apply b_clean; lia|].
  intros q Hq. unfold value_at; simpl. rewrite Hb'. unfold swap_in_row.
  repeat case_decide; destruct_and?; subst; done || lia.
Qed.

Local Lemma b'_column_cl p :
  b' p cl = if decide (p = r) then b r ch else b p cl.
Proof.
  rewrite Hb'. unfold swap_in_row.
  repeat case_decide; destruct_and?; subst; try done; try lia.
  all: exfalso; naive_solver lia.
Qed.

(** The first violation of the new board is in column [cl], at the lower
    of the two cells that now hold [b r ch]. *)
Lemma swap_first_violation :
  ∃ m, m < 9 ∧ first_violation b' = Some (Columns, cl, m) ∧ b' m cl = b r ch.
Proof.
  destruct (complete_unit_has b Columns cl (b r ch)) as (r' & Hr' & Hw).
  { intros; apply b_clean; lia. }
  { apply b_range; lia. }
  unfold value_at in Hw; simpl in Hw.
  assert (r' ≠ r) as Hne.
  { intros ->. apply b_row_inj in Hw; lia. }
  assert (b' r cl = b r ch) as Hat_r by (by rewrite b'_column_cl, decide_True).
  assert (b' r' cl = b r ch) as Hat_r' by (by rewrite b'_column_cl, decide_False).
  assert (∀ p q, p < 9 → q < 9 → p ≠ q → b' p cl = b' q cl →
                 (p = r ∧ q = r') ∨ (p = r' ∧ q = r)) as Hpairs.
  { intros p q Hp Hq Hpq. rewrite !b'_column_cl.
    repeat case_decide; subst; intros Heq; try done.
    - left. rewrite <-Hw in Heq. apply b_col_inj in Heq; [|lia..]. by subst.
    - right. rewrite <-Hw in Heq. apply b_col_inj in Heq; [|lia..]. by subst.
    - apply b_col_inj in Heq; lia. }
  exists (r `max` r'). split; [lia|]. split.
  - apply first_violation_in_scan; [lia..| | | |].
    + intros [] u' q Hs Hu' Hq; simpl in Hs; try lia. by apply b'_rows_clean.
    + apply b'_left_columns_clean.
    + intros q Hq. apply violates_false. unfold value_at; simpl.
      split; [apply b'_range; lia|]. intros q0 Hq0 Heq.
      destruct (Hpairs q0 q) as [[-> ->]|[-> ->]]; lia.
    + apply violates_spec. right. unfold value_at; simpl.
      apply list_elem_of_fmap. exists (r `min` r'). split.
      * destruct (Nat.max_spec r r') as [[_ ->]|[_ ->]];
          destruct (Nat.min_spec r r') as [[_ ->]|[_ ->]]; congruence.
      * apply elem_of_seq. lia.
  - destruct (Nat.max_spec r r') as [[_ ->]|[_ ->]]; done.
Qed.

Lemma swap_message :
  validate_message b' = Some (Duplicate_in_column (b r ch) (cl + 1)).
Proof.
  destruct swap_first_violation as (m & Hm & Hfirst & Hval).
  rewrite validate_message_spec, Hfirst. simpl. unfold value_at; simpl.
  rewrite b'_range by lia. by rewrite Hval.
Qed.
End SwapInRow.

(** C4, as the code has it.  Exchanging two distinct cells of one row of a
    valid board leaves that row complete and spoils the two columns: the
    validator returns false and the text is "Duplicate ", the value now
    standing in the left one of the two cells, " in column " and the 1-based
    index of that column, written whole when it fits [reason_len] with its
    terminator and cut to [reason_len - 1] characters otherwise. *)
Theorem swap_in_row_reported (b : board) (r c1 c2 : nat)
    (reason : string) (reason_len : nat) :
  sudoku_valid b = true → r < 9 → c1 < 9 → c2 < 9 → c1 ≠ c2 →
  let text := "Duplicate " +:+ pretty (b r (c1 `max` c2)) +:+ " in column "
                +:+ pretty (c1 `min` c2 + 1) in
  swap_in_row b r c1 c2 r (c1 `min` c2) = b r (c1 `max` c2)
  ∧ validate_board_internal (swap_in_row b r c1 c2) reason reason_len
    = Some (false, match reason_len with
                   | 0 => reason
                   | S k => String.substring 0 k text
                   end)
  ∧ (String.length text < reason_len →
     validate_board_internal (swap_in_row b r c1 c2) reason reason_len
     = Some (false, text)).
Proof.
  intros Hvalid Hr Hc1 Hc2 Hne text.
  assert (validate_message (swap_in_row b r c1 c2)
          = Some (Duplicate_in_column (b r (c1 `max` c2)) (c1 `min` c2 + 1)))
    as Hmsg.
  { destruct (Nat.lt_total c1 c2) as [Hlt|[?|Hlt]]; [|done|].
    - rewrite (swap_message b _ r c1 c2) by done.
      by rewrite Nat.max_r, Nat.min_l by lia.
    - rewrite (swap_message b _ r c2 c1); [|done..|].
      + by rewrite Nat.max_l, Nat.min_r by lia.
      + intros r' c'. unfold swap_in_row.
        repeat case_decide; destruct_and?; subst; try done; lia. }
  split_and!.
  - unfold swap_in_row. repeat case_decide; destruct_and?; subst; try done;
      (f_equal; lia) || lia.
  - unfold validate_board_internal. rewrite Hmsg. by destruct reason_len.
  - intros Hlen. unfold validate_board_internal. rewrite Hmsg.
    destruct reason_len as [|k]; [lia|]. cbn [mbind option_bind is_OK].
    unfold snprintf, format. fold text. by rewrite substring_whole by lia.
Qed.

Lemma swap_in_row_reported_witness :
  swap_in_row solved 4 7 2 4 2 = 9%Z
  ∧ validate_board_internal (swap_in_row solved 4 7 2) "" 128
    = Some (false, String.substring 0 127 "Duplicate 9 in column 3")
  ∧ (String.length "Duplicate 9 in column 3" < 128 →
     validate_board_internal (swap_in_row solved 4 7 2) "" 128
     = Some (false, "Duplicate 9 in column 3")).
Proof.
  apply (swap_in_row_reported solved 4 7 2 "" 128);
    [vm_compute; reflexivity|lia..].
Defined.

(** C4, as stated, fails on [solved] with the first two cells of row 1
    exchanged: the text names column 1, and it is not the row-duplicate
    message for any value. *)
Lemma swap_in_row_names_column :
  sudoku_valid solved = true
  ∧ validate_board_internal (swap_in_row solved 0 0 1) "" 128
    = Some (false, "Duplicate 3 in column 1")
  ∧ ¬ (∃ v row, validate_message (swap_in_row solved 0 0 1)
                = Some (Duplicate_in_row v row))
  ∧ ¬ (∃ v, (1 ≤ v ≤ 9)%Z
            ∧ validate_board_internal (swap_in_row solved 0 0 1) "" 128
              = Some (false, "Duplicate " +:+ pretty v +:+ " in row 1")).
Proof.
  split; [by vm_compute|]. split; [by vm_compute|]. split.
  - intros (v & row & H). vm_compute in H. discriminate.
  - intros (v & Hv & H).
    assert (v ∈ seqZ 1 9) as Hin by (apply elem_of_seqZ; lia).
    vm_compute in Hin.
    repeat (apply elem_of_cons in Hin as [->|Hin]; [vm_compute in H; discriminate|]).
    by apply elem_of_nil in Hin.
Qed.

(** ** The task queue *)

Import Queue.

Lemma is_queue_init st : is_queue (queue_init st) [].
Proof.
  exists []. repeat split; [constructor|]. intros i n Hn. by destruct i.
Qed.

Lemma is_queue_nil st l :
  is_queue st l → (l = [] ↔ head st = None) ∧ (l = [] ↔ tail st = None).
Proof.
  intros (ns & Hlen & _ & Hhd & Htl & _). rewrite Hhd, Htl.
  destruct l, ns as [|n ns]; simpl in *; try done.
  assert (is_Some (last (n :: ns))) as [x Hx].
  { rewrite last_is_Some. done. }
  rewrite Hx. split; split; done.
Qed.

Lemma malloc_next_fresh : malloc_fresh malloc_next.
Proof.
  intros h n [= <-]. apply not_elem_of_dom. apply is_fresh.
Qed.

Lemma malloc_next_total : malloc_total malloc_next.
Proof. intros h. by eexists. Qed.

Section QueueSteps.
Variable malloc : node_heap → ptr.
Hypothesis Hfresh : malloc_fresh malloc.

(** [enqueue_task] appends, unless the allocation fails. *)
Lemma enqueue_task_spec st l t :
  is_queue st l →
  match malloc (heap st) with
  | None => enqueue_task malloc st t = Exit 1
  | Some _ => ∃ st', enqueue_task malloc st t = Ok () st' ∧ is_queue st' (l ++ [t])
  end.
Proof.
  intros (ns & Hlen & Hnd & Hhd & Htl & Hnodes). unfold enqueue_task.
  destruct (malloc (heap st)) as [n|] eqn:Hn; [|done].
  apply Hfresh in Hn.
  assert (n ∉ ns) as Hnin.
  { intros (i & Hi)%list_elem_of_lookup.
    destruct (Hnodes i n Hi) as (e & _ & He). congruence. }
  destruct (tail st) as [tl|] eqn:Htail.
  - symmetry in Htl. apply last_Some in Htl as (ns0 & ->).
    assert (tl ≠ n) as Hne.
    { intros ->. apply Hnin, elem_of_app. right. by left. }
    destruct (Hnodes (length ns0) tl) as (e & He & Htlnode).
    { by rewrite lookup_app_r, Nat.sub_diag by lia. }
    rewrite lookup_insert_ne by done. rewrite Htlnode.
    eexists. split; [done|]. exists ((ns0 ++ [tl]) ++ [n]). simpl.
    repeat split.
    + rewrite !length_app in *. simpl in *. lia.
    + apply NoDup_app. repeat split; [done| |apply NoDup_singleton].
      intros x Hx ->%list_elem_of_singleton. done.
    + rewrite Hhd. rewrite (lookup_app_l (ns0 ++ [tl])); [done|].
      rewrite length_app. simpl. lia.
    + by rewrite last_snoc.
    + intros i x Hx.
      rewrite length_app in Hlen; simpl in Hlen.
      destruct (decide (i < length ns0)) as [Hlt|Hge].
      * (* an inner node: untouched *)
        rewrite lookup_app_l in Hx by (rewrite length_app; simpl; lia).
        destruct (Hnodes i x Hx) as (e' & He' & Hnode).
        exists e'. rewrite lookup_app_l by lia. split; [done|].
        assert (x ≠ tl).
        { intros ->. rewrite lookup_app_l in Hx by done.
          apply NoDup_app in Hnd as (_ & Hdisj & _).
          apply (Hdisj tl); [by eapply list_elem_of_lookup_2|by left]. }
        assert (x ≠ n).
        { intros ->. apply Hnin. by eapply list_elem_of_lookup_2. }
        rewrite !lookup_insert_ne by done. rewrite Hnode. do 2 f_equal.
        rewrite (lookup_app_l (ns0 ++ [tl])); [done|].
        rewrite length_app; simpl; lia.
      * destruct (decide (i = length ns0)) as [->|Hne'].
        -- (* the old last node: now linked to the new one *)
           rewrite lookup_app_l in Hx by (rewrite length_app; simpl; lia).
           rewrite lookup_app_r, Nat.sub_diag in Hx by lia.
           injection Hx as <-.
           exists e. rewrite lookup_app_l by lia. split; [done|].
           rewrite lookup_insert_eq. simpl. do 2 f_equal.
           rewrite lookup_app_r by (rewrite length_app; simpl; lia).
           rewrite length_app; simpl.
           by replace (S (length ns0) - (length ns0 + 1)) with 0 by lia.
        -- (* the new node *)
           assert (i = S (length ns0)) as ->.
           { apply lookup_lt_Some in Hx. rewrite !length_app in Hx.
             simpl in Hx. lia. }
           rewrite lookup_app_r in Hx by (rewrite length_app; simpl; lia).
           rewrite length_app in Hx; simpl in Hx.
           replace (S (length ns0) - (length ns0 + 1)) with 0 in Hx by lia.
           injection Hx as <-.
           exists t. split.
           { rewrite lookup_app_r by lia.
             by replace (S (length ns0) - length l) with 0 by lia. }
           rewrite lookup_insert_ne by done. rewrite lookup_insert_eq.
           do 2 f_equal. symmetry. apply lookup_ge_None.
           rewrite !length_app; simpl; lia.
  - symmetry in Htl. apply last_None in Htl as ->.
    destruct l; [|done].
    eexists. split; [done|]. exists [n]. repeat split; simpl.
    + apply NoDup_singleton.
    + intros [|i] x Hx; [|done]. injection Hx as <-.
      exists t. split; [done|]. by rewrite lookup_insert_eq.
Qed.

(** [dequeue_task] returns the first entry and blocks on the empty queue. *)
Lemma dequeue_task_spec st l :
  is_queue st l →
  match l with
  | [] => dequeue_task st = Block
  | t :: l' => ∃ st', dequeue_task st = Ok t st' ∧ is_queue st' l'
  end.
Proof.
  intros (ns & Hlen & Hnd & Hhd & Htl & Hnodes). unfold dequeue_task.
  destruct l as [|t l'].
  { destruct ns; [|done]. by rewrite Hhd. }
  destruct ns as [|n ns']; [done|]. simpl in *. rewrite Hhd.
  destruct (Hnodes 0 n) as (e & [= <-] & ->); [done|]. simpl.
  eexists. split; [done|]. exists ns'. simpl.
  apply NoDup_cons in Hnd as [Hnin Hnd]. repeat split.
  - lia.
  - done.
  - destruct ns' as [|n' ns'']; simpl; [done|].
    rewrite Htl. done.
  - intros i x Hx.
    destruct (Hnodes (S i) x Hx) as (e' & He' & Hnode).
    exists e'. split; [done|].
    rewrite lookup_delete_ne; [done|].
    intros ->. apply Hnin. by eapply list_elem_of_lookup_2.
Qed.
End QueueSteps.

Lemma fifo_run_enqueues ts ops l :
  fifo_run ((Enq <$> ts) ++ ops) l = fifo_run ops (l ++ ts).
Proof.
  revert l. induction ts as [|t ts IH]; intros l; simpl.
  - by rewrite app_nil_r.
  - by rewrite IH, <-app_assoc.
Qed.

Lemma fifo_run_dequeues l : fifo_run (replicate (length l) Deq) l = Some (l, []).
Proof. induction l as [|t l IH]; simpl; [done|]. by rewrite IH. Qed.

Lemma queue_run_refines malloc :
  malloc_fresh malloc → malloc_total malloc →
  ∀ ops st l, is_queue st l →
    match fifo_run ops l with
    | Some (outs, l') =>
        ∃ st', queue_run malloc ops st = Ok outs st' ∧ is_queue st' l'
    | None => queue_run malloc ops st = Block
    end.
Proof.
  intros Hfresh Htotal ops.
  induction ops as [|[t|] ops IH]; intros st l Hq; simpl.
  - eauto.
  - pose proof (enqueue_task_spec malloc Hfresh st l t Hq) as Henq.
    destruct (Htotal (heap st)) as [n Hn]. rewrite Hn in Henq.
    destruct Henq as (st' & -> & Hq'). by apply IH.
  - pose proof (dequeue_task_spec st l Hq) as Hdeq.
    destruct l as [|t l']; [by rewrite Hdeq|].
    destruct Hdeq as (st' & -> & Hq'). specialize (IH st' l' Hq').
    destruct (fifo_run ops l') as [[outs l'']|]; simpl.
    + destruct IH as (st'' & -> & Hq''). eauto.
    + by rewrite IH.
Qed.

(** C6. The linked-list queue refines the FIFO list.  Whatever the order of
    the calls, the dequeues return what the FIFO list returns and block where
    it is empty; in particular, after enqueuing [ts] on a queue holding [l],
    the next [length l + length ts] dequeues return [l ++ ts], in that order,
    and leave the queue empty, so that a further dequeue blocks. *)
Theorem queue_refines_fifo (malloc : node_heap → ptr) (st : state)
    (l : list task_ptr) (ops : list op) (ts : list task_ptr) :
  malloc_fresh malloc → malloc_total malloc → is_queue st l →
  match fifo_run ops l with
  | Some (outs, l') =>
      ∃ st', queue_run malloc ops st = Ok outs st' ∧ is_queue st' l'
  | None => queue_run malloc ops st = Block
  end
  ∧ ∃ st',
      queue_run malloc ((Enq <$> ts) ++ replicate (length l + length ts) Deq) st
      = Ok (l ++ ts) st'
      ∧ is_queue st' []
      ∧ dequeue_task st' = Block.
Proof.
  intros Hfresh Htotal Hq. split; [by apply queue_run_refines|].
  pose proof (queue_run_refines malloc Hfresh Htotal
    ((Enq <$> ts) ++ replicate (length l + length ts) Deq) st l Hq) as H.
  rewrite fifo_run_enqueues, <-length_app, fifo_run_dequeues in H.
  destruct H as (st' & Hrun & Hq'). rewrite length_app in Hrun. exists st'.
  split; [done|]. split; [done|].
  apply (dequeue_task_spec st' [] Hq').
Qed.

Lemma queue_refines_fifo_witness :
  let t1 := Some {| id := 1; task_board := solved |} in
  let t2 := Some {| id := 2; task_board := latin |} in
  match fifo_run [Enq t1; Deq; Enq None; Enq t2; Deq] [] with
  | Some (outs, l') =>
      ∃ st', queue_run malloc_next [Enq t1; Deq; Enq None; Enq t2; Deq]
               (queue_init empty_state) = Ok outs st'
             ∧ is_queue st' l'
  | None => queue_run malloc_next [Enq t1; Deq; Enq None; Enq t2; Deq]
              (queue_init empty_state) = Block
  end
  ∧ ∃ st',
      queue_run malloc_next
        ((Enq <$> [t1; None; t2]) ++ replicate (length (@nil task_ptr) + 3) Deq)
        (queue_init empty_state)
      = Ok ([] ++ [t1; None; t2]) st'
      ∧ is_queue st' []
      ∧ dequeue_task st' = Block.
Proof.
  intros t1 t2.
  apply (queue_refines_fifo malloc_next (queue_init empty_state) []
           [Enq t1; Deq; Enq None; Enq t2; Deq] [t1; None; t2]).
  - apply malloc_next_fresh.
  - apply malloc_next_total.
  - apply is_queue_init.
Defined.

(** C9. In every state reached from [queue_init] by enqueues and dequeues,
    [head] is [NULL] exactly when [tail] is; each single [enqueue_task] and
    [dequeue_task] preserves this; and in a state that holds the entries [l]
    both pointers are [NULL] exactly when [l] is empty. *)
Theorem head_null_iff_tail_null (malloc : node_heap → ptr) :
  (∀ st, reachable malloc st → null_together st)
  ∧ (∀ st t st',
       null_together st → enqueue_task malloc st t = Ok () st' → null_together st')
  ∧ (∀ st t st',
       null_together st → dequeue_task st = Ok t st' → null_together st')
  ∧ (∀ st l, is_queue st l → (l = [] ↔ head st = None ∧ tail st = None)).
Proof.
  assert (∀ st t st', null_together st →
            enqueue_task malloc st t = Ok () st' → null_together st') as Henq.
  { intros st t st' Hinv. unfold enqueue_task, null_together in *.
    destruct (malloc (heap st)) as [n|]; [|done].
    destruct (tail st) as [tl|] eqn:Htl.
    - destruct (_ !! tl); [|done]. intros [= <-]; simpl.
      destruct (head st); [split; intros; done|].
      destruct Hinv as [Hinv _]. by specialize (Hinv eq_refl).
    - intros [= <-]; simpl. split; intros; done. }
  assert (∀ st t st', null_together st →
            dequeue_task st = Ok t st' → null_together st') as Hdeq.
  { intros st t st' Hinv. unfold dequeue_task, null_together in *.
    destruct (head st) as [n|] eqn:Hhd; [|done].
    destruct (heap st !! n) as [nd|]; [|done]. intros [= <- <-]; simpl.
    destruct (next nd); [|split; intros; done].
    destruct (tail st); [split; intros; done|].
    destruct Hinv as [_ Hinv]. by specialize (Hinv eq_refl). }
  split; [|split; [done|split; [done|]]].
  - induction 1 as [st| |]; [|eauto..]. split; intros; done.
  - intros st l Hq. destruct (is_queue_nil st l Hq) as [Hhd Htl]. split.
    + intros Hl. split; [by apply Hhd|by apply Htl].
    + intros [H _]. by apply Hhd.
Qed.

Lemma head_null_iff_tail_null_witness :
  let st := {| head := Some 1%positive; tail := Some 1%positive;
               heap := {[ 1%positive := {| task := None; next := None |} ]} |} in
  null_together st
  ∧ null_together {| head := None; tail := None; heap := delete 1%positive (heap st) |}.
Proof.
  intros st.
  destruct (head_null_iff_tail_null malloc_next) as (Hreach & _ & Hdeq & _).
  assert (enqueue_task malloc_next (queue_init empty_state) None = Ok () st) as Henq
    by (by vm_compute).
  assert (null_together st) as Hst.
  { apply Hreach. eapply reachable_enqueue; [apply reachable_init|exact Henq]. }
  split; [exact Hst|].
  apply (Hdeq st None); [exact Hst|reflexivity].
Defined.

(** ** [main] *)

Import Pool.

Lemma create_workers_ok env i n k :
  (∀ j, i ≤ j < i + n → pthread_create env j = true) →
  create_workers env i n k = (Create <$> seq i n) ++ k.
Proof.
  revert i. induction n as [|n IH]; intros i Hok; simpl; [done|].
  rewrite Hok by lia. f_equal. apply IH. intros j Hj. apply Hok. lia.
Qed.

Lemma tasks_from_snoc env i m brd :
  read_board_from_stdin env (i + m) = Some brd →
  tasks_from env i (S m)
  = tasks_from env i m ++ [{| id := Z.of_nat (i + m); task_board := brd |}].
Proof.
  intros Hread. unfold tasks_from. rewrite seq_S, omap_app. simpl.
  by rewrite Hread.
Qed.

(** The submission loop up to its [m]-th iteration, all reads and task
    allocations before it succeeding and the counter staying an [int]. *)
Lemma submit_prefix env N m : ∀ i n,
  m ≤ n → (Z.of_nat (i + m) ≤ INT_MAX)%Z →
  (∀ j, i ≤ j < i + m →
     is_Some (read_board_from_stdin env j) ∧ task_malloc env j = true) →
  submit env N i n
  = (Enqueue ∘ Some <$> tasks_from env i m) ++ submit env N (i + m) (n - m).
Proof.
  induction m as [|m IH]; intros i n Hm Hmax Hok.
  { simpl. by rewrite Nat.add_0_r, Nat.sub_0_r. }
  destruct n as [|n]; [lia|]. cbn [submit].
  destruct (Hok i) as [[brd Hread] Halloc]; [lia|]. rewrite Hread, Halloc.
  rewrite decide_False by (unfold INT_MAX in *; lia).
  rewrite (IH (S i) n) by (try lia; intros; apply Hok; lia).
  unfold tasks_from. simpl. rewrite Hread. simpl.
  by replace (i + S m) with (S (i + m)) by lia.
Qed.

Lemma submit_all env N i n :
  (Z.of_nat (i + n) ≤ INT_MAX)%Z →
  (∀ j, i ≤ j < i + n →
     is_Some (read_board_from_stdin env j) ∧ task_malloc env j = true) →
  submit env N i n
  = (Enqueue ∘ Some <$> tasks_from env i n) ++ shutdown N ++ [Exit_process 0].
Proof.
  intros Hmax Hok. rewrite (submit_prefix env N n i n) by done.
  by rewrite Nat.sub_diag.
Qed.

Lemma main_prefix env count k :
  workers_malloc env = true →
  (∀ j, j < worker_count env → pthread_create env j = true) →
  read_board_count env = Some count →
  k ≤ Z.to_nat count → (Z.of_nat k < INT_MAX)%Z →
  (∀ j, 1 ≤ j < 1 + k →
     is_Some (read_board_from_stdin env j) ∧ task_malloc env j = true) →
  main env
  = Init_queue :: (Create <$> seq 0 (worker_count env))
      ++ (Enqueue ∘ Some <$> tasks_from env 1 k)
      ++ submit env (worker_count env) (1 + k) (Z.to_nat count - k).
Proof.
  intros Hw Hcreate Hcount Hk Hmax Hok. unfold main. rewrite Hw, Hcount.
  rewrite create_workers_ok by (intros; apply Hcreate; lia).
  rewrite (submit_prefix env _ k 1 (Z.to_nat count)); [done|done| |done].
  unfold INT_MAX in *. lia.
Qed.

(** A run of [main] without failure has the shape of [pool_run]. *)
Lemma main_ok env count :
  workers_malloc env = true →
  (∀ j, j < worker_count env → pthread_create env j = true) →
  read_board_count env = Some count → (count < INT_MAX)%Z →
  (∀ j, 1 ≤ j < 1 + Z.to_nat count →
     is_Some (read_board_from_stdin env j) ∧ task_malloc env j = true) →
  main env = pool_run (worker_count env) (tasks_from env 1 (Z.to_nat count)) 0.
Proof.
  intros Hw Hcreate Hcount Hmax Hok.
  rewrite (main_prefix env count (Z.to_nat count)); [|done..| |done].
  - by rewrite Nat.sub_diag.
  - unfold INT_MAX in *. lia.
Qed.

(** [pool_run] spelled out: the sentinels and the joins. *)
Lemma pool_run_unfold N tasks code :
  pool_run N tasks code
  = Init_queue :: (Create <$> seq 0 N) ++ (Enqueue ∘ Some <$> tasks)
      ++ replicate N (Enqueue None) ++ (Join <$> seq 0 N) ++ [Exit_process code].
Proof. unfold pool_run, shutdown. by rewrite <-!app_assoc. Qed.

(** C8, as the code has it.  [board_count] being an [int]: when reading
    board [k] fails, [main] enqueues no further task, enqueues exactly one
    [NULL] per worker, joins every worker and returns 1.  When the allocation
    of the task for board [k] fails, [main] exits with status 1 at once; and
    when [enqueue_task] cannot allocate its node, the process exits with
    status 1 inside that call: in both cases no [NULL] is enqueued and no
    worker is joined. *)
Theorem fatal_submission_error (env : environment) (count : Z) (k : nat) :
  workers_malloc env = true →
  (∀ j, j < worker_count env → pthread_create env j = true) →
  read_board_count env = Some count → (count ≤ INT_MAX)%Z →
  1 ≤ k ≤ Z.to_nat count →
  (∀ j, 1 ≤ j < k →
     is_Some (read_board_from_stdin env j) ∧ task_malloc env j = true) →
  (read_board_from_stdin env k = None →
     main env
     = Init_queue :: (Create <$> seq 0 (worker_count env))
         ++ (Enqueue ∘ Some <$> tasks_from env 1 (k - 1))
         ++ replicate (worker_count env) (Enqueue None)
         ++ (Join <$> seq 0 (worker_count env))
         ++ [Exit_process 1])
  ∧ (is_Some (read_board_from_stdin env k) → task_malloc env k = false →
     main env
     = Init_queue :: (Create <$> seq 0 (worker_count env))
         ++ (Enqueue ∘ Some <$> tasks_from env 1 (k - 1)) ++ [Exit_process 1])
  ∧ (∀ malloc s t rest s',
       todo s = Enqueue t :: rest → malloc (Queue.heap (queue s)) = None →
       step malloc s Main_step s' →
       s' = {| todo := []; queue := queue s; workers := workers s; log := log s;
               exited := Some 1%Z |}
       ∧ (Enqueue None ∉ todo s') ∧ (∀ i, Join i ∉ todo s')).
Proof.
  intros Hw Hcreate Hcount Hmax Hk Hok.
  assert (main env
    = Init_queue :: (Create <$> seq 0 (worker_count env))
        ++ (Enqueue ∘ Some <$> tasks_from env 1 (k - 1))
        ++ submit env (worker_count env) k (S (Z.to_nat count - k))) as Hmain.
  { rewrite (main_prefix env count (k - 1)); try done;
      [|lia|unfold INT_MAX in *; lia|intros; apply Hok; lia].
    replace (1 + (k - 1)) with k by lia.
    by replace (Z.to_nat count - (k - 1)) with (S (Z.to_nat count - k)) by lia. }
  split; [|split].
  - intros Hread. rewrite Hmain. cbn [submit]. rewrite Hread.
    unfold shutdown. by rewrite <-!app_assoc.
  - intros [brd Hread] Halloc. rewrite Hmain. cbn [submit].
    by rewrite Hread, Halloc.
  - intros malloc s t rest s' Htodo Hfail Hstep.
    assert (enqueue_task malloc (queue s) t = Exit 1) as Henq.
    { unfold enqueue_task. by rewrite Hfail. }
    assert (s' = {| todo := []; queue := queue s; workers := workers s;
                    log := log s; exited := Some 1%Z |}) as ->
      by (inversion Hstep; subst; congruence).
    split; [done|]. split; [|intros i]; apply not_elem_of_nil.
Qed.

Lemma fatal_submission_error_witness :
  main (example_env 3 2 0)
  = [Init_queue; Create 0; Create 1;
     Enqueue (Some {| id := 1; task_board := solved |});
     Enqueue None; Enqueue None; Join 0; Join 1; Exit_process 1].
Proof.
  apply (fatal_submission_error (example_env 3 2 0) 3 2).
  - reflexivity.
  - intros j Hj. reflexivity.
  - reflexivity.
  - unfold INT_MAX. lia.
  - simpl. lia.
  - intros j Hj. assert (j = 1) as -> by lia. split; [by eexists|reflexivity].
  - reflexivity.
Defined.

(** C8, as stated, fails when the allocation of a task fails: with two
    workers created and the first task not allocated, [main] exits without
    enqueuing any [NULL] and without joining any worker. *)
Lemma task_allocation_failure_skips_shutdown :
  main (example_env 1 0 1) = [Init_queue; Create 0; Create 1; Exit_process 1]
  ∧ (Enqueue None ∉ main (example_env 1 0 1))
  ∧ (∀ i, Join i ∉ main (example_env 1 0 1)).
Proof.
  assert (main (example_env 1 0 1)
          = [Init_queue; Create 0; Create 1; Exit_process 1]) as -> by reflexivity.
  split; [done|]. split.
  - intros H. repeat (apply elem_of_cons in H as [?|H]; [done|]).
    by apply elem_of_nil in H.
  - intros i H. repeat (apply elem_of_cons in H as [?|H]; [done|]).
    by apply elem_of_nil in H.
Qed.

(** ** The pool *)

Section Tally.
Context {A : Type}.

Lemma sum_list_fmap_insert (g : A → nat) l i x y :
  l !! i = Some x →
  sum_list (g <$> <[i := y]> l) + g x = sum_list (g <$> l) + g y.
Proof.
  revert i. induction l as [|a l IH]; intros [|i] Hi; simplify_eq/=; [lia|].
  specialize (IH i Hi). lia.
Qed.

Lemma tally_app (f : A → bool) l1 l2 :
  tally f (l1 ++ l2) = tally f l1 + tally f l2.
Proof. unfold tally. by rewrite fmap_app, sum_list_with_app. Qed.

Lemma tally_insert (f : A → bool) l i x y :
  l !! i = Some x →
  tally f (<[i := y]> l) + (if f x then 1 else 0)
  = tally f l + (if f y then 1 else 0).
Proof. apply (sum_list_fmap_insert (λ x, if f x then 1 else 0)). Qed.

Lemma tally_cons (f : A → bool) a l :
  tally f (a :: l) = (if f a then 1 else 0) + tally f l.
Proof. reflexivity. Qed.

Lemma tally_lookup (f : A → bool) l i x :
  l !! i = Some x → f x = true → 1 ≤ tally f l.
Proof.
  revert i. induction l as [|a l IH]; intros [|i] Hi Hf; simplify_eq/=;
    rewrite tally_cons.
  - rewrite Hf. lia.
  - specialize (IH i Hi Hf). lia.
Qed.

Lemma tally_zero (f : A → bool) l i x :
  tally f l = 0 → l !! i = Some x → f x = false.
Proof.
  intros Hz Hi. destruct (f x) eqn:Hf; [|done].
  pose proof (tally_lookup f l i x Hi Hf). lia.
Qed.

Lemma tally_le_length (f : A → bool) l : tally f l ≤ length l.
Proof.
  induction l as [|a l IH]; [done|]. rewrite tally_cons. simpl.
  destruct (f a); lia.
Qed.
End Tally.

(** *** Signals *)

Lemma signalled_refl_or_wake ws : ∃ ws', signalled ws ws'.
Proof.
  induction ws as [|a ws (ws' & Hall & Hne)].
  { exists []. split; [constructor|]. by intros ?%elem_of_nil. }
  destruct a.
  - exists (Ready :: ws'). split; [constructor; [by left|done]|].
    intros [?|Hin]%elem_of_cons; [done|]. intros [= ->]. by apply Hne.
  - exists (Ready :: ws). split.
    + constructor; [by right|]. apply Forall2_same_length_lookup.
      split; [done|]. intros i x y Hx Hy. left. congruence.
    + intros _ [=].
  - exists (Processing t :: ws'). split; [constructor; [by left|done]|].
    intros [?|Hin]%elem_of_cons; [done|]. intros [= ->]. by apply Hne.
  - exists (Terminated :: ws'). split; [constructor; [by left|done]|].
    intros [?|Hin]%elem_of_cons; [done|]. intros [= ->]. by apply Hne.
Qed.

Lemma wakes_lookup ws ws' w :
  Forall2 wakes ws ws' →
  is_terminated <$> ws' !! w = is_terminated <$> ws !! w.
Proof.
  intros Hall. revert w. induction Hall as [|a b ws ws' Hab _ IH]; intros [|w];
    simpl; try done.
  destruct Hab as [->|[-> ->]]; done.
Qed.

Lemma wakes_terminated ws ws' w :
  Forall2 wakes ws ws' → ws !! w = Some Terminated → ws' !! w = Some Terminated.
Proof.
  intros Hall Hw. destruct (Forall2_lookup_l _ _ _ _ _ Hall Hw) as (b & Hb & Hab).
  by destruct Hab as [->|[? _]].
Qed.

Lemma wakes_waiting ws ws' :
  Forall2 wakes ws ws' → Waiting ∈ ws' → Waiting ∈ ws.
Proof.
  intros Hall (i & Hi)%list_elem_of_lookup.
  destruct (Forall2_lookup_r _ _ _ _ _ Hall Hi) as (a & Ha & Hab).
  destruct Hab as [->|[_ ?]]; [|done]. by eapply list_elem_of_lookup_2.
Qed.

Lemma wakes_non_terminated ws ws' :
  Forall2 wakes ws ws' →
  tally is_live ws' = tally is_live ws.
Proof.
  induction 1 as [|a b ws ws' Hab _ IH]; [done|].
  rewrite !tally_cons, IH. by destruct Hab as [->|[-> ->]].
Qed.

Lemma wakes_ready ws ws' :
  Forall2 wakes ws ws' →
  tally is_ready ws ≤ tally is_ready ws'
  ∧ (ws' ≠ ws → tally is_ready ws < tally is_ready ws').
Proof.
  induction 1 as [|a b ws ws' Hab _ [IH1 IH2]]; [done|].
  rewrite !tally_cons. destruct Hab as [->|[-> ->]]; simpl.
  - split; [lia|]. intros Hne.
    assert (ws' ≠ ws) as H%IH2 by congruence. lia.
  - split; lia.
Qed.

Lemma wakes_weight ws ws' :
  Forall2 wakes ws ws' →
  sum_list (weight <$> ws') ≤ sum_list (weight <$> ws) + length ws.
Proof.
  induction 1 as [|a b ws ws' Hab _ IH]; [done|].
  change (weight b + sum_list (weight <$> ws')
          ≤ weight a + sum_list (weight <$> ws) + S (length ws)).
  destruct Hab as [->|[-> ->]]; simpl; lia.
Qed.

(** *** Every step lowers the potential *)

Lemma enqueue_heap_size malloc q t q' :
  enqueue_task malloc q t = Ok () q' → size (heap q') ≤ S (size (heap q)).
Proof.
  unfold enqueue_task. destruct (malloc (heap q)) as [n|]; [|done].
  pose proof (map_size_insert n {| task := t; next := None |} (heap q)) as Hn.
  destruct (tail q) as [tl|].
  - destruct (_ !! tl) as [nd|] eqn:Htl; [|done]. intros [= <-]; simpl.
    rewrite map_size_insert_Some by done.
    destruct (heap q !! n); simpl in Hn; lia.
  - intros [= <-]; simpl. destruct (heap q !! n); simpl in Hn; lia.
Qed.

Lemma dequeue_heap_size q t q' :
  dequeue_task q = Ok t q' → S (size (heap q')) = size (heap q).
Proof.
  unfold dequeue_task. destruct (head q) as [n|]; [|done].
  destruct (heap q !! n) as [nd|] eqn:Hn; [|done]. intros [= <- <-]; simpl.
  rewrite map_size_delete_Some by done.
  assert (size (heap q) ≠ 0) by (by eapply map_size_ne_0_lookup_2). lia.
Qed.

Lemma weight_after_dequeue t : weight (after_dequeue t) ≤ 2.
Proof. destruct t; simpl; lia. Qed.

Lemma step_potential malloc s l s' :
  step malloc s l s' → potential s' < potential s.
Proof.
  destruct 1 as [s rest He Ht|s i rest He Ht|s t rest q' ws' He Ht Henq [Hw _]
                |s t rest c He Ht _|s i rest He Ht _|s c rest He Ht
                |s w He Hw _|s w t q' He Hw Hdeq|s w t q' He Hw Hdeq
                |s w t ev He Hw _];
    unfold potential; simpl; rewrite He, ?Ht; simpl.
  - lia.
  - rewrite fmap_app, sum_list_with_app, length_app. simpl. nia.
  - apply enqueue_heap_size in Henq. pose proof (wakes_weight _ _ Hw).
    rewrite <-(Forall2_length _ _ _ Hw). nia.
  - lia.
  - lia.
  - lia.
  - pose proof (sum_list_fmap_insert weight _ _ _ Waiting Hw) as H.
    rewrite length_insert. simpl in H. lia.
  - pose proof (sum_list_fmap_insert weight _ _ _ (after_dequeue t) Hw) as H.
    pose proof (weight_after_dequeue t). apply dequeue_heap_size in Hdeq.
    rewrite length_insert. simpl in H. lia.
  - pose proof (sum_list_fmap_insert weight _ _ _ (after_dequeue t) Hw) as H.
    pose proof (weight_after_dequeue t). apply dequeue_heap_size in Hdeq.
    rewrite length_insert. simpl in H. lia.
  - pose proof (sum_list_fmap_insert weight _ _ _ Ready Hw) as H.
    rewrite length_insert. simpl in H. lia.
Qed.

(** *** What [main] does next *)

Lemma remaining_cases N code i ts k j a rest :
  i ≤ N → j ≤ N → remaining N code i ts k j = a :: rest →
  (i < N ∧ a = Create i ∧ rest = remaining N code (S i) ts k j)
  ∨ (i = N ∧ ∃ t ts', ts = t :: ts' ∧ a = Enqueue (Some t)
                       ∧ rest = remaining N code i ts' k j)
  ∨ (i = N ∧ ts = [] ∧ ∃ k', k = S k' ∧ a = Enqueue None
                              ∧ rest = remaining N code i [] k' j)
  ∨ (i = N ∧ ts = [] ∧ k = 0 ∧ j < N ∧ a = Join j
     ∧ rest = remaining N code i [] 0 (S j))
  ∨ (i = N ∧ ts = [] ∧ k = 0 ∧ j = N ∧ a = Exit_process code ∧ rest = []).
Proof.
  intros Hi Hj. unfold remaining.
  destruct (decide (i < N)) as [Hlt|Hge].
  { replace (N - i) with (S (N - S i)) by lia. simpl. intros [= <- <-]. by left. }
  assert (i = N) as -> by lia. rewrite Nat.sub_diag. simpl.
  destruct ts as [|t ts']; simpl.
  2: { intros [= <- <-]. right; left. eauto 10. }
  destruct k as [|k']; simpl.
  2: { intros [= <- <-]. do 2 right; left. eauto 10. }
  destruct (decide (j < N)) as [Hlt|Hge'].
  { replace (N - j) with (S (N - S j)) by lia. simpl. intros [= <- <-].
    do 3 right; left. eauto 10. }
  assert (j = N) as -> by lia. rewrite Nat.sub_diag. simpl. intros [= <- <-].
  do 4 right. eauto 10.
Qed.

(** *** The log *)

Lemma dequeued_by_snoc w evs ev :
  dequeued_by w (evs ++ [ev])
  = dequeued_by w evs
    ++ match ev with
       | Dequeued w' t => if decide (w' = w) then [t] else []
       | _ => []
       end.
Proof.
  unfold dequeued_by. rewrite omap_app. f_equal. simpl.
  destruct ev as [w' t| |]; try done. by destruct (decide (w' = w)).
Qed.

Lemma terminated_at_insert s s' w x y :
  workers s' = <[w := x]> (workers s) → workers s !! w = Some y →
  ∀ w', terminated_at s' w'
        = if decide (w' = w) then is_terminated x else terminated_at s w'.
Proof.
  intros Hws Hw w'. unfold terminated_at. rewrite Hws.
  destruct (decide (w' = w)) as [->|Hne].
  - rewrite list_lookup_insert_eq; [done|]. by eapply lookup_lt_Some.
  - by rewrite list_lookup_insert_ne.
Qed.

(** Steps that leave every worker's dequeues and termination unchanged. *)
Lemma log_inv_same s s' :
  (∀ w, terminated_at s' w = terminated_at s w) →
  (∀ w, dequeued_by w (log s') = dequeued_by w (log s)) →
  log_inv s → log_inv s'.
Proof.
  intros Hterm Hdeq Hlog w. destruct (Hlog w) as [ts Hts]. exists ts.
  by rewrite Hterm, Hdeq.
Qed.

(** The step in which worker [w], not terminated, dequeues [t]. *)
Lemma log_inv_dequeue s s' w t y :
  workers s' = <[w := after_dequeue t]> (workers s) →
  workers s !! w = Some y → is_terminated y = false →
  log s' = log s ++ [Dequeued w t] →
  log_inv s → log_inv s'.
Proof.
  intros Hws Hw Hy Hlog' Hlog w'. destruct (Hlog w') as [ts Hts].
  rewrite (terminated_at_insert s s' w _ y Hws Hw), Hlog', dequeued_by_snoc.
  destruct (decide (w = w')) as [->|Hne].
  - rewrite decide_True by done. rewrite Hts.
    unfold terminated_at. rewrite Hw, Hy, app_nil_r.
    destruct t as [task|]; simpl.
    + exists (ts ++ [task]). by rewrite fmap_app, app_nil_r.
    + by exists ts.
  - rewrite decide_False by done. exists ts. by rewrite app_nil_r.
Qed.

(** *** The invariant *)

Section PoolInvariant.
Variable malloc : node_heap → ptr.
Hypothesis Hfresh : malloc_fresh malloc.
Hypothesis Htotal : malloc_total malloc.
Variables (N : nat) (tasks : list board_task_t) (code : Z).

Lemma enqueue_task_ok q l t :
  is_queue q l →
  ∃ q', enqueue_task malloc q t = Ok () q' ∧ is_queue q' (l ++ [t]).
Proof.
  intros Hq. pose proof (enqueue_task_spec malloc Hfresh q l t Hq) as H.
  destruct (Htotal (heap q)) as [n Hn]. by rewrite Hn in H.
Qed.

Lemma initial_step l s' :
  step malloc (initial (pool_run N tasks code)) l s' → running_inv N code s'.
Proof.
  inversion 1; simplify_eq/=.
  split; [done|]. exists 0, tasks, N, 0, []; simpl.
  split_and!; try done; try lia.
  - unfold pool_run, shutdown in *. simplify_eq. unfold remaining.
    by rewrite Nat.sub_0_r, <-!app_assoc.
  - apply (is_queue_init empty_state).
  - intros w. by exists [].
Qed.

Lemma running_step s lbl s' :
  running_inv N code s → step malloc s lbl s' →
  running_inv N code s' ∨ final_inv N code s'.
Proof.
  intros (He & i & ts & k & j & l & Htodo & Hlen & Hi & Hj & Hjoin & Hterm
          & Hq & Hcount & Hwake & Hlog) Hstep.
  destruct Hstep as [s rest _ Ht|s i' rest _ Ht|s t rest q' ws' _ Ht Henq [Hw Hsig]
              |s t rest c _ Ht Henq|s i' rest _ Ht Hdone|s c rest _ Ht
              |s w _ Hw Hdeq|s w t q' _ Hw Hdeq|s w t q' _ Hw Hdeq
              |s w t ev _ Hw Hproc].
  - (* queue_init: not among the remaining actions *)
    rewrite Htodo in Ht.
    apply remaining_cases in Ht; [|done..]. wrong_action.
  - (* pthread_create *)
    rewrite Htodo in Ht. apply remaining_cases in Ht; [|done..].
    destruct Ht as [(Hlt & [= ->] & ->)|Ht]; [|wrong_action].
    left. split; [done|]. exists (S i), ts, k, j, l; simpl.
    split_and!; try done; try lia.
    + rewrite length_app; simpl; lia.
    + rewrite tally_app. change (tally is_live [Ready]) with 1. lia.
    + intros [Hin|Hin%list_elem_of_singleton]%elem_of_app; [|done].
      rewrite tally_app. specialize (Hwake Hin). lia.
    + apply (log_inv_same s); [|done|done]. intros w. unfold terminated_at; simpl.
      destruct (decide (w < length (workers s))).
      * by rewrite lookup_app_l.
      * rewrite (lookup_ge_None_2 (workers s)) by lia.
        destruct (decide (w = length (workers s))) as [->|].
        -- by rewrite lookup_app_r, Nat.sub_diag.
        -- rewrite lookup_ge_None_2; [done|]. rewrite length_app; simpl; lia.
  - (* enqueue_task returns *)
    destruct (enqueue_task_ok (queue s) l t Hq) as (q'' & Henq' & Hq').
    rewrite Henq in Henq'. injection Henq' as <-.
    assert (j = 0 ∧ ∃ ts' k', rest = remaining N code i ts' k' j
              ∧ tally is_sentinel l + k = tally is_sentinel (l ++ [t]) + k')
      as (-> & ts' & k' & -> & Hsent).
    { rewrite Htodo in Ht. apply remaining_cases in Ht; [|done..].
      destruct Ht as [?|[(-> & t' & ts' & -> & [= ->] & ->)
                        |[(-> & -> & k' & -> & [= ->] & ->)|?]]];
        [wrong_action| | |wrong_action].
      - split.
        { destruct (decide (0 < j)) as [(_ & ? & _)%Hjoin|]; [done|lia]. }
        exists ts', k. split; [done|].
        rewrite tally_app. change (tally is_sentinel [Some t']) with 0. lia.
      - split.
        { destruct (decide (0 < j)) as [(_ & _ & ?)%Hjoin|]; [done|lia]. }
        exists [], k'. split; [done|].
        rewrite tally_app. change (tally is_sentinel [None]) with 1. lia. }
    left. split; [done|]. exists i, ts', k', 0, (l ++ [t]); simpl.
    split_and!; try done; try lia.
    + by rewrite <-(Forall2_length _ _ _ Hw).
    + rewrite (wakes_non_terminated _ _ Hw). lia.
    + intros Hin. pose proof (wakes_waiting _ _ Hw Hin) as Hin'.
      destruct (wakes_ready _ _ Hw) as [_ Hlt].
      specialize (Hlt (Hsig Hin')). specialize (Hwake Hin').
      rewrite length_app; simpl. lia.
    + apply (log_inv_same s); [|done|done]. intros w. unfold terminated_at; simpl.
      pose proof (wakes_lookup _ _ w Hw) as Heq.
      destruct (ws' !! w), (workers s !! w); simpl in Heq; congruence.
  - (* enqueue_task exits: excluded, the allocation does not fail *)
    destruct (enqueue_task_ok (queue s) l t Hq) as (q'' & Henq' & _). congruence.
  - (* pthread_join *)
    rewrite Htodo in Ht. apply remaining_cases in Ht; [|done..].
    destruct Ht as [?|[?|[?|[(-> & -> & -> & Hlt & [= ->] & ->)|?]]]];
      [wrong_action..| |wrong_action].
    left. split; [done|]. exists N, [], 0, (S j), l; simpl.
    split_and!; try done; try lia.
    + intros w Hwj. destruct (decide (w = j)) as [->|]; [done|]. apply Hterm. lia.
    + apply (log_inv_same s); [done| |done]. intros w; simpl.
      by rewrite dequeued_by_snoc, app_nil_r.
  - (* return from main *)
    rewrite Htodo in Ht. apply remaining_cases in Ht; [|done..].
    destruct Ht as [?|[?|[?|[?|(-> & -> & -> & -> & [= ->] & ->)]]]];
      [wrong_action..|].
    right. split_and!; try done.
  - (* a ready worker finds the queue empty and waits *)
    pose proof (dequeue_task_spec (queue s) l Hq) as Hspec.
    destruct l as [|t l']; [|destruct Hspec as (? & ? & _); congruence].
    left. split; [done|]. exists i, ts, k, j, []; simpl.
    split_and!; try done; try lia.
    + by rewrite length_insert.
    + intros w' Hw'. specialize (Hterm w' Hw').
      rewrite list_lookup_insert_ne; [done|]. intros ->. congruence.
    + pose proof (tally_insert is_live _ _ _ Waiting Hw) as H.
      change (tally is_sentinel []) with 0 in Hcount. simpl in H. lia.
    + apply (log_inv_same s); [|done|done]. intros w'.
      rewrite (terminated_at_insert s _ w Waiting Ready); [|done..].
      destruct (decide (w' = w)) as [->|]; [|done].
      unfold terminated_at. by rewrite Hw.
  - (* a ready worker takes an entry *)
    pose proof (dequeue_task_spec (queue s) l Hq) as Hspec.
    destruct l as [|t' l']; [congruence|].
    destruct Hspec as (q'' & Hdeq' & Hq'). rewrite Hdeq in Hdeq'.
    injection Hdeq' as <- <-.
    left. split; [done|]. exists i, ts, k, j, l'; simpl.
    split_and!; try done; try lia.
    + by rewrite length_insert.
    + intros w' Hw'. specialize (Hterm w' Hw').
      rewrite list_lookup_insert_ne; [done|]. intros ->. congruence.
    + pose proof (tally_insert is_live _ _ _ (after_dequeue t) Hw) as H.
      rewrite tally_cons in Hcount. destruct t; simpl in *; lia.
    + intros Hin.
      pose proof (tally_insert is_ready _ _ _ (after_dequeue t) Hw) as H.
      assert (Waiting ∈ workers s) as Hin'.
      { apply list_elem_of_lookup in Hin as (w' & Hw').
        destruct (decide (w' = w)) as [->|Hne].
        - rewrite list_lookup_insert_eq in Hw' by (by eapply lookup_lt_Some).
          by destruct t.
        - rewrite list_lookup_insert_ne in Hw' by done.
          by eapply list_elem_of_lookup_2. }
      specialize (Hwake Hin'). simpl in *. destruct t; simpl in *; lia.
    + by apply (log_inv_dequeue s _ w t Ready).
  - (* a waiting worker, woken without a signal, takes an entry *)
    pose proof (dequeue_task_spec (queue s) l Hq) as Hspec.
    destruct l as [|t' l']; [congruence|].
    destruct Hspec as (q'' & Hdeq' & Hq'). rewrite Hdeq in Hdeq'.
    injection Hdeq' as <- <-.
    left. split; [done|]. exists i, ts, k, j, l'; simpl.
    split_and!; try done; try lia.
    + by rewrite length_insert.
    + intros w' Hw'. specialize (Hterm w' Hw').
      rewrite list_lookup_insert_ne; [done|]. intros ->. congruence.
    + pose proof (tally_insert is_live _ _ _ (after_dequeue t) Hw) as H.
      rewrite tally_cons in Hcount. destruct t; simpl in *; lia.
    + intros Hin.
      pose proof (tally_insert is_ready _ _ _ (after_dequeue t) Hw) as H.
      assert (Waiting ∈ workers s) as Hin' by (by eapply list_elem_of_lookup_2).
      specialize (Hwake Hin'). simpl in *. destruct t; simpl in *; lia.
    + by apply (log_inv_dequeue s _ w t Waiting).
  - (* a worker finishes a task *)
    left. split; [done|]. exists i, ts, k, j, l; simpl.
    split_and!; try done; try lia.
    + by rewrite length_insert.
    + intros w' Hw'. specialize (Hterm w' Hw').
      rewrite list_lookup_insert_ne; [done|]. intros ->. congruence.
    + pose proof (tally_insert is_live _ _ _ Ready Hw) as H.
      simpl in H. lia.
    + intros Hin.
      pose proof (tally_insert is_ready _ _ _ Ready Hw) as H.
      assert (Waiting ∈ workers s) as Hin'.
      { apply list_elem_of_lookup in Hin as (w' & Hw').
        destruct (decide (w' = w)) as [->|Hne].
        - by rewrite list_lookup_insert_eq in Hw' by (by eapply lookup_lt_Some).
        - rewrite list_lookup_insert_ne in Hw' by done.
          by eapply list_elem_of_lookup_2. }
      specialize (Hwake Hin'). simpl in *. lia.
    + apply (log_inv_same s).
      * intros w'. rewrite (terminated_at_insert s _ w Ready (Processing t)); [|done..].
        destruct (decide (w' = w)) as [->|]; [|done].
        unfold terminated_at. by rewrite Hw.
      * intros w'; simpl. rewrite dequeued_by_snoc.
        unfold process in Hproc.
        destruct (validate_board_internal (task_board t) "" 128) as [[ok reason]|];
          simplify_eq/=.
        by rewrite app_nil_r.
      * done.
Qed.
End PoolInvariant.

(** *** No deadlock *)

Lemma tally_pos {A} (f : A → bool) l :
  0 < tally f l → ∃ i x, l !! i = Some x ∧ f x = true.
Proof.
  induction l as [|a l IH]; [unfold tally; simpl; lia|]. rewrite tally_cons.
  destruct (f a) eqn:Hf.
  - intros _. by exists 0, a.
  - intros (i & x & Hi & Hx)%IH. by exists (S i), x.
Qed.

Lemma tally_mono {A} (f g : A → bool) l :
  (∀ x, f x = true → g x = true) → tally f l ≤ tally g l.
Proof.
  intros Hfg. induction l as [|a l IH]; [done|]. rewrite !tally_cons.
  destruct (f a) eqn:Hf; [rewrite (Hfg a Hf); lia|]. destruct (g a); lia.
Qed.

Lemma remaining_nonempty N code i ts k j : remaining N code i ts k j ≠ [].
Proof.
  unfold remaining. intros H.
  repeat (apply app_eq_nil in H as [_ H]). done.
Qed.

Lemma process_total w t : is_Some (process w t).
Proof.
  unfold process. rewrite validate_board_internal_spec.
  destruct (first_violation _); by eexists.
Qed.

Section PoolProgress.
Variable malloc : node_heap → ptr.
Hypothesis Hfresh : malloc_fresh malloc.
Hypothesis Htotal : malloc_total malloc.
Variables (N : nat) (tasks : list board_task_t) (code : Z).

(** An active worker can take a step. *)
Lemma active_worker_steps s l w x :
  exited s = None → is_queue (queue s) l →
  workers s !! w = Some x → is_active x = true →
  ∃ s', step malloc s (Worker_step w) s'.
Proof.
  intros He Hq Hw Hx. destruct x as [| |t|]; try done.
  - pose proof (dequeue_task_spec (queue s) l Hq) as Hspec.
    destruct l as [|t l'].
    + eexists. by apply step_wait.
    + destruct Hspec as (q' & Hdeq & _). eexists. by eapply step_dequeue.
  - destruct (process_total w t) as [ev Hev]. eexists. by eapply step_process.
Qed.

Lemma running_progress s :
  running_inv N code s → ∃ lbl s', proper lbl ∧ step malloc s lbl s'.
Proof.
  intros (He & i & ts & k & j & l & Htodo & Hlen & Hi & Hj & Hjoin & Hterm
          & Hq & Hcount & Hwake & Hlog).
  destruct (remaining N code i ts k j) as [|a rest] eqn:Hrem.
  { by destruct (remaining_nonempty N code i ts k j). }
  pose proof (remaining_cases N code i ts k j a rest Hi Hj Hrem) as Hcases.
  destruct Hcases as [(_ & -> & _)|[(_ & t & ts' & _ & -> & _)
                     |[(_ & _ & k' & _ & -> & _)
                     |[(-> & -> & -> & Hlt & -> & _)|(_ & _ & _ & _ & -> & _)]]]].
  - exists Main_step. eexists. split; [done|]. by eapply step_create.
  - destruct (enqueue_task_ok malloc Hfresh Htotal (queue s) l (Some t) Hq)
      as (q' & Henq & _).
    destruct (signalled_refl_or_wake (workers s)) as [ws' Hsig].
    exists Main_step. eexists. split; [done|]. by eapply step_enqueue.
  - destruct (enqueue_task_ok malloc Hfresh Htotal (queue s) l None Hq)
      as (q' & Henq & _).
    destruct (signalled_refl_or_wake (workers s)) as [ws' Hsig].
    exists Main_step. eexists. split; [done|]. by eapply step_enqueue.
  - (* main waits in pthread_join for worker j *)
    destruct (lookup_lt_is_Some_2 (workers s) j) as [x Hx]; [lia|].
    destruct (is_terminated x) eqn:Hxt.
    { destruct x; try done. exists Main_step. eexists. split; [done|].
      by eapply step_join. }
    destruct (decide (0 < tally is_active (workers s))) as [Hact|Hnone].
    { apply tally_pos in Hact as (w & y & Hw & Hy).
      destruct (active_worker_steps s l w y He Hq Hw Hy) as [s' Hstep].
      by exists (Worker_step w), s'. }
    (* otherwise worker j waits although a sentinel is queued for it *)
    exfalso. assert (tally is_active (workers s) = 0) as Hzero by lia.
    pose proof (tally_zero is_active _ j x Hzero Hx) as Hxa.
    assert (x = Waiting) as -> by (by destruct x).
    assert (length l ≤ tally is_ready (workers s)) as Hl.
    { apply Hwake. by eapply list_elem_of_lookup_2. }
    pose proof (tally_mono is_ready is_active (workers s)) as Hmono.
    assert (l = []) as ->.
    { apply length_zero_iff_nil. rewrite Hzero in Hmono.
      assert (tally is_ready (workers s) ≤ 0) by (apply Hmono; by intros []).
      lia. }
    pose proof (tally_lookup is_live _ j Waiting Hx eq_refl).
    change (tally is_sentinel []) with 0 in Hcount. lia.
  - exists Main_step. eexists. split; [done|]. by eapply step_exit.
Qed.

Lemma pool_inv_reaches s :
  reaches malloc (initial (pool_run N tasks code)) s → pool_inv N tasks code s.
Proof.
  induction 1 as [|s l s' _ IH Hstep]; [by left|]. right.
  destruct IH as [->|[Hrun|Hfin]].
  - left. by eapply initial_step.
  - by eapply running_step.
  - destruct Hfin as (He & _). destruct Hstep; congruence.
Qed.
End PoolProgress.

(** *** Every run ends with all workers terminated *)

Lemma reaches_prepend malloc s l s1 s' :
  step malloc s l s1 → reaches malloc s1 s' → reaches malloc s s'.
Proof.
  intros Hstep. induction 1 as [|s2 l2 s3 _ IH Hstep2].
  - eapply reaches_step; [apply reaches_refl|done].
  - eapply reaches_step; done.
Qed.

Section PoolTermination.
Variable malloc : node_heap → ptr.
Hypothesis Hfresh : malloc_fresh malloc.
Hypothesis Htotal : malloc_total malloc.
Variables (N : nat) (tasks : list board_task_t) (code : Z).

Lemma pool_inv_progress s :
  pool_inv N tasks code s → exited s = None →
  ∃ lbl s', proper lbl ∧ step malloc s lbl s' ∧ pool_inv N tasks code s'.
Proof.
  intros [->|[Hrun|(He & _)]] Hnone; [| |congruence].
  - exists Main_step. eexists. split; [done|]. split.
    + by eapply step_init.
    + right. left. eapply (initial_step malloc N tasks code Main_step).
      by eapply step_init.
  - destruct (running_progress malloc Hfresh Htotal N code s Hrun)
      as (lbl & s' & Hproper & Hstep).
    exists lbl, s'. split; [done|]. split; [done|]. right.
    by eapply running_step.
Qed.

Lemma pool_inv_exits n : ∀ s,
  potential s < n → pool_inv N tasks code s →
  ∃ s', reaches malloc s s' ∧ exited s' = Some code.
Proof.
  induction n as [|n IH]; intros s Hpot Hinv; [lia|].
  destruct (exited s) as [c|] eqn:He.
  { exists s. split; [apply reaches_refl|].
    destruct Hinv as [->|[(He' & _)|(He' & _)]]; simpl in *; congruence. }
  destruct (pool_inv_progress s Hinv He) as (lbl & s1 & _ & Hstep & Hinv1).
  pose proof (step_potential malloc s lbl s1 Hstep).
  destruct (IH s1) as (s' & Hreach & He'); [lia|done|].
  exists s'. split; [|done]. by eapply reaches_prepend.
Qed.
End PoolTermination.

(** C7.  A run of [main] without failure, the count being below [INT_MAX],
    creates N workers, enqueues the tasks, then exactly N [NULL] sentinels,
    then joins the N workers.  In every state of every run of such a
    sequence, allocation not failing: each worker has dequeued only tasks,
    followed by one [NULL] exactly if it has terminated, so that it dequeues
    nothing after its first sentinel and never a second one; every step
    lowers [potential], so every run is finite; a run that has not ended can
    go on by a step that is no spurious wake-up, and can be continued to its
    end; and when it has ended all N workers are terminated. *)
Theorem shutdown_terminates_every_worker (malloc : node_heap → ptr)
    (N : nat) (tasks : list board_task_t) (code : Z) :
  malloc_fresh malloc → malloc_total malloc →
  (∀ env count,
     workers_malloc env = true →
     (∀ j, j < worker_count env → pthread_create env j = true) →
     read_board_count env = Some count → (count < INT_MAX)%Z →
     (∀ j, 1 ≤ j < 1 + Z.to_nat count →
        is_Some (read_board_from_stdin env j) ∧ task_malloc env j = true) →
     main env
     = Init_queue :: (Create <$> seq 0 (worker_count env))
         ++ (Enqueue ∘ Some <$> tasks_from env 1 (Z.to_nat count))
         ++ replicate (worker_count env) (Enqueue None)
         ++ (Join <$> seq 0 (worker_count env))
         ++ [Exit_process 0])
  ∧ ∀ s,
      reaches malloc
        (initial (Init_queue :: (Create <$> seq 0 N)
                    ++ (Enqueue ∘ Some <$> tasks)
                    ++ replicate N (Enqueue None)
                    ++ (Join <$> seq 0 N)
                    ++ [Exit_process code])) s →
      (∀ w, ∃ ts, dequeued_by w (log s)
                  = (Some <$> ts) ++ (if terminated_at s w then [None] else []))
      ∧ (∀ l s', step malloc s l s' → potential s' < potential s)
      ∧ (exited s = None → ∃ l s', proper l ∧ step malloc s l s')
      ∧ (∃ s', reaches malloc s s' ∧ exited s' = Some code)
      ∧ (∀ c, exited s = Some c →
           c = code ∧ length (workers s) = N
           ∧ ∀ w, w < N → workers s !! w = Some Terminated).
Proof.
  intros Hfresh Htotal. split.
  { intros env count Hw Hcreate Hcount Hmax Hok.
    by rewrite (main_ok env count), pool_run_unfold. }
  intros s Hreach. rewrite <-pool_run_unfold in Hreach.
  pose proof (pool_inv_reaches malloc Hfresh Htotal N tasks code s Hreach) as Hinv.
  split_and!.
  - destruct Hinv as [->|[(_ & i & ts & k & j & l & H)|(_ & _ & _ & _ & Hlog)]].
    + intros w. by exists [].
    + do 9 (destruct H as [_ H]). exact H.
    + exact Hlog.
  - apply step_potential.
  - intros He.
    destruct (pool_inv_progress malloc Hfresh Htotal N tasks code s Hinv He)
      as (lbl & s' & Hproper & Hstep & _).
    by exists lbl, s'.
  - apply (pool_inv_exits malloc Hfresh Htotal N tasks code (S (potential s)));
      [lia|done].
  - intros c He.
    destruct Hinv as [->|[(He' & _)|(He' & _ & Hlen & Hterm & _)]];
      simpl in *; [congruence..|].
    split; [congruence|done].
Qed.

Lemma shutdown_terminates_every_worker_witness :
  let run := [Init_queue; Create 0; Create 1;
              Enqueue (Some {| id := 1; task_board := solved |});
              Enqueue None; Enqueue None; Join 0; Join 1; Exit_process 0] in
  main (example_env 1 0 0) = run
  ∧ ∃ s', reaches malloc_next (initial run) s' ∧ exited s' = Some 0%Z.
Proof.
  intros run.
  destruct (shutdown_terminates_every_worker malloc_next 2
              [{| id := 1; task_board := solved |}] 0
              malloc_next_fresh malloc_next_total) as [Hmain Hruns].
  split.
  - apply (Hmain (example_env 1 0 0) 1%Z).
    + reflexivity.
    + intros j Hj. reflexivity.
    + reflexivity.
    + unfold INT_MAX. lia.
    + intros j Hj. assert (j = 1) as -> by (simpl in Hj; lia).
      split; [by eexists|reflexivity].
  - apply (Hruns (initial run)). apply reaches_refl.
Defined.

(** ** Examples

    The definitions evaluated on concrete inputs. *)

Example validate_solved :
  validate_board_internal solved "" 128 = Some (true, "OK").
Proof. by vm_compute. Qed.

Example validate_solved_swapped :
  validate_board_internal solved_swapped "" 128
  = Some (false, "Duplicate 3 in column 1").
Proof. by vm_compute. Qed.

Example validate_solved_with_zero :
  validate_board_internal solved_with_zero "" 128
  = Some (false, "Invalid number 0 at row 5 col 5").
Proof. by vm_compute. Qed.

Example validate_latin :
  validate_board_internal latin "" 128
  = Some (false, "Duplicate 2 in 3x3 block 1 (top-left row 1 col 1)").
Proof. by vm_compute. Qed.

Example validate_solved_with_ten :
  validate_board_internal solved_with_ten "" 128
  = Some (false, "Invalid number 10 at row 3 col 8").
Proof. by vm_compute. Qed.

Example validate_solved_row_duplicate :
  validate_board_internal solved_row_duplicate "" 128
  = Some (false, "Duplicate 1 in row 3").
Proof. by vm_compute. Qed.

Example validate_solved_columns_swapped :
  validate_board_internal solved_columns_swapped "" 128
  = Some (false, "Duplicate 9 in 3x3 block 2 (top-left row 1 col 4)").
Proof. by vm_compute. Qed.

Example validate_row_swap :
  validate_board_internal (swap_in_row solved 4 7 2) "" 128
  = Some (false, "Duplicate 9 in column 3")
  ∧ validate_board_internal (swap_in_row solved 4 7 2) "?" 10
    = Some (false, "Duplicate").
Proof. by vm_compute. Qed.

Example validate_short_buffer :
  validate_board_internal solved "??" 2 = Some (true, "O")
  ∧ validate_board_internal solved "??" 0 = Some (true, "??").
Proof. by vm_compute. Qed.

Example queue_run_example :
  let t1 := Some {| id := 1; task_board := solved |} in
  queue_run malloc_next [Enq t1; Enq None; Deq; Deq] (queue_init empty_state)
  = Ok [t1; None] empty_state.
Proof. by vm_compute. Qed.

Example enqueue_task_no_memory :
  enqueue_task malloc_fails (queue_init empty_state) None = Exit 1.
Proof. reflexivity. Qed.

Example dequeue_task_empty : dequeue_task (queue_init empty_state) = Block.
Proof. reflexivity. Qed.

Example main_read_failure :
  main (example_env 3 2 0)
  = [Init_queue; Create 0; Create 1;
     Enqueue (Some {| id := 1; task_board := solved |});
     Enqueue None; Enqueue None; Join 0; Join 1; Exit_process 1].
Proof. reflexivity. Qed.

Example main_no_failure :
  main (example_env 1 0 0)
  = [Init_queue; Create 0; Create 1;
     Enqueue (Some {| id := 1; task_board := solved |});
     Enqueue None; Enqueue None; Join 0; Join 1; Exit_process 0].
Proof. reflexivity. Qed.

Example one_worker_run :
  let t := {| id := 1; task_board := solved |} in
  ∃ s, reaches malloc_next (initial (pool_run 1 [t] 0)) s
       ∧ exited s = Some 0%Z
       ∧ workers s = [Terminated]
       ∧ log s = [Dequeued 0 (Some t); Printed 0 "Board 1: VALID";
                  Dequeued 0 None; Joined 0].
Proof.
  intros t.
  assert (signalled [Ready] [Ready]) as Hsig.
  { split; [by repeat constructor|]. intros H.
    repeat (apply elem_of_cons in H as [?|H]; [done|]). by apply elem_of_nil in H. }
  eexists. split.
  - eapply reaches_prepend; [by eapply step_init|].
    eapply reaches_prepend; [by eapply step_create|].
    eapply reaches_prepend.
    { eapply (step_enqueue _ _ _ _ _ [Ready]); [done|reflexivity|by vm_compute|done]. }
    eapply reaches_prepend.
    { eapply (step_dequeue _ _ 0); [done|reflexivity|by vm_compute]. }
    eapply reaches_prepend.
    { eapply (step_process _ _ 0); [done|reflexivity|by vm_compute]. }
    eapply reaches_prepend.
    { eapply (step_enqueue _ _ _ _ _ [Ready]); [done|reflexivity|by vm_compute|done]. }
    eapply reaches_prepend.
    { eapply (step_dequeue _ _ 0); [done|reflexivity|by vm_compute]. }
    eapply reaches_prepend; [by eapply step_join|].
    eapply reaches_prepend; [by eapply step_exit|].
    apply reaches_refl.
  - done.
Qed.

(** The worker finds the queue empty and waits; the signal of the enqueue
    wakes it. *)
Example waiting_worker_is_woken :
  ∃ s, reaches malloc_next (initial (pool_run 1 [] 0)) s
       ∧ exited s = Some 0%Z
       ∧ workers s = [Terminated]
       ∧ log s = [Dequeued 0 None; Joined 0].
Proof.
  assert (signalled [Waiting] [Ready]) as Hsig.
  { split; [|done]. constructor; [by right|constructor]. }
  eexists. split.
  - eapply reaches_prepend; [by eapply step_init|].
    eapply reaches_prepend; [by eapply step_create|].
    eapply reaches_prepend.
    { eapply (step_wait _ _ 0); [done|reflexivity|by vm_compute]. }
    eapply reaches_prepend.
    { eapply (step_enqueue _ _ _ _ _ [Ready]); [done|reflexivity|by vm_compute|done]. }
    eapply reaches_prepend.
    { eapply (step_dequeue _ _ 0); [done|reflexivity|by vm_compute]. }
    eapply reaches_prepend; [by eapply step_join|].
    eapply reaches_prepend; [by eapply step_exit|].
    apply reaches_refl.
  - done.
Qed.

(* ===================================================================== *)
(** * Further properties *)

(** ** The size of the [reason] buffer *)

Import Ints.

Lemma string_length_app (a b : string) :
  String.length (a +:+ b) = String.length a + String.length b.
Proof. induction a as [|c a IH]; simpl; [done|]. by rewrite IH. Qed.

Lemma pretty_N_go_length k : ∀ x s,
  (x < 10 ^ N.of_nat k)%N →
  String.length (pretty_N_go x s) ≤ k + String.length s.
Proof.
  induction k as [|k IH]; intros x s Hx.
  { assert (x = 0%N) as -> by (simpl in Hx; lia). by rewrite pretty_N_go_0. }
  destruct (decide (x = 0%N)) as [->|Hne].
  { rewrite pretty_N_go_0. lia. }
  rewrite pretty_N_go_step by lia.
  etrans; [apply IH|simpl; lia].
  rewrite Nat2N.inj_succ, N.pow_succ_r' in Hx.
  apply N.Div0.div_lt_upper_bound. lia.
Qed.

Lemma pretty_N_length k (x : N) :
  0 < k → (x < 10 ^ N.of_nat k)%N → String.length (pretty x) ≤ k.
Proof.
  intros Hk Hx. unfold pretty, pretty_N. case_decide; [simpl; lia|].
  etrans; [by apply pretty_N_go_length|simpl; lia].
Qed.

Lemma pretty_index_length (n : nat) : n < 10 → String.length (pretty n) ≤ 1.
Proof.
  intros Hn. unfold pretty, pretty_nat. apply (pretty_N_length 1); [lia|].
  simpl. lia.
Qed.

(** An [int] prints in at most 11 characters. *)
Lemma pretty_int_length (v : Z) : is_int v → String.length (pretty v) ≤ 11.
Proof.
  unfold is_int. intros Hv.
  assert (∀ p : positive, (Z.pos p < 2 ^ 31 + 1)%Z →
            String.length (pretty (N.pos p)) ≤ 10) as Hpos.
  { intros p Hp. apply (pretty_N_length 10); [lia|].
    change (10 ^ N.of_nat 10)%N with 10000000000%N. lia. }
  destruct v as [|p|p].
  - simpl. lia.
  - change (pretty (Z.pos p)) with (pretty (N.pos p)).
    etrans; [apply Hpos|]; lia.
  - change (pretty (Z.neg p)) with ("-" +:+ pretty (N.pos p)).
    rewrite string_length_app.
    change (String.length "-") with 1. specialize (Hpos p). lia.
Qed.

Lemma format_report_length b s u p :
  is_int (value_at b s u p) → u < 9 → p < 9 →
  String.length (format (report b (s, u, p))) ≤ 59.
Proof.
  intros Hv%pretty_int_length Hu Hp. unfold report.
  destruct (unit_cell_bounds s u p Hu Hp) as [Hr Hc].
  destruct (unit_cell s u p) as [r c]; simpl in Hr, Hc.
  assert (u `div` 3 < 3) by (apply Nat.Div0.div_lt_upper_bound; lia).
  assert (u `mod` 3 < 3) by (apply Nat.mod_upper_bound; lia).
  pose proof (pretty_index_length (r + 1)). pose proof (pretty_index_length (c + 1)).
  pose proof (pretty_index_length (u + 1)).
  pose proof (pretty_index_length (u `div` 3 * 3 + 1)).
  pose proof (pretty_index_length (u `mod` 3 * 3 + 1)).
  destruct s, (out_of_range (value_at b _ u p)); unfold format;
    rewrite ?string_length_app; cbn [String.length]; lia.
Qed.

(** No report on a board of [int]s is longer than 59 characters. *)
Lemma first_violation_report_length b x :
  int_board b → first_violation b = Some x →
  String.length (format (report b x)) ≤ 59.
Proof.
  intros Hint Hx. apply first_violation_Some in Hx as (i & Hi & _).
  apply visits_lookup_inv in Hi as (s & u & p & -> & Hu & Hp & _).
  apply format_report_length; [|done..].
  destruct (unit_cell_bounds s u p Hu Hp). by apply Hint.
Qed.

(** X1.  For a board of [int]s the 128 bytes of [reason] in [worker_loop]
    hold the whole message and its terminator: the text written is the
    message itself, never a truncation of it. *)
Theorem reason_buffer_suffices (b : board) (reason : string) :
  int_board b →
  ∃ m, validate_message b = Some m
       ∧ String.length (format m) < 128
       ∧ validate_board_internal b reason 128 = Some (is_OK m, format m).
Proof.
  intros Hint. unfold validate_board_internal. rewrite validate_message_spec.
  eexists. split; [done|]. cbn [mbind option_bind].
  assert (String.length (format (from_option (report b) OK (first_violation b))) ≤ 59)
    as Hlen.
  { destruct (first_violation b) as [x|] eqn:Hx; [|simpl; lia].
    by apply first_violation_report_length. }
  split; [lia|]. unfold snprintf. rewrite substring_whole; [done|lia].
Qed.

Lemma int_board_solved_swapped : int_board solved_swapped.
Proof.
  intros r c Hr Hc.
  do 9 (destruct r as [|r];
        [do 9 (destruct c as [|c]; [by vm_compute|]); lia|]); lia.
Qed.

Lemma reason_buffer_suffices_witness :
  ∃ m, validate_message solved_swapped = Some m
       ∧ String.length (format m) < 128
       ∧ validate_board_internal solved_swapped "" 128 = Some (is_OK m, format m).
Proof.
  apply (reason_buffer_suffices solved_swapped ""). apply int_board_solved_swapped.
Defined.

(** ** The validator reads the 81 cells only *)

Lemma value_at_same b b' s u p :
  same_cells b b' → u < 9 → p < 9 → value_at b s u p = value_at b' s u p.
Proof.
  intros Hsame Hu Hp. destruct (unit_cell_bounds s u p Hu Hp).
  unfold value_at. by apply Hsame.
Qed.

Lemma violates_same b b' s u p :
  same_cells b b' → u < 9 → p < 9 → violates b (s, u, p) = violates b' (s, u, p).
Proof.
  intros Hsame Hu Hp. apply violates_ext. intros q Hq.
  apply value_at_same; [done|done|lia].
Qed.

Lemma report_same b b' s u p :
  same_cells b b' → u < 9 → p < 9 → report b (s, u, p) = report b' (s, u, p).
Proof.
  intros Hsame Hu Hp. unfold report. by rewrite (value_at_same b b').
Qed.

Lemma first_violation_same b b' :
  same_cells b b' → first_violation b = first_violation b'.
Proof.
  intros Hsame. destruct (first_violation b) as [x|] eqn:Hx; symmetry.
  - apply first_violation_Some in Hx as (i & Hi & Hv & Hbefore).
    apply first_violation_Some. exists i. split; [done|].
    pose proof Hi as (s & u & p & -> & Hu & Hp & _)%visits_lookup_inv.
    split; [by rewrite <-(violates_same b b')|].
    intros j y Hy Hj.
    pose proof Hy as (s' & u' & p' & -> & Hu' & Hp' & _)%visits_lookup_inv.
    rewrite <-(violates_same b b') by done. by apply (Hbefore j).
  - rewrite first_violation_None in Hx. apply first_violation_None.
    intros s u p Hu Hp. rewrite <-(violates_same b b') by done. by apply Hx.
Qed.

(** X2.  The result of [validate_board_internal] is determined by the 81
    cells [board[0..8][0..8]]: whatever lies at other indices is never read. *)
Theorem validate_reads_the_grid_only (b b' : board) (reason : string)
    (reason_len : nat) :
  same_cells b b' →
  validate_board_internal b reason reason_len
  = validate_board_internal b' reason reason_len.
Proof.
  intros Hsame. rewrite !validate_board_internal_spec.
  rewrite <-(first_violation_same b b' Hsame).
  destruct (first_violation b) as [x|] eqn:Hx; [|done].
  apply first_violation_Some in Hx as (i & Hi & _).
  apply visits_lookup_inv in Hi as (s & u & p & -> & Hu & Hp & _).
  by rewrite (report_same b b').
Qed.

Lemma validate_reads_the_grid_only_witness :
  validate_board_internal latin "" 128
  = validate_board_internal latin_elsewhere "" 128.
Proof.
  apply (validate_reads_the_grid_only latin latin_elsewhere "" 128).
  intros r c Hr Hc. unfold latin_elsewhere. rewrite decide_True; [reflexivity|lia].
Defined.

(** ** The line a worker prints *)

(** X3.  For a task whose board holds [int]s, the iteration of [worker_loop]
    prints "Board <id>: VALID" exactly when the board satisfies the Sudoku
    rule, and otherwise "Board <id>: INVALID -> " followed by the complete
    message for the first violation. *)
Theorem worker_prints_verdict (w : nat) (t : board_task_t) :
  int_board (task_board t) →
  (sudoku_valid (task_board t) = true →
     process w t = Some (Printed w ("Board " +:+ pretty (id t) +:+ ": VALID")))
  ∧ (sudoku_valid (task_board t) = false →
     ∃ x, first_violation (task_board t) = Some x
          ∧ process w t
            = Some (Printed w ("Board " +:+ pretty (id t) +:+ ": INVALID -> "
                                 +:+ format (report (task_board t) x)))).
Proof.
  intros Hint. unfold process. rewrite validate_board_internal_spec. split.
  - intros Hvalid%sudoku_valid_spec. by rewrite Hvalid.
  - intros [x Hx]%sudoku_invalid_spec. exists x. split; [done|].
    rewrite Hx. cbn [mbind option_bind]. unfold snprintf.
    rewrite substring_whole; [done|].
    pose proof (first_violation_report_length _ _ Hint Hx). lia.
Qed.

Lemma worker_prints_verdict_witness :
  process 0 {| id := 7; task_board := solved_swapped |}
  = Some (Printed 0 "Board 7: INVALID -> Duplicate 3 in column 1").
Proof.
  destruct (worker_prints_verdict 0 {| id := 7; task_board := solved_swapped |}
              int_board_solved_swapped) as [_ Hinvalid].
  destruct Hinvalid as (x & Hx & ->); [by vm_compute|].
  assert (x = (Columns, 0, 8)) as -> by (vm_compute in Hx; congruence).
  by vm_compute.
Defined.

(** ** The queue is memory safe and frees its nodes *)

Import Frame.

Lemma reachable_is_queue malloc st :
  malloc_fresh malloc → reachable malloc st → ∃ l, is_queue st l.
Proof.
  intros Hfresh. induction 1 as [st|st t st' _ [l Hq] Henq|st t st' _ [l Hq] Hdeq].
  - exists []. apply is_queue_init.
  - pose proof (enqueue_task_spec malloc Hfresh st l t Hq) as Hspec.
    unfold enqueue_task in Henq, Hspec.
    destruct (malloc (heap st)); [|done].
    destruct Hspec as (st'' & Heq & Hq'). exists (l ++ [t]). congruence.
  - pose proof (dequeue_task_spec st l Hq) as Hspec.
    destruct l as [|t' l']; [congruence|].
    destruct Hspec as (st'' & Heq & Hq'). exists l'. congruence.
Qed.

(** X4.  In every state reached from [queue_init] by calls that return,
    neither [enqueue_task] nor [dequeue_task] follows a dangling pointer:
    [q->tail->next] and [node->next] always address a live node. *)
Theorem queue_calls_are_defined (malloc : node_heap → ptr) (st : state) :
  malloc_fresh malloc → reachable malloc st →
  (∀ t, enqueue_task malloc st t ≠ Undef) ∧ dequeue_task st ≠ Undef.
Proof.
  intros Hfresh [l Hq]%reachable_is_queue; [|done]. split.
  - intros t. pose proof (enqueue_task_spec malloc Hfresh st l t Hq) as Hspec.
    destruct (malloc (heap st)); [|congruence].
    destruct Hspec as (st' & -> & _). done.
  - pose proof (dequeue_task_spec st l Hq) as Hspec.
    destruct l; [congruence|]. destruct Hspec as (st' & -> & _). done.
Qed.

Lemma queue_calls_are_defined_witness :
  let st := {| head := Some 1%positive; tail := Some 1%positive;
               heap := {[ 1%positive := {| task := None; next := None |} ]} |} in
  (∀ t, enqueue_task malloc_next st t ≠ Undef) ∧ dequeue_task st ≠ Undef.
Proof.
  intros st. apply (queue_calls_are_defined malloc_next st malloc_next_fresh).
  eapply (reachable_enqueue _ (queue_init empty_state) None);
    [apply reachable_init|by vm_compute].
Defined.

Section QueueFrame.
Variable malloc : node_heap → ptr.
Hypothesis Hfresh : malloc_fresh malloc.
Variable h0 : node_heap.

Lemma is_queue_over_init st : heap st = h0 → is_queue_over h0 (queue_init st) [].
Proof.
  intros Hh. exists []. split_and!; try done.
  - constructor.
  - intros n ?%elem_of_nil. done.
  - intros n _. simpl. by rewrite Hh.
Qed.

Lemma is_queue_over_empty st : is_queue_over h0 st [] → heap st = h0.
Proof.
  intros (ns & Hlen & _ & _ & _ & _ & _ & Hframe).
  destruct ns; [|done]. apply map_eq. intros n. apply Hframe, not_elem_of_nil.
Qed.

Lemma enqueue_task_over st l t st' :
  is_queue_over h0 st l → enqueue_task malloc st t = Ok () st' →
  is_queue_over h0 st' (l ++ [t]).
Proof.
  intros (ns & Hlen & Hnd & Hhd & Htl & Hnodes & Hout & Hframe).
  unfold enqueue_task. destruct (malloc (heap st)) as [n|] eqn:Hn; [|done].
  apply Hfresh in Hn.
  assert (n ∉ ns) as Hnin.
  { intros (i & Hi)%list_elem_of_lookup.
    destruct (Hnodes i n Hi) as (e & _ & He). congruence. }
  assert (h0 !! n = None) as Hn0 by (by rewrite <-Hframe).
  destruct (tail st) as [tl|] eqn:Htail.
  - symmetry in Htl. apply last_Some in Htl as (ns0 & ->).
    assert (tl ≠ n) as Hne.
    { intros ->. apply Hnin, elem_of_app. right. by left. }
    destruct (Hnodes (length ns0) tl) as (e & He & Htlnode).
    { by rewrite lookup_app_r, Nat.sub_diag by lia. }
    rewrite lookup_insert_ne by done. rewrite Htlnode. intros [= <-].
    rewrite length_app in Hlen; simpl in Hlen.
    exists ((ns0 ++ [tl]) ++ [n]). simpl. split_and!.
    + rewrite !length_app. simpl. lia.
    + apply NoDup_app. split_and!; [done| |apply NoDup_singleton].
      intros x Hx ->%list_elem_of_singleton. done.
    + rewrite Hhd. rewrite (lookup_app_l (ns0 ++ [tl])); [done|].
      rewrite length_app. simpl. lia.
    + by rewrite last_snoc.
    + intros i x Hx.
      destruct (decide (i < length ns0)) as [Hlt|Hge].
      * rewrite lookup_app_l in Hx by (rewrite length_app; simpl; lia).
        destruct (Hnodes i x Hx) as (e' & He' & Hnode).
        exists e'. rewrite lookup_app_l by lia. split; [done|].
        assert (x ≠ tl).
        { intros ->. rewrite lookup_app_l in Hx by done.
          apply NoDup_app in Hnd as (_ & Hdisj & _).
          apply (Hdisj tl); [by eapply list_elem_of_lookup_2|by left]. }
        assert (x ≠ n).
        { intros ->. apply Hnin. by eapply list_elem_of_lookup_2. }
        rewrite !lookup_insert_ne by done. rewrite Hnode. do 2 f_equal.
        rewrite (lookup_app_l (ns0 ++ [tl])); [done|].
        rewrite length_app; simpl; lia.
      * destruct (decide (i = length ns0)) as [->|Hne'].
        -- rewrite lookup_app_l in Hx by (rewrite length_app; simpl; lia).
           rewrite lookup_app_r, Nat.sub_diag in Hx by lia.
           injection Hx as <-.
           exists e. rewrite lookup_app_l by lia. split; [done|].
           rewrite lookup_insert_eq. simpl. do 2 f_equal.
           rewrite lookup_app_r by (rewrite length_app; simpl; lia).
           rewrite length_app; simpl.
           by replace (S (length ns0) - (length ns0 + 1)) with 0 by lia.
        -- assert (i = S (length ns0)) as ->.
           { apply lookup_lt_Some in Hx. rewrite !length_app in Hx.
             simpl in Hx. lia. }
           rewrite lookup_app_r in Hx by (rewrite length_app; simpl; lia).
           rewrite length_app in Hx; simpl in Hx.
           replace (S (length ns0) - (length ns0 + 1)) with 0 in Hx by lia.
           injection Hx as <-.
           exists t. split.
           { rewrite lookup_app_r by lia.
             by replace (S (length ns0) - length l) with 0 by lia. }
           rewrite lookup_insert_ne by done. rewrite lookup_insert_eq.
           do 2 f_equal. symmetry. apply lookup_ge_None.
           rewrite !length_app; simpl; lia.
    + intros x [Hx| ->%list_elem_of_singleton]%elem_of_app; [by apply Hout|done].
    + intros x Hx. rewrite elem_of_app, list_elem_of_singleton in Hx.
      rewrite !lookup_insert_ne.
      * apply Hframe. tauto.
      * intros ->. tauto.
      * intros ->. apply Hx. left. apply elem_of_app. right. by left.
  - symmetry in Htl. apply last_None in Htl as ->.
    destruct l; [|done]. intros [= <-].
    exists [n]. simpl. split_and!; try done.
    + apply NoDup_singleton.
    + intros [|i] x Hx; [|done]. injection Hx as <-.
      exists t. split; [done|]. by rewrite lookup_insert_eq.
    + by intros x ->%list_elem_of_singleton.
    + intros x Hx. rewrite list_elem_of_singleton in Hx.
      rewrite lookup_insert_ne by done. apply Hframe, not_elem_of_nil.
Qed.

Lemma dequeue_task_over st l t st' :
  is_queue_over h0 st l → dequeue_task st = Ok t st' →
  ∃ l', l = t :: l' ∧ is_queue_over h0 st' l'.
Proof.
  intros (ns & Hlen & Hnd & Hhd & Htl & Hnodes & Hout & Hframe).
  unfold dequeue_task. rewrite Hhd.
  destruct ns as [|n ns']; [done|]. simpl.
  destruct (Hnodes 0 n) as (e & He & Hnode); [done|]. rewrite Hnode. simpl.
  intros [= <- <-]. destruct l as [|e' l']; [done|]. injection He as ->.
  exists l'. split; [done|]. exists ns'. simpl in *.
  apply NoDup_cons in Hnd as [Hnin Hnd]. split_and!.
  - lia.
  - done.
  - done.
  - destruct ns' as [|n' ns'']; simpl; [done|]. rewrite Htl. done.
  - intros i x Hx.
    destruct (Hnodes (S i) x Hx) as (e' & He' & Hnode').
    exists e'. split; [done|].
    rewrite lookup_delete_ne; [done|].
    intros ->. apply Hnin. by eapply list_elem_of_lookup_2.
  - intros x Hx. apply Hout. by right.
  - intros x Hx. destruct (decide (x = n)) as [->|Hne].
    + rewrite lookup_delete_eq. symmetry. apply Hout. by left.
    + rewrite lookup_delete_ne by done. apply Hframe.
      intros [?|?]%elem_of_cons; done.
Qed.

Lemma queue_run_over ops : ∀ st l outs st',
  is_queue_over h0 st l → queue_run malloc ops st = Ok outs st' →
  ∃ l', is_queue_over h0 st' l'
        ∧ length l' + length outs = length l + enqueues ops.
Proof.
  induction ops as [|[t|] ops IH]; intros st l outs st' Hq; simpl.
  - intros [= <- <-]. exists l. split; [done|simpl; lia].
  - destruct (enqueue_task malloc st t) as [[] st1| | |] eqn:Henq; try done.
    intros Hrun.
    destruct (IH st1 (l ++ [t]) outs st') as (l' & Hq' & Hlen'); [|done|].
    { by eapply enqueue_task_over. }
    exists l'. split; [done|]. rewrite length_app in Hlen'. simpl in Hlen'. lia.
  - destruct (dequeue_task st) as [t st1| | |] eqn:Hdeq; try done.
    destruct (dequeue_task_over st l t st1 Hq Hdeq) as (l1 & -> & Hq1).
    destruct (queue_run malloc ops st1) as [ts st2| | |] eqn:Hrun; try done.
    intros [= <- <-].
    destruct (IH st1 l1 ts st2 Hq1 Hrun) as (l' & Hq' & Hlen').
    exists l'. split; [done|]. simpl. lia.
Qed.
End QueueFrame.

(** X5.  After any sequence of calls on a freshly initialised queue that
    returns, the heap is the heap at [queue_init] plus one node of the
    queue's own for each entry still queued, and the entries still queued
    are the enqueues not yet matched by a dequeue; once every enqueue is
    matched the heap is exactly the initial one again: each node is freed
    once and none leaks. *)
Theorem queue_frees_its_nodes (malloc : node_heap → ptr) (st0 st' : state)
    (ops : list op) (outs : list task_ptr) :
  malloc_fresh malloc →
  queue_run malloc ops (queue_init st0) = Ok outs st' →
  (∃ l, is_queue_over (heap st0) st' l
        ∧ length l + length outs = enqueues ops)
  ∧ (length outs = enqueues ops → heap st' = heap st0).
Proof.
  intros Hfresh Hrun.
  destruct (queue_run_over malloc Hfresh (heap st0) ops (queue_init st0) [] outs st')
    as (l & Hq & Hlen); [by apply is_queue_over_init|done|].
  split; [by exists l|]. intros Hbal.
  assert (l = []) as -> by (apply length_zero_iff_nil; simpl in Hlen; lia).
  by eapply is_queue_over_empty.
Qed.

Lemma queue_frees_its_nodes_witness :
  let st0 := {| head := None; tail := None;
                heap := {[ 5%positive := {| task := None; next := None |} ]} |} in
  ∃ st', queue_run malloc_next [Enq None; Enq None; Deq; Deq] (queue_init st0)
         = Ok [None; None] st'
         ∧ heap st' = heap st0.
Proof.
  intros st0. eexists. split; [by vm_compute|].
  eapply (queue_frees_its_nodes malloc_next st0 _ [Enq None; Enq None; Deq; Deq]
            [None; None] malloc_next_fresh); [by vm_compute|reflexivity].
Defined.

(** ** The runs of [main] *)

Import Runs.

Lemma create_workers_cases env n : ∀ i k,
  ((∀ j, i ≤ j < i + n → pthread_create env j = true)
   ∧ create_workers env i n k = (Create <$> seq i n) ++ k)
  ∨ (∃ m, m < n
          ∧ (∀ j, i ≤ j < i + m → pthread_create env j = true)
          ∧ pthread_create env (i + m) = false
          ∧ create_workers env i n k = (Create <$> seq i m) ++ [Exit_process 1]).
Proof.
  induction n as [|n IH]; intros i k.
  { left. split; [intros; lia|done]. }
  simpl. destruct (pthread_create env i) eqn:Hi.
  - destruct (IH (S i) k) as [[Hall ->]|(m & Hm & Hall & Hfail & ->)].
    + left. split; [|done]. intros j Hj.
      destruct (decide (j = i)) as [->|]; [done|]. apply Hall. lia.
    + right. exists (S m). split_and!; [lia| | |done].
      * intros j Hj. destruct (decide (j = i)) as [->|]; [done|]. apply Hall. lia.
      * by replace (i + S m) with (S i + m) by lia.
  - right. exists 0. split_and!; [lia|intros; lia| |done].
    by rewrite Nat.add_0_r.
Qed.

Lemma tasks_from_cons env i m brd :
  read_board_from_stdin env i = Some brd →
  tasks_from env i (S m)
  = {| id := Z.of_nat i; task_board := brd |} :: tasks_from env (S i) m.
Proof. intros Hread. unfold tasks_from. simpl. by rewrite Hread. Qed.

Lemma submit_cases env N n : ∀ i,
  ((∀ j, i ≤ j < i + n →
      is_Some (read_board_from_stdin env j) ∧ task_malloc env j = true)
   ∧ (∀ j, i ≤ j < i + n → Z.of_nat j ≠ INT_MAX)
   ∧ submit env N i n
     = (Enqueue ∘ Some <$> tasks_from env i n) ++ shutdown N ++ [Exit_process 0])
  ∨ (∃ m, m < n
      ∧ (∀ j, i ≤ j < i + m →
           is_Some (read_board_from_stdin env j) ∧ task_malloc env j = true)
      ∧ ((read_board_from_stdin env (i + m) = None
          ∧ submit env N i n
            = (Enqueue ∘ Some <$> tasks_from env i m) ++ shutdown N
                ++ [Exit_process 1])
         ∨ (is_Some (read_board_from_stdin env (i + m))
            ∧ task_malloc env (i + m) = false
            ∧ submit env N i n
              = (Enqueue ∘ Some <$> tasks_from env i m) ++ [Exit_process 1])
         ∨ (is_Some (read_board_from_stdin env (i + m))
            ∧ task_malloc env (i + m) = true
            ∧ Z.of_nat (i + m) = INT_MAX
            ∧ submit env N i n
              = (Enqueue ∘ Some <$> tasks_from env i (S m)) ++ [Overflow]))).
Proof.
  induction n as [|n IH]; intros i.
  { left. split_and!; [intros; lia|intros; lia|done]. }
  cbn [submit]. destruct (read_board_from_stdin env i) as [brd|] eqn:Hread.
  2: { right. exists 0. split_and!; [lia|intros; lia|].
       left. by rewrite Nat.add_0_r. }
  destruct (task_malloc env i) eqn:Halloc.
  2: { right. exists 0. split_and!; [lia|intros; lia|].
       right. left. rewrite Nat.add_0_r. by split_and!. }
  case_decide as Hmax.
  { right. exists 0. split_and!; [lia|intros; lia|].
    right. right. rewrite Nat.add_0_r.
    rewrite (tasks_from_cons env i 0 brd Hread). by split_and!. }
  assert (∀ m, (∀ j, S i ≤ j < S i + m →
             is_Some (read_board_from_stdin env j) ∧ task_malloc env j = true) →
           ∀ j, i ≤ j < i + S m →
             is_Some (read_board_from_stdin env j) ∧ task_malloc env j = true)
    as Hext.
  { intros m Hall j Hj. destruct (decide (j = i)) as [->|]; [by split|].
    apply Hall. lia. }
  destruct (IH (S i)) as [(Hall & Hint & ->)|(m & Hm & Hall & Hfail)].
  - left. split_and!; [by apply Hext| |by rewrite (tasks_from_cons env i n brd)].
    intros j Hj. destruct (decide (j = i)) as [->|]; [done|]. apply Hint. lia.
  - right. exists (S m). split; [lia|]. split; [by apply Hext|].
    replace (i + S m) with (S i + m) by lia.
    rewrite (tasks_from_cons env i m brd) by done.
    rewrite (tasks_from_cons env i (S m) brd) by done.
    destruct Hfail as [[Hnone ->]|[(Hsome & Hmal & ->)|(Hsome & Hmal & Hof & ->)]];
      [by left|right; by left|right; right; by split_and!].
Qed.

(** The seven forms of a run of [main]. *)
Lemma main_cases env :
  (workers_malloc env = false ∧ main env = [Init_queue; Exit_process 1])
  ∨ (workers_malloc env = true
     ∧ ∃ m, m < worker_count env
            ∧ (∀ j, j < m → pthread_create env j = true)
            ∧ pthread_create env m = false
            ∧ main env = Init_queue :: (Create <$> seq 0 m) ++ [Exit_process 1])
  ∨ (workers_malloc env = true
     ∧ (∀ j, j < worker_count env → pthread_create env j = true)
     ∧ read_board_count env = None
     ∧ main env
       = Init_queue :: (Create <$> seq 0 (worker_count env)) ++ [Exit_process 1])
  ∨ (workers_malloc env = true
     ∧ (∀ j, j < worker_count env → pthread_create env j = true)
     ∧ ∃ count, read_board_count env = Some count
       ∧ (((∀ j, 1 ≤ j < 1 + Z.to_nat count →
              is_Some (read_board_from_stdin env j) ∧ task_malloc env j = true)
           ∧ (count < INT_MAX)%Z
           ∧ main env
             = pool_run (worker_count env) (tasks_from env 1 (Z.to_nat count)) 0)
          ∨ ∃ m, m < Z.to_nat count
              ∧ (∀ j, 1 ≤ j < 1 + m →
                   is_Some (read_board_from_stdin env j) ∧ task_malloc env j = true)
              ∧ ((read_board_from_stdin env (1 + m) = None
                  ∧ main env = pool_run (worker_count env) (tasks_from env 1 m) 1)
                 ∨ (is_Some (read_board_from_stdin env (1 + m))
                    ∧ task_malloc env (1 + m) = false
                    ∧ main env
                      = Init_queue :: (Create <$> seq 0 (worker_count env))
                          ++ (Enqueue ∘ Some <$> tasks_from env 1 m)
                          ++ [Exit_process 1])
                 ∨ (is_Some (read_board_from_stdin env (1 + m))
                    ∧ task_malloc env (1 + m) = true
                    ∧ Z.of_nat (1 + m) = INT_MAX
                    ∧ main env
                      = Init_queue :: (Create <$> seq 0 (worker_count env))
                          ++ (Enqueue ∘ Some <$> tasks_from env 1 (S m))
                          ++ [Overflow])))).
Proof.
  unfold main. destruct (workers_malloc env) eqn:Hw; [|by left]. right.
  destruct (create_workers_cases env (worker_count env) 0
              match read_board_count env with
              | Some count => submit env (worker_count env) 1 (Z.to_nat count)
              | None => [Exit_process 1]
              end) as [[Hall ->]|(m & Hm & Hall & Hfail & ->)].
  2: { left. split; [done|]. exists m. split_and!; try done.
       intros j Hj. apply Hall. lia. }
  right. assert (∀ j, j < worker_count env → pthread_create env j = true) as Hall'.
  { intros j Hj. apply Hall. lia. }
  destruct (read_board_count env) as [count|]; [|by left]. right.
  split; [done|]. split; [done|]. exists count. split; [done|].
  destruct (submit_cases env (worker_count env) (Z.to_nat count) 1)
    as [(Hok & Hint & ->)
       |(m & Hm & Hok & [[Hnone ->]|[(Hsome & Hmal & ->)|(Hsome & Hmal & Hof & ->)]])].
  - left. split_and!; [done| |done].
    destruct (decide (count < INT_MAX)%Z) as [|Hge]; [done|]. exfalso.
    apply (Hint (Z.to_nat INT_MAX)); unfold INT_MAX in *; lia.
  - right. exists m. split_and!; try done. by left.
  - right. exists m. split_and!; try done. right. by left.
  - right. exists m. split_and!; try done. right. right. by split_and!.
Qed.

(** With [INT_MAX] boards announced and all of them read, [main] enqueues
    them all and then overflows its counter: it does not reach the shutdown
    protocol by any defined behaviour. *)
Lemma main_overflow env count :
  workers_malloc env = true →
  (∀ j, j < worker_count env → pthread_create env j = true) →
  read_board_count env = Some count → count = INT_MAX →
  (∀ j, 1 ≤ j < 1 + Z.to_nat count →
     is_Some (read_board_from_stdin env j) ∧ task_malloc env j = true) →
  main env
  = Init_queue :: (Create <$> seq 0 (worker_count env))
      ++ (Enqueue ∘ Some <$> tasks_from env 1 (Z.to_nat count)) ++ [Overflow].
Proof.
  intros Hw Hcreate Hcount Hmax Hok.
  destruct (main_cases env)
    as [[Hw' _]|[(_ & m & Hm & _ & Hfail & _)|[(_ & _ & Hcount' & _)
       |(_ & _ & count' & Hcount' & Hcases)]]]; [congruence| |congruence|].
  { rewrite Hcreate in Hfail; done. }
  assert (count' = count) as -> by congruence.
  destruct Hcases
    as [(_ & Hlt & _)
       |(m & Hm & _ & [[Hnone _]|[(_ & Hmal & _)|(_ & _ & Hof & ->)]])].
  - lia.
  - destruct (Hok (1 + m)) as [[? ?] _]; [lia|congruence].
  - destruct (Hok (1 + m)) as [_ ?]; [lia|congruence].
  - replace (S m) with (Z.to_nat count) by lia. done.
Qed.

Lemma no_exit_before_shutdown N (ts : list board_task_t) :
  Forall (λ a, is_exit a = false)
    (Init_queue :: (Create <$> seq 0 N) ++ (Enqueue ∘ Some <$> ts)).
Proof.
  constructor; [done|]. apply Forall_app. split; by apply Forall_fmap, Forall_true.
Qed.

Lemma no_exit_in_shutdown N : Forall (λ a, is_exit a = false) (shutdown N).
Proof.
  apply Forall_app. split; [by apply Forall_replicate|].
  by apply Forall_fmap, Forall_true.
Qed.

(** What [main] does last: it returns 0 exactly when nothing failed,
    returns 1 or calls [exit(1)] when something did, and has no defined
    behaviour when its counter overflows. *)
Lemma main_last_action (env : environment) :
  ∃ pre a,
    main env = pre ++ [a]
    ∧ Forall (λ a, is_exit a = false) pre
    ∧ ((a = Exit_process 0 ∧ run_succeeds env)
       ∨ ((a = Exit_process 1 ∨ a = Overflow) ∧ ¬ run_succeeds env)).
Proof.
  destruct (main_cases env)
    as [[Hw ->]|[(Hw & m & Hm & Hall & Hfail & ->)|[(Hw & Hall & Hcount & ->)
       |(Hw & Hall & count & Hcount
         & [(Hok & Hmax & ->)
           |(m & Hm & Hok
             & [[Hnone ->]|[(Hsome & Hmal & ->)|(Hsome & Hmal & Hof & ->)]])])]]].
  - exists [Init_queue], (Exit_process 1).
    split_and!; [done|by repeat constructor|]. right. split; [by left|].
    intros (Hw' & _). congruence.
  - exists (Init_queue :: (Create <$> seq 0 m)), (Exit_process 1).
    split_and!; [done| |].
    + constructor; [done|]. by apply Forall_fmap, Forall_true.
    + right. split; [by left|]. intros (_ & Hall' & _).
      rewrite Hall' in Hfail; done.
  - exists (Init_queue :: (Create <$> seq 0 (worker_count env))), (Exit_process 1).
    split_and!; [done| |].
    + constructor; [done|]. by apply Forall_fmap, Forall_true.
    + right. split; [by left|]. intros (_ & _ & c & Hc & _). congruence.
  - exists (Init_queue :: (Create <$> seq 0 (worker_count env))
              ++ (Enqueue ∘ Some <$> tasks_from env 1 (Z.to_nat count))
              ++ shutdown (worker_count env)), (Exit_process 0).
    split_and!.
    + unfold pool_run. simpl. by rewrite <-!app_assoc.
    + rewrite app_comm_cons, app_assoc. apply Forall_app. split.
      * apply no_exit_before_shutdown.
      * apply no_exit_in_shutdown.
    + left. split; [done|]. split_and!; [done..|]. by exists count.
  - exists (Init_queue :: (Create <$> seq 0 (worker_count env))
              ++ (Enqueue ∘ Some <$> tasks_from env 1 m)
              ++ shutdown (worker_count env)), (Exit_process 1).
    split_and!.
    + unfold pool_run. simpl. by rewrite <-!app_assoc.
    + rewrite app_comm_cons, app_assoc. apply Forall_app. split.
      * apply no_exit_before_shutdown.
      * apply no_exit_in_shutdown.
    + right. split; [by left|]. intros (_ & _ & c & Hc & _ & Hok').
      assert (c = count) as -> by congruence.
      destruct (Hok' (1 + m)) as [[? ?] _]; [lia|congruence].
  - exists (Init_queue :: (Create <$> seq 0 (worker_count env))
              ++ (Enqueue ∘ Some <$> tasks_from env 1 m)), (Exit_process 1).
    split_and!.
    + simpl. by rewrite <-!app_assoc.
    + apply no_exit_before_shutdown.
    + right. split; [by left|]. intros (_ & _ & c & Hc & _ & Hok').
      assert (c = count) as -> by congruence.
      destruct (Hok' (1 + m)) as [_ ?]; [lia|congruence].
  - exists (Init_queue :: (Create <$> seq 0 (worker_count env))
              ++ (Enqueue ∘ Some <$> tasks_from env 1 (S m))), Overflow.
    split_and!.
    + simpl. by rewrite <-!app_assoc.
    + apply no_exit_before_shutdown.
    + right. split; [by right|]. intros (_ & _ & c & Hc & Hmax & _).
      assert (c = count) as -> by congruence. unfold INT_MAX in *. lia.
Qed.

(** X7.  When the set-up fails (the workers array is not allocated, a worker
    is not created, or the count prompt meets the end of the input), [main]
    ends the process with status 1 right after the creations done so far:
    nothing is enqueued and no worker is joined, so the [m] workers already
    created get no sentinel. *)
Theorem setup_failure_skips_shutdown (env : environment) :
  setup_fails env →
  ∃ m, m ≤ worker_count env
       ∧ (∀ j, j < m → pthread_create env j = true)
       ∧ main env = Init_queue :: (Create <$> seq 0 m) ++ [Exit_process 1].
Proof.
  intros Hfails.
  destruct (main_cases env)
    as [[Hw ->]|[(Hw & m & Hm & Hall & Hfail & ->)|[(Hw & Hall & Hcount & ->)
       |(Hw & Hall & count & Hcount & _)]]].
  - exists 0. split_and!; [lia|intros; lia|done].
  - exists m. split_and!; [lia|done|done].
  - exists (worker_count env). split_and!; [lia|done|done].
  - destruct Hfails as [?|[(j & Hj & Hfail)|?]]; [congruence| |congruence].
    rewrite Hall in Hfail; done.
Qed.

Lemma setup_failure_skips_shutdown_witness :
  ∃ m, m ≤ 3
       ∧ (∀ j, j < m → pthread_create (create_fails_env 2) j = true)
       ∧ main (create_fails_env 2)
         = Init_queue :: (Create <$> seq 0 m) ++ [Exit_process 1].
Proof.
  apply (setup_failure_skips_shutdown (create_fails_env 2)).
  right. left. exists 2. split; [by vm_compute|reflexivity].
Defined.

Lemma enqueued_tasks_app a b :
  enqueued_tasks (a ++ b) = enqueued_tasks a ++ enqueued_tasks b.
Proof. apply omap_app. Qed.

Lemma enqueued_tasks_creates l : enqueued_tasks (Create <$> l) = [].
Proof. by induction l. Qed.

Lemma enqueued_tasks_enqueues ts : enqueued_tasks (Enqueue ∘ Some <$> ts) = ts.
Proof. induction ts as [|t ts IH]; [done|]. simpl. by rewrite <-IH at 2. Qed.

Lemma enqueued_tasks_shutdown N : enqueued_tasks (shutdown N) = [].
Proof.
  unfold shutdown. rewrite enqueued_tasks_app.
  assert (enqueued_tasks (replicate N (Enqueue None)) = []) as ->
    by by induction N.
  by induction (seq 0 N).
Qed.

Lemma enqueued_tasks_pool_run N ts c : enqueued_tasks (pool_run N ts c) = ts.
Proof.
  unfold pool_run. change (enqueued_tasks (Init_queue :: ?l)) with (enqueued_tasks l).
  rewrite !enqueued_tasks_app, enqueued_tasks_creates, enqueued_tasks_enqueues,
    enqueued_tasks_shutdown. simpl. by rewrite app_nil_r.
Qed.

(** The tasks [main] enqueues are those of a prefix of the input in which
    every board was read and every task allocated. *)
Lemma main_enqueued env :
  ∃ m, enqueued_tasks (main env) = tasks_from env 1 m
       ∧ (∀ j, 1 ≤ j < 1 + m →
            is_Some (read_board_from_stdin env j) ∧ task_malloc env j = true)
       ∧ (∀ count, read_board_count env = Some count → m ≤ Z.to_nat count)
       ∧ (run_succeeds env →
          ∃ count, read_board_count env = Some count ∧ m = Z.to_nat count).
Proof.
  destruct (main_cases env)
    as [[Hw ->]|[(Hw & m & Hm & Hall & Hfail & ->)|[(Hw & Hall & Hcount & ->)
       |(Hw & Hall & count & Hcount
         & [(Hok & Hmax & ->)
           |(m & Hm & Hok
             & [[Hnone ->]|[(Hsome & Hmal & ->)|(Hsome & Hmal & Hof & ->)]])])]]].
  - exists 0. split_and!; [done|intros; lia|intros; lia|].
    intros (Hw' & _). congruence.
  - exists 0. split_and!; [|intros; lia|intros; lia|].
    + change (enqueued_tasks (Init_queue :: ?l)) with (enqueued_tasks l).
      by rewrite enqueued_tasks_app, enqueued_tasks_creates.
    + intros (_ & Hall' & _). rewrite Hall' in Hfail; done.
  - exists 0. split_and!; [|intros; lia|intros; lia|].
    + change (enqueued_tasks (Init_queue :: ?l)) with (enqueued_tasks l).
      by rewrite enqueued_tasks_app, enqueued_tasks_creates.
    + intros (_ & _ & c & Hc & _). congruence.
  - exists (Z.to_nat count). split_and!; [apply enqueued_tasks_pool_run|done| |].
    + intros c Hc. assert (c = count) as -> by congruence. lia.
    + intros _. by exists count.
  - exists m. split_and!; [apply enqueued_tasks_pool_run|done| |].
    + intros c Hc. assert (c = count) as -> by congruence. lia.
    + intros (_ & _ & c & Hc & _ & Hok').
      assert (c = count) as -> by congruence.
      destruct (Hok' (1 + m)) as [[? ?] _]; [lia|congruence].
  - exists m. split_and!; [|done| |].
    + change (enqueued_tasks (Init_queue :: ?l)) with (enqueued_tasks l).
      rewrite !enqueued_tasks_app, enqueued_tasks_creates, enqueued_tasks_enqueues.
      simpl. by rewrite app_nil_r.
    + intros c Hc. assert (c = count) as -> by congruence. lia.
    + intros (_ & _ & c & Hc & _ & Hok').
      assert (c = count) as -> by congruence.
      destruct (Hok' (1 + m)) as [_ ?]; [lia|congruence].
  - exists (S m). split_and!.
    + change (enqueued_tasks (Init_queue :: ?l)) with (enqueued_tasks l).
      rewrite !enqueued_tasks_app, enqueued_tasks_creates, enqueued_tasks_enqueues.
      simpl. by rewrite app_nil_r.
    + intros j Hj. destruct (decide (j = 1 + m)) as [->|]; [done|].
      apply Hok. lia.
    + intros c Hc. assert (c = count) as -> by congruence. lia.
    + intros (_ & _ & c & Hc & Hmax & _).
      assert (c = count) as -> by congruence. unfold INT_MAX in *. lia.
Qed.

Lemma tasks_from_lookup env m : ∀ i k t,
  (∀ j, i ≤ j < i + m → is_Some (read_board_from_stdin env j)) →
  tasks_from env i m !! k = Some t →
  k < m ∧ id t = Z.of_nat (i + k)
  ∧ read_board_from_stdin env (i + k) = Some (task_board t).
Proof.
  induction m as [|m IH]; intros i k t Hall Hk; [done|].
  destruct (Hall i) as [brd Hread]; [lia|].
  rewrite (tasks_from_cons env i m brd Hread) in Hk.
  destruct k as [|k].
  - simpl in Hk. injection Hk as <-. rewrite Nat.add_0_r. simpl.
    split_and!; [lia|done|done].
  - simpl in Hk. apply IH in Hk as (Hlt & Hid & Hbrd).
    + replace (i + S k) with (S i + k) by lia. split_and!; [lia|done|done].
    + intros j Hj. apply Hall. lia.
Qed.

Lemma tasks_from_length env m : ∀ i,
  (∀ j, i ≤ j < i + m → is_Some (read_board_from_stdin env j)) →
  length (tasks_from env i m) = m.
Proof.
  induction m as [|m IH]; intros i Hall; [done|].
  destruct (Hall i) as [brd Hread]; [lia|].
  rewrite (tasks_from_cons env i m brd Hread). simpl. f_equal.
  apply IH. intros j Hj. apply Hall. lia.
Qed.

(** X8.  The [k]-th task [main] enqueues (counting from 0) carries the id
    [k + 1] and the [k + 1]-th board read from the input, its allocation
    succeeded, and [k] is below the count that was read: ids are consecutive
    from 1 and no board is enqueued twice or out of order. *)
Theorem enqueued_ids_are_consecutive (env : environment) (k : nat)
    (t : board_task_t) :
  enqueued_tasks (main env) !! k = Some t →
  id t = Z.of_nat (k + 1)
  ∧ read_board_from_stdin env (k + 1) = Some (task_board t)
  ∧ task_malloc env (k + 1) = true
  ∧ ∃ count, read_board_count env = Some count ∧ k < Z.to_nat count.
Proof.
  intros Hk. destruct (main_enqueued env) as (m & Heq & Hall & Hle & _).
  rewrite Heq in Hk.
  apply tasks_from_lookup in Hk as (Hlt & Hid & Hbrd);
    [|intros j Hj; by apply Hall].
  replace (k + 1) with (1 + k) by lia. split_and!; [done|done| |].
  - apply Hall. lia.
  - destruct (read_board_count env) as [count|] eqn:Hcount.
    + exists count. split; [done|]. specialize (Hle count eq_refl). lia.
    + destruct (main_cases env)
        as [[Hw Hmain]|[(Hw & m' & Hm & _ & Hfail & Hmain)|[(Hw & _ & _ & Hmain)
           |(Hw & _ & count & Hcount' & _)]]]; [| | |congruence].
      all: rewrite Hmain in Heq;
        change (enqueued_tasks (Init_queue :: ?l)) with (enqueued_tasks l) in Heq;
        rewrite ?enqueued_tasks_app, ?enqueued_tasks_creates in Heq;
        simpl in Heq; symmetry in Heq;
        apply (f_equal length) in Heq;
        rewrite tasks_from_length in Heq by (intros j Hj; by apply Hall);
        simpl in Heq; lia.
Qed.

Lemma enqueued_ids_are_consecutive_witness :
  id {| id := 2; task_board := solved |} = Z.of_nat (1 + 1)
  ∧ read_board_from_stdin (example_env 3 0 0) (1 + 1)
    = Some (task_board {| id := 2; task_board := solved |})
  ∧ task_malloc (example_env 3 0 0) (1 + 1) = true
  ∧ ∃ count, read_board_count (example_env 3 0 0) = Some count
             ∧ 1 < Z.to_nat count.
Proof.
  apply (enqueued_ids_are_consecutive (example_env 3 0 0) 1
           {| id := 2; task_board := solved |}).
  reflexivity.
Defined.

(** X9.  When nothing fails and the count read is below [INT_MAX], so that
    the loop counter of [main] does not overflow, [main] enqueues exactly as
    many tasks as the count, then one [NULL] per worker, joins every worker
    and ends with status 0. *)
Theorem successful_run_submits_every_board (env : environment) :
  run_succeeds env →
  ∃ count tasks,
    read_board_count env = Some count
    ∧ length tasks = Z.to_nat count
    ∧ main env
      = Init_queue :: (Create <$> seq 0 (worker_count env))
          ++ (Enqueue ∘ Some <$> tasks)
          ++ replicate (worker_count env) (Enqueue None)
          ++ (Join <$> seq 0 (worker_count env))
          ++ [Exit_process 0].
Proof.
  intros (Hw & Hcreate & count & Hcount & Hmax & Hok).
  exists count, (tasks_from env 1 (Z.to_nat count)). split_and!; [done| |].
  - apply tasks_from_length. intros j Hj. by apply Hok.
  - by rewrite (main_ok env count), pool_run_unfold.
Qed.

Lemma successful_run_submits_every_board_witness :
  ∃ count tasks,
    read_board_count (example_env 2 0 0) = Some count
    ∧ length tasks = Z.to_nat count
    ∧ main (example_env 2 0 0)
      = Init_queue :: (Create <$> seq 0 (worker_count (example_env 2 0 0)))
          ++ (Enqueue ∘ Some <$> tasks)
          ++ replicate (worker_count (example_env 2 0 0)) (Enqueue None)
          ++ (Join <$> seq 0 (worker_count (example_env 2 0 0)))
          ++ [Exit_process 0].
Proof.
  apply (successful_run_submits_every_board (example_env 2 0 0)).
  split_and!; [reflexivity|intros; reflexivity|].
  exists 2%Z. split; [reflexivity|]. split; [unfold INT_MAX; lia|].
  intros j Hj. assert (j = 1 ∨ j = 2) as [-> | ->] by (simpl in Hj; lia).
  - split; [by eexists|reflexivity].
  - split; [by eexists|reflexivity].
Defined.

(** ** The log of a run *)

Import Trace.

Lemma all_dequeued_snoc evs ev :
  all_dequeued (evs ++ [ev])
  = all_dequeued evs ++ match ev with Dequeued _ t => [t] | _ => [] end.
Proof. unfold all_dequeued. rewrite omap_app. f_equal. by destruct ev. Qed.

Lemma texts_snoc evs ev :
  texts (evs ++ [ev])
  = texts evs ++ match ev with Printed _ text => [text] | _ => [] end.
Proof. unfold texts. rewrite omap_app. f_equal. by destruct ev. Qed.

Lemma printed_by_snoc w evs ev :
  printed_by w (evs ++ [ev])
  = printed_by w evs
    ++ match ev with
       | Printed w' text => if decide (w' = w) then [text] else []
       | _ => []
       end.
Proof.
  unfold printed_by. rewrite omap_app. f_equal. simpl.
  destruct ev as [|w' text|]; try done. by destruct (decide (w' = w)).
Qed.

Lemma tasks_of_app l1 l2 : tasks_of (l1 ++ l2) = tasks_of l1 ++ tasks_of l2.
Proof. apply omap_app. Qed.

Lemma tasks_of_tasks ts : tasks_of (Some <$> ts) = ts.
Proof. induction ts as [|t ts IH]; [done|]. simpl. by rewrite <-IH at 2. Qed.

Lemma tasks_of_sentinels n : tasks_of (replicate n None) = [].
Proof. by induction n. Qed.

Lemma tasks_of_pending acts : tasks_of (pending acts) = enqueued_tasks acts.
Proof.
  induction acts as [|a acts IH]; [done|].
  destruct a as [|i|[t|]|i|c|]; simpl; try done.
  change (t :: tasks_of (pending acts) = t :: enqueued_tasks acts). by f_equal.
Qed.

Lemma pending_app a b : pending (a ++ b) = pending a ++ pending b.
Proof. apply omap_app. Qed.

Lemma pending_pool_run N ts c :
  pending (pool_run N ts c) = (Some <$> ts) ++ replicate N None.
Proof.
  unfold pool_run, shutdown.
  change (pending (Init_queue :: ?l)) with (pending l).
  rewrite !pending_app.
  assert (∀ l, pending (Create <$> l) = []) as -> by (by induction l).
  assert (∀ l, pending (Join <$> l) = []) as -> by (by induction l).
  assert (pending (Enqueue ∘ Some <$> ts) = Some <$> ts) as ->.
  { induction ts as [|t ts' IH]; [done|]. simpl. f_equal. exact IH. }
  assert (pending (replicate N (Enqueue None)) = replicate N None) as ->.
  { induction N as [|n IH]; [done|]. simpl. f_equal. exact IH. }
  simpl. by rewrite !app_nil_r.
Qed.

(** The line of a task is what [process] prints for it, whoever runs it. *)
Lemma process_line w t : process w t = Some (Printed w (line t)).
Proof.
  unfold process, line. rewrite validate_board_internal_spec.
  destruct (first_violation _); by simpl.
Qed.

(** A sentinel among the entries not yet dequeued: they cannot be none of
    them if the last entry enqueued is a sentinel. *)
Lemma sentinel_is_last (pre d : list task_ptr) ts N :
  0 < N → pre ++ d = (Some <$> ts) ++ replicate N None →
  tally is_sentinel d = 0 → d = [].
Proof.
  intros HN Heq Hz. destruct (decide (d = [])) as [|Hne]; [done|]. exfalso.
  destruct (exists_last Hne) as (d' & x & ->).
  destruct N as [|n]; [lia|].
  rewrite replicate_S_end in Heq. rewrite !app_assoc in Heq.
  apply app_inj_tail in Heq as [_ ->].
  rewrite tally_app in Hz. unfold tally in Hz at 2. simpl in Hz. lia.
Qed.

Lemma tally_tasks (ts : list board_task_t) : tally is_sentinel (Some <$> ts) = 0.
Proof. by induction ts. Qed.

Lemma tally_sentinels n : tally is_sentinel (replicate n (@None board_task_t)) = n.
Proof. induction n as [|n IH]; [done|]. simpl. rewrite tally_cons, IH. done. Qed.

(** *** Workers across a step *)

Lemma omap_cons_list {A B} (f : A → option B) x l :
  omap f (x :: l) = option_list (f x) ++ omap f l.
Proof.
  change (x :: l) with ([x] ++ l). by rewrite omap_app.
Qed.

Lemma wakes_tally_terminated ws ws' :
  Forall2 wakes ws ws' → tally is_terminated ws' = tally is_terminated ws.
Proof.
  induction 1 as [|a b ws ws' Hab _ IH]; [done|].
  rewrite !tally_cons, IH. by destruct Hab as [->|[-> ->]].
Qed.

Lemma wakes_in_progress ws ws' :
  Forall2 wakes ws ws' → omap in_progress ws' = omap in_progress ws.
Proof.
  induction 1 as [|a b ws ws' Hab _ IH]; [done|].
  rewrite !omap_cons_list, IH. by destruct Hab as [->|[-> ->]].
Qed.

Lemma wakes_lookup_in_progress ws ws' w :
  Forall2 wakes ws ws' → ws' !! w ≫= in_progress = ws !! w ≫= in_progress.
Proof.
  intros Hall. revert w. induction Hall as [|a b ws ws' Hab _ IH]; intros [|w];
    simpl; try done.
  by destruct Hab as [->|[-> ->]].
Qed.

Lemma lookup_snoc_in_progress (ws : list worker_state) (w : nat) :
  (ws ++ [Ready]) !! w ≫= in_progress = ws !! w ≫= in_progress.
Proof.
  revert w. induction ws as [|a ws IH]; intros [|w]; simpl; try done.
Qed.

Lemma lookup_insert_in_progress (ws : list worker_state) (w : nat) x y w' :
  ws !! w = Some x →
  <[w := y]> ws !! w' ≫= in_progress
  = if decide (w' = w) then in_progress y else ws !! w' ≫= in_progress.
Proof.
  intros Hw. destruct (decide (w' = w)) as [->|Hne].
  - rewrite list_lookup_insert_eq; [done|]. by eapply lookup_lt_Some.
  - by rewrite list_lookup_insert_ne.
Qed.

(** The tasks in progress when one worker changes its state. *)
Lemma in_progress_insert (ws : list worker_state) (w : nat) x y :
  ws !! w = Some x →
  option_list (in_progress x) ++ omap in_progress (<[w := y]> ws)
  ≡ₚ option_list (in_progress y) ++ omap in_progress ws.
Proof.
  revert w. induction ws as [|a ws IH]; intros [|w] Hw; [done|done| |].
  - injection Hw as ->. change (<[0 := y]> (x :: ws)) with (y :: ws).
    rewrite !omap_cons_list.
    destruct (in_progress x), (in_progress y); simpl; try done.
    apply perm_swap.
  - change (<[S w := y]> (a :: ws)) with (a :: <[w := y]> ws).
    rewrite !omap_cons_list. specialize (IH w Hw).
    destruct (in_progress a) as [t|]; [|done].
    simpl. rewrite <-!Permutation_middle. by constructor.
Qed.

Lemma in_progress_after_dequeue t : in_progress (after_dequeue t) = t.
Proof. by destruct t. Qed.

Lemma is_terminated_after_dequeue t :
  is_terminated (after_dequeue t) = is_sentinel t.
Proof. by destruct t. Qed.

Lemma all_terminated (ws : list worker_state) N :
  length ws = N → (∀ w, w < N → ws !! w = Some Terminated) →
  ws = replicate N Terminated.
Proof.
  intros Hlen Hall. apply list_eq_same_length with N; [by rewrite length_replicate|done|].
  intros i x y Hi Hx Hy. rewrite Hall in Hx by done.
  apply lookup_replicate in Hy as [-> _]. congruence.
Qed.
(** *** The two invariants *)

Section LogInvariant.
Variable malloc : node_heap → ptr.
Hypothesis Hfresh : malloc_fresh malloc.
Variable acts : list action.
Hypothesis Hacts : Init_queue ∉ drop 1 acts.

Lemma fifo_inv_initial : fifo_inv acts (initial acts).
Proof.
  split; [by right|]. exists [], (pending acts). split_and!; [|done|done].
  apply (is_queue_init empty_state).
Qed.

Lemma fifo_inv_step s lbl s' :
  fifo_inv acts s → step malloc s lbl s' → fifo_inv acts s'.
Proof.
  intros (Hinit & l & rest & Hq & Heq & Hrest) Hstep.
  assert (∀ a r, todo s = a :: r → Init_queue ∉ r) as Htl.
  { intros a r Htodo. destruct Hinit as [Hnin| ->].
    - rewrite Htodo in Hnin. by apply not_elem_of_cons in Hnin as [_ ?].
    - simpl in Htodo. by rewrite Htodo in Hacts. }
  assert (∀ w x, workers s !! w = Some x → Init_queue ∉ todo s) as Hworker.
  { intros w x Hw. by destruct Hinit as [?| ->]. }
  destruct Hstep as [s r He Htodo|s i r He Htodo|s t r q' ws' He Htodo Henq Hsig
                    |s t r c He Htodo Henq|s i r He Htodo Hterm|s c r He Htodo
                    |s w He Hw Hdeq|s w t q' He Hw Hdeq|s w t q' He Hw Hdeq
                    |s w t ev He Hw Hproc]; (split; simpl).
  - left. by eapply Htl.
  - destruct Hinit as [Hnin| ->].
    { exfalso. apply Hnin. rewrite Htodo. by left. }
    simpl in Htodo. exists [], (pending r). split_and!; [|by rewrite Htodo|done].
    apply is_queue_init.
  - left. by eapply Htl.
  - exists l, rest. split_and!; [done|done|]. intros _.
    by rewrite (Hrest He), Htodo.
  - left. by eapply Htl.
  - pose proof (enqueue_task_spec malloc Hfresh (queue s) l t Hq) as Hspec.
    destruct (malloc (heap (queue s))); [|congruence].
    destruct Hspec as (st' & Henq' & Hq').
    assert (st' = q') as -> by congruence.
    exists (l ++ [t]), (pending r). split_and!; [done| |done].
    rewrite <-Heq, (Hrest He), Htodo.
    change (pending (Enqueue t :: r)) with (t :: pending r).
    by rewrite <-!app_assoc.
  - left. apply not_elem_of_nil.
  - exists l, rest. split_and!; [done|done|]. by intros [=].
  - left. by eapply Htl.
  - exists l, rest. rewrite all_dequeued_snoc, app_nil_r.
    split_and!; [done|done|]. intros _. by rewrite (Hrest He), Htodo.
  - left. apply not_elem_of_nil.
  - exists l, rest. split_and!; [done|done|]. by intros [=].
  - left. by eapply Hworker.
  - exists l, rest. split_and!; [done|done|]. intros _. by apply Hrest.
  - left. by eapply Hworker.
  - pose proof (dequeue_task_spec (queue s) l Hq) as Hspec.
    destruct l as [|t0 l']; [congruence|].
    destruct Hspec as (st' & Hd & Hq'). rewrite Hdeq in Hd.
    injection Hd as -> ->.
    exists l', rest. rewrite all_dequeued_snoc.
    split_and!; [done| |intros _; by apply Hrest].
    rewrite <-Heq. by rewrite <-app_assoc.
  - left. by eapply Hworker.
  - pose proof (dequeue_task_spec (queue s) l Hq) as Hspec.
    destruct l as [|t0 l']; [congruence|].
    destruct Hspec as (st' & Hd & Hq'). rewrite Hdeq in Hd.
    injection Hd as -> ->.
    exists l', rest. rewrite all_dequeued_snoc.
    split_and!; [done| |intros _; by apply Hrest].
    rewrite <-Heq. by rewrite <-app_assoc.
  - left. by eapply Hworker.
  - rewrite process_line in Hproc. injection Hproc as <-.
    exists l, rest. rewrite all_dequeued_snoc, app_nil_r.
    split_and!; [done|done|]. intros _. by apply Hrest.
Qed.

Lemma report_inv_initial : report_inv (initial acts).
Proof. split_and!; [done|done|]. intros w. done. Qed.

(** A worker that holds no task takes entry [t] from the queue. *)
Lemma report_inv_dequeue s w x t :
  workers s !! w = Some x → in_progress x = None → is_terminated x = false →
  report_inv s →
  report_inv {| todo := todo s; queue := queue s;
                workers := <[w := after_dequeue t]> (workers s);
                log := log s ++ [Dequeued w t]; exited := None |}.
Proof.
  intros Hw Hx Hxt (Hsent & Hperm & Hby). split_and!; simpl.
  - rewrite all_dequeued_snoc, tally_app, tally_cons.
    change (tally is_sentinel []) with 0.
    pose proof (tally_insert is_terminated _ w x (after_dequeue t) Hw) as Hi.
    rewrite is_terminated_after_dequeue, Hxt in Hi. lia.
  - rewrite all_dequeued_snoc, texts_snoc, app_nil_r, tasks_of_app, fmap_app.
    pose proof (in_progress_insert _ w x (after_dequeue t) Hw) as Hp.
    rewrite in_progress_after_dequeue, Hx in Hp. simpl in Hp.
    rewrite Hp, fmap_app, <-Hperm, <-app_assoc.
    apply Permutation_app_head, Permutation_app_comm.
  - intros w'. rewrite printed_by_snoc, dequeued_by_snoc, app_nil_r.
    rewrite (lookup_insert_in_progress _ w x _ w' Hw).
    destruct (decide (w' = w)) as [->|Hne].
    + rewrite decide_True by done. rewrite in_progress_after_dequeue.
      rewrite tasks_of_app, fmap_app, <-(Hby w), Hw. simpl.
      by rewrite Hx, app_nil_r.
    + rewrite decide_False by done. rewrite app_nil_r. apply Hby.
Qed.

Lemma report_inv_step s lbl s' :
  report_inv s → step malloc s lbl s' → report_inv s'.
Proof.
  intros Hinv Hstep.
  destruct Hstep as [s r He Htodo|s i r He Htodo|s t r q' ws' He Htodo Henq Hsig
                    |s t r c He Htodo Henq|s i r He Htodo Hterm|s c r He Htodo
                    |s w He Hw Hdeq|s w t q' He Hw Hdeq|s w t q' He Hw Hdeq
                    |s w t ev He Hw Hproc].
  - exact Hinv.
  - destruct Hinv as (Hsent & Hperm & Hby). split_and!; simpl.
    + rewrite tally_app. change (tally is_terminated [Ready]) with 0. lia.
    + rewrite omap_app. simpl. by rewrite app_nil_r.
    + intros w. rewrite lookup_snoc_in_progress. apply Hby.
  - destruct Hinv as (Hsent & Hperm & Hby). destruct Hsig as [Hall _].
    split_and!; simpl.
    + by rewrite (wakes_tally_terminated _ _ Hall).
    + by rewrite (wakes_in_progress _ _ Hall).
    + intros w. rewrite (wakes_lookup_in_progress _ _ w Hall). apply Hby.
  - exact Hinv.
  - destruct Hinv as (Hsent & Hperm & Hby). split_and!; simpl.
    + by rewrite all_dequeued_snoc, app_nil_r.
    + by rewrite all_dequeued_snoc, texts_snoc, !app_nil_r.
    + intros w. rewrite printed_by_snoc, dequeued_by_snoc, !app_nil_r. apply Hby.
  - exact Hinv.
  - destruct Hinv as (Hsent & Hperm & Hby). split_and!; simpl.
    + pose proof (tally_insert is_terminated _ w Ready Waiting Hw) as Hi.
      simpl in Hi. lia.
    + pose proof (in_progress_insert _ w Ready Waiting Hw) as Hp.
      simpl in Hp. by rewrite Hp.
    + intros w'. rewrite (lookup_insert_in_progress _ w Ready _ w' Hw).
      destruct (decide (w' = w)) as [->|Hne]; [|apply Hby].
      specialize (Hby w). by rewrite Hw in Hby.
  - by apply (report_inv_dequeue s w Ready t).
  - by apply (report_inv_dequeue s w Waiting t).
  - rewrite process_line in Hproc. injection Hproc as <-.
    destruct Hinv as (Hsent & Hperm & Hby). split_and!; simpl.
    + rewrite all_dequeued_snoc, app_nil_r.
      pose proof (tally_insert is_terminated _ w (Processing t) Ready Hw) as Hi.
      simpl in Hi. lia.
    + rewrite all_dequeued_snoc, texts_snoc, app_nil_r.
      pose proof (in_progress_insert _ w (Processing t) Ready Hw) as Hp.
      simpl in Hp. rewrite <-Hperm, <-Hp. simpl. by rewrite <-app_assoc.
    + intros w'. rewrite printed_by_snoc, dequeued_by_snoc, app_nil_r.
      rewrite (lookup_insert_in_progress _ w (Processing t) _ w' Hw).
      destruct (decide (w' = w)) as [->|Hne].
      * rewrite decide_True by done. simpl. rewrite app_nil_r.
        specialize (Hby w). by rewrite Hw in Hby.
      * rewrite decide_False by done. rewrite app_nil_r. apply Hby.
Qed.

Lemma log_invs_reach s :
  reaches malloc (initial acts) s → fifo_inv acts s ∧ report_inv s.
Proof.
  induction 1 as [|s l s' _ [IH1 IH2] Hstep].
  - split; [apply fifo_inv_initial|apply report_inv_initial].
  - split; [by eapply fifo_inv_step|by eapply report_inv_step].
Qed.
End LogInvariant.
(** *** The queue is initialised once *)

Lemma pool_run_init_once N ts c : Init_queue ∉ drop 1 (pool_run N ts c).
Proof.
  unfold pool_run, shutdown. cbn [drop]; rewrite drop_0. rewrite !not_elem_of_app. split_and!.
  - by intros (? & ? & _)%list_elem_of_fmap.
  - by intros (? & ? & _)%list_elem_of_fmap.
  - by intros [? _]%elem_of_replicate.
  - by intros (? & ? & _)%list_elem_of_fmap.
  - by intros ?%list_elem_of_singleton.
Qed.

Lemma submit_init_free env N n : ∀ i, Init_queue ∉ submit env N i n.
Proof.
  assert (∀ c, Init_queue ∉ shutdown N ++ [Exit_process c]) as Hshut.
  { intros c. unfold shutdown. rewrite !not_elem_of_app. split_and!.
    - by intros [? _]%elem_of_replicate.
    - by intros (? & ? & _)%list_elem_of_fmap.
    - by intros ?%list_elem_of_singleton. }
  induction n as [|n IH]; intros i; simpl; [apply Hshut|].
  destruct (read_board_from_stdin env i); [|apply Hshut].
  destruct (task_malloc env i).
  - apply not_elem_of_cons. split; [done|]. case_decide; [|apply IH].
    by intros ?%list_elem_of_singleton.
  - by intros ?%list_elem_of_singleton.
Qed.

Lemma create_workers_init_free env n k : ∀ i,
  Init_queue ∉ k → Init_queue ∉ create_workers env i n k.
Proof.
  induction n as [|n IH]; intros i Hk; simpl; [done|].
  destruct (pthread_create env i).
  - apply not_elem_of_cons. split; [done|by apply IH].
  - by intros ?%list_elem_of_singleton.
Qed.

Lemma main_init_once env : Init_queue ∉ drop 1 (main env).
Proof.
  unfold main. cbn [drop]; rewrite drop_0. destruct (workers_malloc env).
  - apply create_workers_init_free. destruct (read_board_count env).
    + apply submit_init_free.
    + by intros ?%list_elem_of_singleton.
  - by intros ?%list_elem_of_singleton.
Qed.

Lemma pending_setup_failure m c :
  pending (Init_queue :: (Create <$> seq 0 m) ++ [Exit_process c]) = [].
Proof.
  change (pending (Init_queue :: ?l)) with (pending l). rewrite pending_app.
  assert (∀ l, pending (Create <$> l) = []) as -> by (by induction l).
  done.
Qed.

(** *** Two states of the run with one worker and one board *)

Lemma one_worker_busy_reached :
  reaches malloc_next (initial (main one_worker_env)) one_worker_busy.
Proof.
  assert (signalled [Ready] [Ready]) as Hsig.
  { split; [by repeat constructor|]. intros H.
    repeat (apply elem_of_cons in H as [?|H]; [done|]). by apply elem_of_nil in H. }
  eapply reaches_prepend; [by eapply step_init|].
  eapply reaches_prepend; [by eapply step_create|].
  eapply reaches_prepend.
  { eapply (step_enqueue _ _ _ _ _ [Ready]); [done|reflexivity|by vm_compute|done]. }
  eapply reaches_prepend.
  { eapply (step_dequeue _ _ 0); [done|reflexivity|by vm_compute]. }
  apply reaches_refl.
Qed.

Lemma one_worker_final_reached :
  reaches malloc_next
    (initial (pool_run 1 [{| id := 1; task_board := solved |}] 0))
    one_worker_final.
Proof.
  assert (signalled [Ready] [Ready]) as Hsig.
  { split; [by repeat constructor|]. intros H.
    repeat (apply elem_of_cons in H as [?|H]; [done|]). by apply elem_of_nil in H. }
  eapply reaches_prepend; [by eapply step_init|].
  eapply reaches_prepend; [by eapply step_create|].
  eapply reaches_prepend.
  { eapply (step_enqueue _ _ _ _ _ [Ready]); [done|reflexivity|by vm_compute|done]. }
  eapply reaches_prepend.
  { eapply (step_dequeue _ _ 0); [done|reflexivity|by vm_compute]. }
  eapply reaches_prepend.
  { eapply (step_process _ _ 0); [done|reflexivity|by vm_compute]. }
  eapply reaches_prepend.
  { eapply (step_enqueue _ _ _ _ _ [Ready]); [done|reflexivity|by vm_compute|done]. }
  eapply reaches_prepend.
  { eapply (step_dequeue _ _ 0); [done|reflexivity|by vm_compute]. }
  eapply reaches_prepend; [by eapply step_join|].
  eapply reaches_prepend; [by eapply step_exit|].
  apply reaches_refl.
Qed.

Lemma starved_reached :
  reaches malloc_next (initial (main (create_fails_env 2))) starved.
Proof.
  eapply reaches_prepend; [by eapply step_init|].
  eapply reaches_prepend; [by eapply step_create|].
  eapply reaches_prepend; [by eapply step_create|].
  eapply reaches_prepend.
  { eapply (step_wait _ _ 0); [done|reflexivity|by vm_compute]. }
  apply reaches_refl.
Qed.

Lemma enqueue_task_exit malloc q t c :
  enqueue_task malloc q t = Exit c → c = 1%Z.
Proof.
  unfold enqueue_task. destruct (malloc (heap q)) as [node|]; [|congruence].
  destruct (tail q) as [tl|]; [|done]. by destruct (_ !! tl).
Qed.

(** What is left for [main] to do is the end of its action list, and the
    process ends with status 1 inside [enqueue_task] or with a status that
    [main] returns. *)
Lemma exit_status_inv malloc acts s :
  reaches malloc (initial acts) s →
  (exited s = None → ∃ before, acts = before ++ todo s)
  ∧ (∀ c, exited s = Some c → c = 1%Z ∨ Exit_process c ∈ acts).
Proof.
  induction 1 as [|s l s' _ [IH1 IH2] Hstep].
  { split; [intros _; by exists []|done]. }
  assert (∀ a rest, exited s = None → todo s = a :: rest →
            ∃ before, acts = before ++ rest ∧ a ∈ acts) as Hpop.
  { intros a rest He Htodo. destruct (IH1 He) as [before ->].
    exists (before ++ [a]). rewrite Htodo, <-app_assoc. split; [done|].
    apply elem_of_app. right. by left. }
  destruct Hstep as [s r He Htodo|s i r He Htodo|s t r q' ws' He Htodo Henq Hsig
                    |s t r c He Htodo Henq|s i r He Htodo Hterm|s c r He Htodo
                    |s w He Hw Hdeq|s w t q' He Hw Hdeq|s w t q' He Hw Hdeq
                    |s w t ev He Hw Hproc]; simpl.
  - destruct (Hpop _ _ He Htodo) as (before & -> & _). split; [by eexists|done].
  - destruct (Hpop _ _ He Htodo) as (before & -> & _). split; [by eexists|done].
  - destruct (Hpop _ _ He Htodo) as (before & -> & _). split; [by eexists|done].
  - split; [done|]. intros c' [= <-]. left. by eapply enqueue_task_exit.
  - destruct (Hpop _ _ He Htodo) as (before & -> & _). split; [by eexists|done].
  - destruct (Hpop _ _ He Htodo) as (before & _ & Hin).
    split; [done|]. intros c' [= <-]. by right.
  - split; [intros _; by apply IH1|done].
  - split; [intros _; by apply IH1|done].
  - split; [intros _; by apply IH1|done].
  - split; [intros _; by apply IH1|done].
Qed.

(** X6.  A run of [main] ends the process with status 0 or 1.  The status is
    0 only if nothing [main] depends on failed: the workers array and all
    workers were created, the count and every board were read, every task was
    allocated and the count is below [INT_MAX].  The converse needs the
    allocation inside [enqueue_task], which ends the process with status 1
    when it fails: when nothing of the above fails and [enqueue_task] always
    gets its node, the status of a run that has ended is 0. *)
Theorem main_exit_status (malloc : node_heap → ptr) (env : environment)
    (s : system) (c : Z) :
  reaches malloc (initial (main env)) s → exited s = Some c →
  (c = 0%Z ∨ c = 1%Z)
  ∧ (c = 0%Z → run_succeeds env)
  ∧ (malloc_fresh malloc → malloc_total malloc → run_succeeds env → c = 0%Z).
Proof.
  intros Hreach He.
  destruct (main_last_action env) as (pre & a & Hmain & Hpre & Ha).
  assert (c = 1%Z ∨ (c = 0%Z ∧ run_succeeds env)) as Hc.
  { destruct (exit_status_inv malloc _ s Hreach) as [_ Hexit].
    destruct (Hexit c He) as [?|Hin]; [by left|].
    rewrite Hmain in Hin. apply elem_of_app in Hin as [Hin|Hin].
    - rewrite Forall_forall in Hpre. by specialize (Hpre _ Hin).
    - apply list_elem_of_singleton in Hin as <-.
      destruct Ha as [[[= ->] ?]|[[[= ->]|?] _]]; [by right|by left|done]. }
  split_and!.
  - destruct Hc as [?|[? _]]; [by right|by left].
  - intros ->. by destruct Hc as [?|[_ ?]].
  - intros Hfresh Htotal (Hw & Hcreate & count & Hcount & Hmax & Hok).
    rewrite (main_ok env count) in Hreach by done.
    pose proof (pool_inv_reaches malloc Hfresh Htotal _ _ _ s Hreach) as Hinv.
    destruct Hinv as [->|[(He' & _)|(He' & _)]]; simpl in *; congruence.
Qed.

Lemma main_exit_status_witness :
  (0%Z = 0%Z ∨ 0%Z = 1%Z)
  ∧ (0%Z = 0%Z → run_succeeds one_worker_env)
  ∧ (malloc_fresh malloc_next → malloc_total malloc_next →
     run_succeeds one_worker_env → 0%Z = 0%Z).
Proof.
  apply (main_exit_status malloc_next one_worker_env one_worker_final 0).
  - exact one_worker_final_reached.
  - reflexivity.
Defined.

(** What a run of the shutdown protocol with at least one worker leaves
    behind when it has ended. *)
Lemma pool_run_reports_each_task (malloc : node_heap → ptr) (N : nat)
    (tasks : list board_task_t) (code c : Z) (s : system) :
  malloc_fresh malloc → malloc_total malloc → 0 < N →
  reaches malloc (initial (pool_run N tasks code)) s →
  exited s = Some c →
  c = code
  ∧ all_dequeued (log s) = (Some <$> tasks) ++ replicate N None
  ∧ is_queue (queue s) []
  ∧ texts (log s) ≡ₚ line <$> tasks
  ∧ ∀ w, printed_by w (log s) = line <$> tasks_of (dequeued_by w (log s)).
Proof.
  intros Hfresh Htotal HN Hreach He.
  destruct (log_invs_reach malloc Hfresh _ (pool_run_init_once N tasks code)
              s Hreach)
    as [(_ & l & rest & Hq & Heq & _) (Hsent & Hperm & Hby)].
  rewrite pending_pool_run in Heq.
  pose proof (pool_inv_reaches malloc Hfresh Htotal N tasks code s Hreach) as Hinv.
  destruct Hinv as [->|[(He' & _)|(He' & _ & Hlen & Hterm & _)]];
    [simpl in He; congruence|congruence|].
  pose proof (all_terminated (workers s) N Hlen Hterm) as Hws.
  assert (tally is_sentinel (all_dequeued (log s)) = N) as Hall.
  { rewrite Hsent, Hws. clear. induction N as [|n IH]; [done|].
    simpl. rewrite tally_cons, IH. done. }
  assert (l ++ rest = []) as [-> ->]%app_eq_nil.
  { apply (sentinel_is_last (all_dequeued (log s)) _ tasks N HN Heq).
    apply (f_equal (tally is_sentinel)) in Heq.
    rewrite !tally_app, tally_tasks, tally_sentinels in Heq.
    rewrite tally_app. lia. }
  rewrite !app_nil_r in Heq.
  assert (omap in_progress (workers s) = []) as Hnone.
  { rewrite Hws. clear. by induction N. }
  split_and!; [congruence|done|done| |].
  - rewrite Hnone, app_nil_r in Hperm. rewrite Hperm, Heq.
    by rewrite tasks_of_app, tasks_of_tasks, tasks_of_sentinels, app_nil_r.
  - intros w. rewrite <-Hby.
    assert (workers s !! w ≫= in_progress = None) as ->; [|by rewrite app_nil_r].
    rewrite Hws. destruct (replicate N Terminated !! w) as [x|] eqn:Hx; [|done].
    by apply lookup_replicate in Hx as [-> _].
Qed.

(** [worker_count] stays 4 unless the argument is positive. *)
Lemma worker_count_pos env : 0 < worker_count env.
Proof.
  unfold worker_count. destruct (argv1 env) as [n|]; [|lia].
  destruct (0 <? n)%Z eqn:Hn; [|lia]. apply Z.ltb_lt in Hn. lia.
Qed.

(** X10.  When a run of [main] that reaches the shutdown protocol (all
    boards read, or a board not read) has ended, allocation in the queue not
    failing: the exit status is the one [main] returns; the entries dequeued
    are, in this order, the tasks as submitted and then one [NULL] per
    worker; the queue is empty; the lines printed are, up to their order, the
    verdict lines of the submitted tasks, one for each; and each worker has
    printed the lines of the tasks it dequeued, in the order in which it
    dequeued them. *)
Theorem every_board_is_reported_once (malloc : node_heap → ptr)
    (env : environment) (tasks : list board_task_t) (code c : Z) (s : system) :
  malloc_fresh malloc → malloc_total malloc →
  main env = pool_run (worker_count env) tasks code →
  reaches malloc (initial (main env)) s →
  exited s = Some c →
  c = code
  ∧ all_dequeued (log s) = (Some <$> tasks) ++ replicate (worker_count env) None
  ∧ is_queue (queue s) []
  ∧ texts (log s) ≡ₚ line <$> tasks
  ∧ ∀ w, printed_by w (log s) = line <$> tasks_of (dequeued_by w (log s)).
Proof.
  intros Hfresh Htotal Hmain Hreach He. rewrite Hmain in Hreach.
  by apply (pool_run_reports_each_task malloc (worker_count env) tasks code c s
              Hfresh Htotal (worker_count_pos env)).
Qed.

Lemma every_board_is_reported_once_witness :
  0%Z = 0%Z
  ∧ all_dequeued (log one_worker_final)
    = (Some <$> [{| id := 1; task_board := solved |}])
        ++ replicate (worker_count one_worker_env) None
  ∧ is_queue (queue one_worker_final) []
  ∧ texts (log one_worker_final)
    ≡ₚ line <$> [{| id := 1; task_board := solved |}]
  ∧ ∀ w, printed_by w (log one_worker_final)
         = line <$> tasks_of (dequeued_by w (log one_worker_final)).
Proof.
  apply (every_board_is_reported_once malloc_next one_worker_env
           [{| id := 1; task_board := solved |}] 0 0 one_worker_final).
  - exact malloc_next_fresh.
  - exact malloc_next_total.
  - reflexivity.
  - exact one_worker_final_reached.
  - reflexivity.
Defined.

(** X11.  In every state of every run of [main], whatever fails and however
    the workers are scheduled: the tasks dequeued so far are the first of the
    tasks [main] enqueues, in the same order; the lines printed so far and
    the lines of the tasks the workers hold are, up to their order, the lines
    of the tasks dequeued, one for each; as many workers have terminated as
    [NULL]s were dequeued; and each worker has printed, in order, the lines
    of the tasks it dequeued, but for the one it holds. *)
Theorem boards_are_dequeued_in_order (malloc : node_heap → ptr)
    (env : environment) (s : system) :
  malloc_fresh malloc →
  reaches malloc (initial (main env)) s →
  tasks_of (all_dequeued (log s)) `prefix_of` enqueued_tasks (main env)
  ∧ texts (log s) ++ (line <$> omap in_progress (workers s))
    ≡ₚ line <$> tasks_of (all_dequeued (log s))
  ∧ tally is_sentinel (all_dequeued (log s)) = tally is_terminated (workers s)
  ∧ ∀ w, printed_by w (log s)
         ++ (line <$> option_list (workers s !! w ≫= in_progress))
         = line <$> tasks_of (dequeued_by w (log s)).
Proof.
  intros Hfresh Hreach.
  destruct (log_invs_reach malloc Hfresh _ (main_init_once env) s Hreach)
    as [(_ & l & rest & Hq & Heq & _) (Hsent & Hperm & Hby)].
  split_and!; [|done..].
  rewrite <-tasks_of_pending, <-Heq, tasks_of_app. by eexists.
Qed.

Lemma boards_are_dequeued_in_order_witness :
  tasks_of (all_dequeued (log one_worker_busy))
    `prefix_of` enqueued_tasks (main one_worker_env)
  ∧ texts (log one_worker_busy)
      ++ (line <$> omap in_progress (workers one_worker_busy))
    ≡ₚ line <$> tasks_of (all_dequeued (log one_worker_busy))
  ∧ tally is_sentinel (all_dequeued (log one_worker_busy))
    = tally is_terminated (workers one_worker_busy)
  ∧ ∀ w, printed_by w (log one_worker_busy)
         ++ (line <$> option_list (workers one_worker_busy !! w ≫= in_progress))
         = line <$> tasks_of (dequeued_by w (log one_worker_busy)).
Proof.
  apply (boards_are_dequeued_in_order malloc_next one_worker_env one_worker_busy).
  - exact malloc_next_fresh.
  - exact one_worker_busy_reached.
Defined.

(** X12.  When the set-up of [main] fails, the workers created so far never
    get anything from the queue: in every state of the run nothing has been
    dequeued or printed and every worker is still in its loop, about to test
    the queue or waiting on the condition variable. *)
Theorem setup_failure_starves_workers (malloc : node_heap → ptr)
    (env : environment) (s : system) :
  malloc_fresh malloc → setup_fails env →
  reaches malloc (initial (main env)) s →
  all_dequeued (log s) = [] ∧ texts (log s) = []
  ∧ ∀ w x, workers s !! w = Some x → x = Ready ∨ x = Waiting.
Proof.
  intros Hfresh Hfails Hreach.
  destruct (log_invs_reach malloc Hfresh _ (main_init_once env) s Hreach)
    as [(_ & l & rest & Hq & Heq & _) (Hsent & Hperm & Hby)].
  assert (pending (main env) = []) as Hnone.
  { destruct (main_cases env)
      as [[Hw ->]|[(Hw & m & Hm & Hall & Hfail & ->)|[(Hw & Hall & Hcount & ->)
         |(Hw & Hall & count & Hcount & _)]]].
    - done.
    - apply pending_setup_failure.
    - apply pending_setup_failure.
    - destruct Hfails as [?|[(j & Hj & Hfail)|?]]; [congruence| |congruence].
      rewrite Hall in Hfail; done. }
  rewrite Hnone in Heq. apply app_eq_nil in Heq as [Hdeq _].
  rewrite Hdeq in Hsent, Hperm. simpl in Hperm.
  apply Permutation_nil_r, app_eq_nil in Hperm as [Htexts Hprog].
  split_and!; [done|done|].
  intros w x Hw.
  change (tally is_sentinel []) with 0 in Hsent. symmetry in Hsent.
  pose proof (tally_zero is_terminated _ w x Hsent Hw) as Hx.
  destruct x as [| |t|]; [by left|by right| |done].
  exfalso. apply fmap_nil_inv in Hprog.
  assert (t ∈ omap in_progress (workers s)) as Hin.
  { apply list_elem_of_omap. exists (Processing t). split; [|done].
    by eapply list_elem_of_lookup_2. }
  rewrite Hprog in Hin. by apply elem_of_nil in Hin.
Qed.

Lemma setup_failure_starves_workers_witness :
  all_dequeued (log starved) = []
  ∧ texts (log starved) = []
  ∧ ∀ w x, workers starved !! w = Some x → x = Ready ∨ x = Waiting.
Proof.
  apply (setup_failure_starves_workers malloc_next (create_fails_env 2)).
  - exact malloc_next_fresh.
  - right. left. exists 2. split; [by vm_compute|reflexivity].
  - exact starved_reached.
Defined.

(** ** Input parsing *)

Import Stdlib.Strings.Ascii.
Import Input.

(** *** Strings *)

Lemma string_app_cons c s t : String c s +:+ t = String c (s +:+ t).
Proof. reflexivity. Qed.

Lemma string_app_nil_r s : s +:+ "" = s.
Proof. induction s as [|c s IH]; [done|]. by rewrite string_app_cons, IH. Qed.

Lemma string_app_assoc s t u : (s +:+ t) +:+ u = s +:+ t +:+ u.
Proof. induction s as [|c s IH]; [done|]. by rewrite !string_app_cons, IH. Qed.

Lemma all_chars_app P s t :
  all_chars P (s +:+ t) = all_chars P s && all_chars P t.
Proof.
  induction s as [|c s IH]; [done|]. rewrite string_app_cons. simpl.
  by rewrite IH, andb_assoc.
Qed.

Lemma all_chars_impl (P Q : ascii → bool) s :
  (∀ c, P c = true → Q c = true) → all_chars P s = true → all_chars Q s = true.
Proof.
  intros HPQ. induction s as [|c s IH]; [done|]. simpl.
  intros [Hc Hs]%andb_true_iff. by rewrite (HPQ c Hc), IH.
Qed.

(** *** Characters *)

Lemma digit_char c d :
  digit_of c = Some d →
  isspace c = false ∧ is_delim c = false ∧ c ≠ "-"%char ∧ c ≠ "+"%char
  ∧ is_text_char c = true ∧ is_numeral_char c = true.
Proof.
  unfold digit_of. case_decide as Hc; [|done]. intros _.
  split_and!.
  - apply bool_decide_eq_false_2. lia.
  - apply bool_decide_eq_false_2. intros [-> | ->]; vm_compute in Hc; lia.
  - intros ->. vm_compute in Hc; lia.
  - intros ->. vm_compute in Hc; lia.
  - apply bool_decide_eq_true_2. split; intros ->; vm_compute in Hc; lia.
  - apply bool_decide_eq_true_2. left. unfold digit_of. by rewrite decide_True.
Qed.

Lemma numeral_char c :
  is_numeral_char c = true → is_delim c = false ∧ is_text_char c = true.
Proof.
  intros [[d Hd]| ->]%bool_decide_eq_true_1; [|done].
  by destruct (digit_char c d Hd) as (_ & ? & _ & _ & ? & _).
Qed.

Lemma pretty_N_char_digit x :
  (x < 10)%N → digit_of (pretty_N_char x) = Some (Z.of_N x).
Proof.
  intros Hx.
  assert (x = 0 ∨ x = 1 ∨ x = 2 ∨ x = 3 ∨ x = 4 ∨ x = 5 ∨ x = 6 ∨ x = 7
          ∨ x = 8 ∨ x = 9)%N as H by lia.
  repeat (destruct H as [->|H]; [done|]). by subst.
Qed.

(** *** What [%d] prints *)

Lemma digits_pretty_N_go x : ∀ s,
  digits 0 (pretty_N_go x s) = digits (Z.of_N x) s.
Proof.
  induction (N.lt_wf_0 x) as [x _ IH]; intros s.
  destruct (decide (x = 0%N)) as [->|Hx]; [by rewrite pretty_N_go_0|].
  rewrite pretty_N_go_step by lia. rewrite IH by (apply N.div_lt; lia).
  simpl. rewrite pretty_N_char_digit by (apply N.mod_lt; lia).
  f_equal. rewrite (N.div_mod x 10) at 3 by lia. lia.
Qed.

Lemma pretty_N_go_app x : ∀ s t,
  pretty_N_go x s +:+ t = pretty_N_go x (s +:+ t).
Proof.
  induction (N.lt_wf_0 x) as [x _ IH]; intros s t.
  destruct (decide (x = 0%N)) as [->|Hx]; [by rewrite !pretty_N_go_0|].
  rewrite (pretty_N_go_step x s), (pretty_N_go_step x (s +:+ t)) by lia.
  by rewrite IH by (apply N.div_lt; lia).
Qed.

Lemma pretty_N_go_head x : ∀ s,
  (0 < x)%N → ∃ c r, pretty_N_go x s = String c r ∧ is_Some (digit_of c).
Proof.
  induction (N.lt_wf_0 x) as [x _ IH]; intros s Hx.
  rewrite pretty_N_go_step by lia.
  destruct (decide (x `div` 10 = 0)%N) as [->|Hd].
  - rewrite pretty_N_go_0. eexists _, _. split; [done|].
    rewrite pretty_N_char_digit by (apply N.mod_lt; lia). by eexists.
  - apply IH; [apply N.div_lt; lia|]. by apply N.neq_0_lt_0.
Qed.

Lemma pretty_N_go_numeral x : ∀ s,
  all_chars is_numeral_char s = true →
  all_chars is_numeral_char (pretty_N_go x s) = true.
Proof.
  induction (N.lt_wf_0 x) as [x _ IH]; intros s Hs.
  destruct (decide (x = 0%N)) as [->|Hx]; [by rewrite pretty_N_go_0|].
  rewrite pretty_N_go_step by lia. apply IH; [apply N.div_lt; lia|].
  simpl. rewrite Hs, andb_true_r.
  assert (x `mod` 10 < 10)%N as Hm by (apply N.mod_lt; lia).
  by destruct (digit_char _ _ (pretty_N_char_digit _ Hm)) as (_ & _ & _ & _ & _ & ?).
Qed.

(** The three forms of a printed [Z]. *)
Lemma pretty_Z_cases (z : Z) :
  ∃ neg c r m,
    pretty z = (if neg : bool then "-" else "") +:+ String c r
    ∧ is_Some (digit_of c)
    ∧ digits 0 (String c r) = (m, "")
    ∧ z = (if neg then - m else m)%Z.
Proof.
  assert (∀ p, ∃ c r, pretty (N.pos p) = String c r ∧ is_Some (digit_of c)
                      ∧ digits 0 (String c r) = (Z.pos p, "")) as Hpos.
  { intros p. unfold pretty, pretty_N. rewrite decide_False by done.
    destruct (pretty_N_go_head (N.pos p) "") as (c & r & Heq & Hc); [lia|].
    exists c, r. split_and!; [done|done|].
    rewrite <-Heq, digits_pretty_N_go. done. }
  destruct z as [|p|p].
  - exists false, "0"%char, "", 0%Z. by split_and!.
  - destruct (Hpos p) as (c & r & Heq & Hc & Hd).
    exists false, c, r, (Z.pos p). by split_and!.
  - destruct (Hpos p) as (c & r & Heq & Hc & Hd).
    exists true, c, r, (Z.pos p). split_and!; try done.
    change (pretty (Z.neg p)) with ("-" +:+ pretty (N.pos p)). by rewrite Heq.
Qed.

Lemma pretty_Z_numeral (z : Z) : all_chars is_numeral_char (pretty z) = true.
Proof.
  assert (∀ p, all_chars is_numeral_char (pretty (N.pos p)) = true) as Hpos.
  { intros p. unfold pretty, pretty_N. rewrite decide_False by done.
    by apply pretty_N_go_numeral. }
  destruct z as [|p|p]; [done|apply Hpos|].
  change (pretty (Z.neg p)) with ("-" +:+ pretty (N.pos p)).
  rewrite all_chars_app, Hpos. done.
Qed.

Lemma pretty_Z_nonempty (z : Z) : pretty z ≠ "".
Proof.
  destruct (pretty_Z_cases z) as (neg & c & r & m & -> & _). by destruct neg.
Qed.

(** *** [strtol] on what [%d] prints *)

Lemma strtol_pretty long_bits (z : Z) :
  strtol long_bits (pretty z)
  = {| value := LONG_MIN long_bits `max` (z `min` LONG_MAX long_bits);
       endptr := "";
       converted := true;
       erange :=
         bool_decide (z < LONG_MIN long_bits ∨ LONG_MAX long_bits < z)%Z |}.
Proof.
  destruct (pretty_Z_cases z) as (neg & c & r & m & -> & [d Hc] & Hd & ->).
  destruct (digit_char c d Hc) as (Hsp & _ & Hminus & Hplus & _).
  unfold strtol. destruct neg.
  - change ("-" +:+ String c r) with (String "-" (String c r)).
    cbn [skip_space]. change (isspace "-") with false. cbv iota.
    rewrite decide_True by done. rewrite Hc, Hd. done.
  - change ("" +:+ String c r) with (String c r).
    cbn [skip_space]. rewrite Hsp.
    rewrite decide_False by done. rewrite decide_False by done.
    rewrite Hc, Hd. done.
Qed.

Lemma long_holds_int long_bits (z : Z) :
  32 ≤ long_bits → Ints.is_int z →
  (LONG_MIN long_bits ≤ z ≤ LONG_MAX long_bits)%Z.
Proof.
  intros Hbits Hz. unfold Ints.is_int in Hz. unfold LONG_MIN, LONG_MAX.
  assert (2 ^ 31 ≤ 2 ^ (Z.of_nat long_bits - 1))%Z
    by (apply Z.pow_le_mono_r; lia).
  lia.
Qed.

Lemma to_int_is_int (v : Z) : Ints.is_int (to_int v).
Proof.
  unfold Ints.is_int, to_int.
  pose proof (Z.mod_pos_bound (v + 2 ^ 31) (2 ^ 32)). lia.
Qed.

Lemma to_int_id (v : Z) : Ints.is_int v → to_int v = v.
Proof.
  unfold Ints.is_int, to_int. intros Hv.
  rewrite Z.mod_small by lia. lia.
Qed.
(** *** [strtok] on numbers separated by blanks *)

Lemma token_numeral t :
  all_chars is_numeral_char t = true →
  token t = (t, "")
  ∧ ∀ d rest, is_delim d = true → token (t +:+ String d rest) = (t, rest).
Proof.
  induction t as [|c t IH]; intros Ht.
  { split; [done|]. intros d rest Hd. simpl.
    change ("" +:+ String d rest) with (String d rest). simpl. by rewrite Hd. }
  simpl in Ht. apply andb_true_iff in Ht as [Hc Ht].
  destruct (numeral_char c Hc) as [Hnd _]. destruct (IH Ht) as [IH1 IH2].
  split.
  - simpl. by rewrite Hnd, IH1.
  - intros d rest Hd. rewrite string_app_cons. simpl.
    by rewrite Hnd, (IH2 d rest Hd).
Qed.

Lemma strtok_numeral (z : Z) tail :
  is_tail tail →
  strtok (pretty z +:+ tail)
  = Some (pretty z, match tail with String _ rest => rest | "" => "" end).
Proof.
  intros Htail. pose proof (pretty_Z_numeral z) as Hnum.
  destruct (token_numeral _ Hnum) as [Htok1 Htok2].
  destruct (pretty z) as [|c t] eqn:Hz; [by destruct (pretty_Z_nonempty z)|].
  simpl in Hnum. apply andb_true_iff in Hnum as [Hc _].
  destruct (numeral_char c Hc) as [Hnd _].
  unfold strtok. rewrite string_app_cons. cbn [skip_delims]. rewrite Hnd.
  rewrite <-string_app_cons.
  destruct Htail as [->|(d & rest & -> & Hd)].
  - by rewrite string_app_nil_r, Htok1.
  - by rewrite (Htok2 d rest Hd).
Qed.

Lemma concat_cons_cons sep (x y : string) l :
  String.concat sep (x :: y :: l) = x +:+ sep +:+ String.concat sep (y :: l).
Proof. reflexivity. Qed.

Section Rows.
Variable long_bits : nat.
Hypothesis Hbits : 32 ≤ long_bits.

Lemma strtol_int (z : Z) :
  Ints.is_int z →
  let r := strtol long_bits (pretty z) in
  negb (converted r) || negb (bool_decide (endptr r = "")) || erange r = false
  ∧ to_int (value r) = z.
Proof.
  intros Hz. pose proof (long_holds_int long_bits z Hbits Hz) as Hlong.
  rewrite strtol_pretty. cbn [converted endptr erange value]. split.
  - rewrite bool_decide_eq_true_2 by done.
    rewrite bool_decide_eq_false_2 by lia. done.
  - rewrite Z.min_l, Z.max_r by lia. by apply to_int_id.
Qed.

Lemma row_loop_numerals : ∀ vals acc tail,
  vals ≠ [] → Forall Ints.is_int vals → is_tail tail →
  row_loop long_bits (length vals)
    (strtok (String.concat " " (pretty <$> vals) +:+ tail)) acc
  = Some (acc ++ vals).
Proof.
  induction vals as [|v vals IH]; intros acc tail Hne Hints Htail; [done|].
  apply Forall_cons in Hints as [Hv Hints].
  destruct (strtol_int v Hv) as [Hok Hval].
  destruct vals as [|v2 vals].
  - change (String.concat " " (pretty <$> [v])) with (pretty v).
    rewrite (strtok_numeral v tail Htail). cbn [length row_loop].
    rewrite Hok, Hval. done.
  - change (pretty <$> v :: v2 :: vals)
      with (pretty v :: pretty v2 :: (pretty <$> vals)).
    rewrite concat_cons_cons, !string_app_assoc.
    change (" " +:+ ?s) with (String " " s).
    rewrite (strtok_numeral v); [|right; by eexists _, _].
    cbn [length row_loop]. rewrite Hok, Hval.
    replace (acc ++ v :: v2 :: vals) with ((acc ++ [v]) ++ v2 :: vals)
      by (by rewrite <-app_assoc).
    by apply (IH (acc ++ [v]) tail).
Qed.

Lemma parse_row_numerals vals tail :
  is_row vals → is_tail tail →
  parse_row long_bits (String.concat " " (pretty <$> vals) +:+ tail) = Some vals.
Proof.
  intros [Hlen Hints] Htail. unfold parse_row.
  replace 9 with (length vals) at 1 by done.
  rewrite row_loop_numerals; [|by destruct vals|done|done].
  simpl. by rewrite decide_True.
Qed.

(** Whatever the loop returns is made of [int]s. *)
Lemma row_loop_ints k : ∀ tok acc vals,
  Forall Ints.is_int acc → row_loop long_bits k tok acc = Some vals →
  Forall Ints.is_int vals.
Proof.
  induction k as [|k IH]; intros tok acc vals Hacc Hloop.
  { destruct tok as [[??]|]; simpl in Hloop; by simplify_eq. }
  destruct tok as [[t saved]|]; simpl in Hloop; [|by simplify_eq].
  destruct (_ || _ || _); [done|].
  eapply IH; [|done]. apply Forall_app. split; [done|].
  apply Forall_singleton, to_int_is_int.
Qed.

Lemma parse_row_is_row line vals :
  parse_row long_bits line = Some vals → is_row vals.
Proof.
  unfold parse_row. destruct (row_loop _ _ _ _) as [vs|] eqn:Hloop; [|done].
  case_decide; [|done]. intros [= <-]. split; [done|].
  by eapply row_loop_ints.
Qed.
End Rows.
(** *** [fgets] and [trim_newline] *)

Lemma read_line_split n : ∀ input buf rest,
  read_line n input = (buf, rest) → input = buf +:+ rest.
Proof.
  induction n as [|n IH]; intros input buf rest Hread.
  { destruct input; simpl in Hread; by simplify_eq. }
  destruct input as [|c input]; simpl in Hread; [by simplify_eq|].
  case_decide; [by simplify_eq|].
  destruct (read_line n input) as [l r] eqn:Hl. simplify_eq.
  rewrite string_app_cons. f_equal. by apply IH.
Qed.

(** A call that returns a line has taken at least one character. *)
Lemma fgets_shrinks size input buf rest :
  2 ≤ size → fgets size input = Some (buf, rest) →
  String.length rest < String.length input.
Proof.
  intros Hsize. unfold fgets. destruct input as [|c input]; [done|].
  destruct (read_line _ _) as [raw r] eqn:Hraw. intros [= <- <-].
  pose proof (read_line_split _ _ _ _ Hraw) as Heq.
  destruct (size - 1) as [|n] eqn:Hn; [lia|]. simpl in Hraw.
  assert (raw ≠ "") as Hne.
  { case_decide; [by simplify_eq|].
    destruct (read_line n input). by simplify_eq. }
  apply (f_equal String.length) in Heq. rewrite string_length_app in Heq.
  destruct raw; [done|]. simpl in *. lia.
Qed.

Lemma read_line_text t : ∀ n rest,
  all_chars is_text_char t = true → String.length t < n →
  read_line n (t +:+ String LF rest) = (t +:+ nl, rest).
Proof.
  induction t as [|c t IH]; intros n rest Ht Hn.
  { destruct n; [simpl in Hn; lia|]. done. }
  simpl in Ht, Hn. apply andb_true_iff in Ht as [Hc Ht].
  apply bool_decide_eq_true_1 in Hc as [Hlf _].
  destruct n as [|n]; [lia|]. rewrite !string_app_cons. simpl.
  rewrite decide_False by done. rewrite (IH n rest) by (done || lia). done.
Qed.

Lemma c_str_text t :
  all_chars is_text_char t = true → c_str (t +:+ nl) = t +:+ nl.
Proof.
  induction t as [|c t IH]; [done|]. rewrite string_app_cons. simpl.
  intros [Hc Ht]%andb_true_iff. apply bool_decide_eq_true_1 in Hc as [_ Hnul].
  rewrite decide_False by done. by rewrite IH.
Qed.

Lemma fgets_text size t rest :
  all_chars is_text_char t = true → String.length t < size - 1 →
  fgets size (t +:+ nl +:+ rest) = Some (t +:+ nl, rest).
Proof.
  intros Ht Hlen. unfold fgets.
  change (nl +:+ rest) with (String LF rest).
  rewrite (read_line_text t _ rest Ht Hlen).
  rewrite (c_str_text t Ht). by destruct t.
Qed.

Lemma trim_newline_line t : trim_newline (t +:+ nl) = t.
Proof.
  unfold trim_newline. rewrite string_length_app, Nat.add_1_r.
  assert (String.get (String.length t) (t +:+ nl) = Some LF) as ->.
  { induction t as [|c t IH]; [done|]. by rewrite string_app_cons. }
  rewrite decide_True by done.
  induction t as [|c t IH]; [done|]. rewrite string_app_cons. simpl.
  by rewrite IH.
Qed.

(** *** The loops that read lines *)

Section InputLoops.
Variable long_bits : nat.

Lemma read_row_loop_enough fuel : ∀ input fuel',
  String.length input < fuel → String.length input < fuel' →
  read_row_loop long_bits fuel input = read_row_loop long_bits fuel' input
  ∧ is_Some (read_row_loop long_bits fuel input).
Proof.
  induction fuel as [|fuel IH]; intros input fuel' Hf Hf'; [lia|].
  destruct fuel' as [|fuel']; [lia|]. simpl.
  destruct (fgets MAX_LINE input) as [[buf rest]|] eqn:Hgets; [|by split].
  apply fgets_shrinks in Hgets; [|unfold MAX_LINE; lia].
  destruct (IH rest fuel') as [Heq Hsome]; [lia..|].
  case_decide; [done|]. by destruct (parse_row _ _).
Qed.

(** [read_row] satisfies the equation of the loop in the source. *)
Lemma read_row_unfold input :
  read_row long_bits input
  = match fgets MAX_LINE input with
    | None => None
    | Some (buf, rest) =>
        let line := trim_newline buf in
        if decide (line = "") then read_row long_bits rest
        else match parse_row long_bits line with
             | None => read_row long_bits rest
             | Some vals => Some (vals, rest)
             end
    end.
Proof.
  unfold read_row at 1. simpl.
  destruct (fgets MAX_LINE input) as [[buf rest]|] eqn:Hgets; [|done].
  apply fgets_shrinks in Hgets; [|unfold MAX_LINE; lia].
  assert (read_row_loop long_bits (String.length input) rest
          = read_row_loop long_bits (S (String.length rest)) rest) as Heq.
  { apply read_row_loop_enough; lia. }
  cbv zeta. case_decide; [by rewrite Heq|].
  destruct (parse_row _ _); [done|]. by rewrite Heq.
Qed.

Lemma read_count_loop_enough fuel : ∀ input fuel',
  String.length input < fuel → String.length input < fuel' →
  read_count_loop long_bits fuel input = read_count_loop long_bits fuel' input
  ∧ is_Some (read_count_loop long_bits fuel input).
Proof.
  induction fuel as [|fuel IH]; intros input fuel' Hf Hf'; [lia|].
  destruct fuel' as [|fuel']; [lia|]. simpl.
  destruct (fgets 64 input) as [[buf rest]|] eqn:Hgets; [|by split].
  apply fgets_shrinks in Hgets; [|lia].
  destruct (IH rest fuel') as [Heq Hsome]; [lia..|].
  case_decide; [done|]. by destruct (_ || _ || _).
Qed.

(** [read_board_count] satisfies the equation of the loop in [main]. *)
Lemma read_board_count_unfold input :
  read_board_count long_bits input
  = match fgets 64 input with
    | None => None
    | Some (buf, rest) =>
        let line := trim_newline buf in
        if decide (line = "") then read_board_count long_bits rest
        else
          let r := strtol long_bits line in
          if negb (converted r) || negb (bool_decide (endptr r = ""))
             || bool_decide (value r ≤ 0)%Z
          then read_board_count long_bits rest
          else Some (to_int (value r), rest)
    end.
Proof.
  unfold read_board_count at 1. simpl.
  destruct (fgets 64 input) as [[buf rest]|] eqn:Hgets; [|done].
  apply fgets_shrinks in Hgets; [|lia].
  assert (read_count_loop long_bits (String.length input) rest
          = read_count_loop long_bits (S (String.length rest)) rest) as Heq.
  { apply read_count_loop_enough; lia. }
  cbv zeta. case_decide; [by rewrite Heq|].
  destruct (_ || _ || _); [|done]. by rewrite Heq.
Qed.
End InputLoops.
(** *** Lines of numbers *)

Lemma numerals_text vals :
  Forall Ints.is_int vals →
  all_chars is_text_char (String.concat " " (pretty <$> vals)) = true
  ∧ String.length (String.concat " " (pretty <$> vals)) ≤ 12 * length vals.
Proof.
  assert (∀ v, Ints.is_int v →
            all_chars is_text_char (pretty v) = true
            ∧ String.length (pretty v) ≤ 11) as Hone.
  { intros v Hv. split; [|by apply pretty_int_length].
    apply (all_chars_impl is_numeral_char); [|apply pretty_Z_numeral].
    intros c Hc. by destruct (numeral_char c Hc). }
  induction vals as [|v vals IH]; intros Hints; [done|].
  apply Forall_cons in Hints as [Hv Hints]. destruct (Hone v Hv) as [Ht Hl].
  destruct vals as [|v2 vals].
  { change (String.concat " " (pretty <$> [v])) with (pretty v).
    split; [done|]. simpl. lia. }
  destruct (IH Hints) as [IHt IHl].
  change (pretty <$> v :: v2 :: vals)
    with (pretty v :: (pretty <$> v2 :: vals)).
  change (String.concat " " (pretty v :: (pretty <$> v2 :: vals)))
    with (pretty v +:+ " " +:+ String.concat " " (pretty <$> v2 :: vals)).
  rewrite !all_chars_app, !string_length_app, Ht, IHt.
  split; [done|]. change (String.length " ") with 1.
  change (length (v :: v2 :: vals)) with (S (length (v2 :: vals))). lia.
Qed.

Lemma numerals_nonempty (vals : list Z) :
  vals ≠ [] → String.concat " " (pretty <$> vals) ≠ "".
Proof.
  destruct vals as [|v [|v2 vals]]; [done|..]; intros _.
  - apply pretty_Z_nonempty.
  - change (pretty <$> v :: v2 :: vals)
      with (pretty v :: (pretty <$> v2 :: vals)).
    change (String.concat " " (pretty v :: (pretty <$> v2 :: vals)))
      with (pretty v +:+ " " +:+ String.concat " " (pretty <$> v2 :: vals)).
    pose proof (pretty_Z_nonempty v). by destruct (pretty v).
Qed.

Lemma board_text_cons vals rows :
  board_text (vals :: rows) = row_text vals +:+ board_text rows.
Proof.
  destruct rows; [|done]. unfold board_text. simpl.
  by rewrite string_app_nil_r.
Qed.

Lemma int_board_of_rows rows :
  Forall (Forall Ints.is_int) rows → Ints.int_board (board_of_rows rows).
Proof.
  intros Hrows r c _ _. unfold board_of_rows.
  destruct (rows !! r) as [row|] eqn:Hr; [|done]. simpl.
  destruct (row !! c) as [v|] eqn:Hc; [|done]. simpl.
  eapply Forall_lookup_1; [|done]. by eapply (Forall_lookup_1 _ rows).
Qed.

Section Reading.
Variable long_bits : nat.
Hypothesis Hbits : 32 ≤ long_bits.

Lemma read_row_text vals rest :
  is_row vals → read_row long_bits (row_text vals +:+ rest) = Some (vals, rest).
Proof.
  intros Hrow. pose proof Hrow as [Hlen Hints].
  destruct (numerals_text vals Hints) as [Ht Hl].
  unfold row_text. rewrite string_app_assoc, read_row_unfold.
  rewrite fgets_text; [|done|unfold MAX_LINE; lia].
  cbv zeta. rewrite trim_newline_line.
  rewrite decide_False by (apply numerals_nonempty; by destruct vals).
  rewrite <-(string_app_nil_r (String.concat _ _)).
  rewrite (parse_row_numerals long_bits Hbits vals ""); [done|done|by left].
Qed.

Lemma read_rows_text : ∀ rows acc rest,
  Forall is_row rows →
  read_rows long_bits (length rows) (board_text rows +:+ rest) acc
  = Some (acc ++ rows, rest).
Proof.
  induction rows as [|vals rows IH]; intros acc rest Hrows.
  { simpl. by rewrite app_nil_r. }
  apply Forall_cons in Hrows as [Hrow Hrows].
  rewrite board_text_cons, string_app_assoc. cbn [length read_rows].
  rewrite (read_row_text vals _ Hrow). simpl.
  rewrite (IH (acc ++ [vals]) rest Hrows). by rewrite <-app_assoc.
Qed.

Lemma read_board_text rows rest :
  is_grid rows →
  read_board_from_stdin long_bits (board_text rows +:+ rest)
  = Some (board_of_rows rows, rest).
Proof.
  intros [Hlen Hrows]. unfold read_board_from_stdin.
  replace 9 with (length rows) by done.
  by rewrite (read_rows_text rows [] rest Hrows).
Qed.
End Reading.

(** *** Whatever is read *)

Lemma read_row_is_row long_bits : ∀ input vals rest,
  read_row long_bits input = Some (vals, rest) →
  is_row vals ∧ String.length rest < String.length input.
Proof.
  intros input. remember (String.length input) as n eqn:Hn.
  revert input Hn. induction (lt_wf n) as [n _ IH]; intros input -> vals rest.
  rewrite read_row_unfold.
  destruct (fgets MAX_LINE input) as [[buf rest']|] eqn:Hgets; [|done].
  apply fgets_shrinks in Hgets; [|unfold MAX_LINE; lia]. cbv zeta.
  assert (read_row long_bits rest' = Some (vals, rest) →
          is_row vals ∧ String.length rest < String.length input) as Hrec.
  { intros Hrest. destruct (IH _ Hgets rest' eq_refl vals rest Hrest). split; [done|lia]. }
  case_decide; [done|].
  destruct (parse_row long_bits _) as [vs|] eqn:Hparse; [|done].
  intros [= <- <-]. split; [|done]. by eapply parse_row_is_row.
Qed.

Lemma read_rows_grid long_bits n : ∀ input acc rows rest,
  read_rows long_bits n input acc = Some (rows, rest) →
  Forall is_row acc →
  Forall is_row rows ∧ length rows = length acc + n
  ∧ String.length rest + n ≤ String.length input.
Proof.
  induction n as [|n IH]; intros input acc rows rest Hread Hacc.
  { simpl in Hread. simplify_eq. split_and!; [done|lia|lia]. }
  simpl in Hread.
  destruct (read_row long_bits input) as [[vals rest']|] eqn:Hrow; [|done].
  apply read_row_is_row in Hrow as [Hvals Hlt]. simpl in Hread.
  apply IH in Hread as (Hrows & Hlen & Hrest).
  - rewrite length_app in Hlen. simpl in Hlen. split_and!; [done|lia|lia].
  - apply Forall_app. split; [done|]. by apply Forall_singleton.
Qed.
(** *** The count prompt *)

Lemma read_board_count_line long_bits (v : Z) rest :
  String.length (pretty v) < 63 →
  read_board_count long_bits (pretty v +:+ nl +:+ rest)
  = let r := strtol long_bits (pretty v) in
    if bool_decide (value r ≤ 0)%Z then read_board_count long_bits rest
    else Some (to_int (value r), rest).
Proof.
  intros Hlen. rewrite read_board_count_unfold.
  rewrite fgets_text; [|..|simpl; lia].
  2: { apply (all_chars_impl is_numeral_char); [|apply pretty_Z_numeral].
       intros c Hc. by destruct (numeral_char c Hc). }
  cbv zeta. rewrite trim_newline_line.
  rewrite decide_False by apply pretty_Z_nonempty.
  rewrite strtol_pretty. cbn [converted endptr value]. done.
Qed.

Lemma long_max_pos long_bits : 32 ≤ long_bits → (2 ^ 31 - 1 ≤ LONG_MAX long_bits)%Z.
Proof.
  intros Hbits. unfold LONG_MAX.
  assert (2 ^ 31 ≤ 2 ^ (Z.of_nat long_bits - 1))%Z
    by (apply Z.pow_le_mono_r; lia).
  lia.
Qed.

Lemma long_min_neg long_bits : (LONG_MIN long_bits ≤ 0)%Z.
Proof.
  unfold LONG_MIN. pose proof (Z.pow_nonneg 2 (Z.of_nat long_bits - 1)). lia.
Qed.

(** *** A whole session *)

Lemma concat_cons (x : string) l :
  String.concat "" (x :: l) = x +:+ String.concat "" l.
Proof. destruct l; [|done]. simpl. by rewrite string_app_nil_r. Qed.

Lemma board_of_solved_rows : board_of_rows solved_rows = solved.
Proof. reflexivity. Qed.

Lemma solved_rows_grid : is_grid solved_rows.
Proof.
  split; [done|].
  repeat (apply Forall_cons_2;
          [split; [done|];
           repeat (apply Forall_cons_2; [unfold Ints.is_int; lia|]);
           constructor|]).
  constructor.
Qed.

Section Session.
Variable long_bits : nat.
Hypothesis Hbits : 32 ≤ long_bits.

Lemma skip_boards_text : ∀ k boards rest,
  Forall is_grid boards → k ≤ length boards →
  skip_boards long_bits k (String.concat "" (board_text <$> boards) +:+ rest)
  = Some (String.concat "" (board_text <$> drop k boards) +:+ rest).
Proof.
  induction k as [|k IH]; intros boards rest Hgrids Hk; [done|].
  cbn [skip_boards]. rewrite IH by (done || lia).
  destruct (drop k boards) as [|b bs] eqn:Hdrop.
  { apply (f_equal length) in Hdrop. rewrite length_drop in Hdrop.
    simpl in Hdrop. lia. }
  assert (drop (S k) boards = bs) as ->.
  { rewrite <-(Nat.add_1_r k), <-drop_drop, Hdrop. done. }
  assert (is_grid b) as Hb.
  { eapply Forall_forall; [done|]. eapply (list_elem_of_lookup_2 _ k).
    rewrite <-(Nat.add_0_r k), <-lookup_drop, Hdrop. done. }
  cbn [mbind option_bind]. rewrite fmap_cons, concat_cons, string_app_assoc.
  by rewrite (read_board_text long_bits Hbits b _ Hb).
Qed.

Lemma tasks_from_boards env : ∀ boards i,
  (∀ k rows, boards !! k = Some rows →
     Pool.read_board_from_stdin env (i + k) = Some (board_of_rows rows)) →
  tasks_from env i (length boards)
  = imap (λ k rows, {| id := Z.of_nat (i + k); task_board := board_of_rows rows |})
         boards.
Proof.
  induction boards as [|rows boards IH]; intros i Hread; [done|].
  cbn [length]. rewrite (tasks_from_cons env i _ (board_of_rows rows)).
  - rewrite imap_cons, Nat.add_0_r. f_equal. rewrite IH.
    + apply imap_ext. intros k x _. simpl. do 2 f_equal. lia.
    + intros k x Hk. replace (S i + k) with (i + S k) by lia. by apply Hread.
  - rewrite <-(Nat.add_0_r i) at 1. by apply Hread.
Qed.

Lemma session_env arg boards rest :
  Forall is_grid boards →
  (0 < Z.of_nat (length boards) < 2 ^ 31)%Z →
  let env := env_of_input long_bits arg (session_text boards +:+ rest) in
  Pool.read_board_count env = Some (Z.of_nat (length boards))
  ∧ ∀ k rows, boards !! k = Some rows →
      Pool.read_board_from_stdin env (1 + k) = Some (board_of_rows rows).
Proof.
  intros Hgrids Hn env.
  assert (Ints.is_int (Z.of_nat (length boards))) as Hint
    by (unfold Ints.is_int; lia).
  assert (read_board_count long_bits (session_text boards +:+ rest)
          = Some (Z.of_nat (length boards),
                  String.concat "" (board_text <$> boards) +:+ rest)) as Hcount.
  { unfold session_text. rewrite !string_app_assoc.
    rewrite read_board_count_line
      by (pose proof (pretty_int_length _ Hint); lia).
    rewrite strtol_pretty. cbn [value].
    pose proof (long_holds_int long_bits _ Hbits Hint).
    rewrite Z.min_l, Z.max_r by lia.
    rewrite bool_decide_eq_false_2 by lia. by rewrite to_int_id. }
  split.
  - unfold env, env_of_input. cbn [Pool.read_board_count]. by rewrite Hcount.
  - intros k rows Hk. unfold env, env_of_input. cbn [Pool.read_board_from_stdin].
    rewrite Hcount. cbn [fmap option_fmap option_map snd mbind option_bind].
    replace (1 + k - 1) with k by lia.
    rewrite skip_boards_text; [|done|apply lookup_lt_Some in Hk; lia].
    cbn [mbind option_bind].
    assert (drop k boards = rows :: drop (S k) boards) as ->
      by (by apply drop_S).
    rewrite fmap_cons, concat_cons, string_app_assoc.
    rewrite (read_board_text long_bits Hbits rows); [done|].
    eapply Forall_forall; [done|]. by eapply list_elem_of_lookup_2.
Qed.

Lemma session_main arg boards rest :
  Forall is_grid boards →
  (0 < Z.of_nat (length boards) < 2 ^ 31 - 1)%Z →
  let env := env_of_input long_bits arg (session_text boards +:+ rest) in
  main env = pool_run (worker_count env) (tasks_of_boards boards) 0.
Proof.
  intros Hgrids Hn env.
  assert (0 < Z.of_nat (length boards) < 2 ^ 31)%Z as Hn' by lia.
  destruct (session_env arg boards rest Hgrids Hn') as [Hcount Hread].
  fold env in Hcount, Hread.
  rewrite (main_ok env (Z.of_nat (length boards))); [|done|done|done| |].
  - rewrite Nat2Z.id. f_equal. by apply tasks_from_boards.
  - unfold INT_MAX. lia.
  - rewrite Nat2Z.id. intros j Hj. split; [|done].
    destruct (lookup_lt_is_Some_2 boards (j - 1)) as [rows Hrows]; [lia|].
    replace j with (1 + (j - 1)) by lia. rewrite (Hread _ _ Hrows). by eexists.
Qed.
End Session.
(** *** Lines *)

Section Lines.
Variable long_bits : nat.

Lemma read_row_line line rest :
  is_line line →
  read_row long_bits (line +:+ nl +:+ rest)
  = match parse_row long_bits line with
    | Some vals => Some (vals, rest)
    | None => read_row long_bits rest
    end.
Proof.
  intros [Ht Hlen]. rewrite read_row_unfold.
  rewrite fgets_text by done. cbv zeta. rewrite trim_newline_line.
  case_decide as Hline; [|done]. by rewrite Hline.
Qed.

Lemma read_rows_lines : ∀ ls n acc,
  Forall is_line ls →
  let rows := omap (parse_row long_bits) ls in
  (n ≤ length rows →
   ∃ rest, read_rows long_bits n (lines_text ls) acc
           = Some (acc ++ take n rows, rest))
  ∧ (length rows < n → read_rows long_bits n (lines_text ls) acc = None).
Proof.
  induction ls as [|l ls IH]; intros n acc Hlines rows.
  { subst rows. simpl. split.
    - intros Hn. assert (n = 0) as -> by lia. exists "". simpl.
      by rewrite app_nil_r.
    - intros Hn. destruct n as [|n]; [lia|].
      change (lines_text []) with "". cbn [read_rows].
      by rewrite read_row_unfold. }
  apply Forall_cons in Hlines as [Hl Hlines].
  destruct n as [|n].
  { split; [|simpl; lia]. intros _. eexists. simpl. by rewrite app_nil_r. }
  unfold lines_text. rewrite fmap_cons, concat_cons, string_app_assoc.
  fold (lines_text ls). cbn [read_rows]. rewrite (read_row_line l _ Hl).
  subst rows. rewrite omap_cons_list.
  destruct (parse_row long_bits l) as [vals|] eqn:Hparse.
  - cbn [mbind option_bind option_list]. simpl length.
    destruct (IH n (acc ++ [vals]) Hlines) as [IH1 IH2]. split.
    + intros Hn. destruct IH1 as [rest Hrest]; [lia|]. exists rest.
      rewrite Hrest. simpl. by rewrite <-app_assoc.
    + intros Hn. apply IH2. lia.
  - simpl option_list. rewrite app_nil_l.
    apply (IH (S n) acc Hlines).
Qed.
End Lines.

(** X13.  A line that starts with nine [int]s in decimal, separated by single
    blanks, is accepted as a row with these values, whether the line ends
    there or goes on after a blank or a tab: what follows the ninth number
    is not looked at. *)
Theorem row_of_nine_integers_is_accepted (long_bits : nat) (vals : list Z)
    (tail : string) :
  32 ≤ long_bits → is_row vals → is_tail tail →
  parse_row long_bits (String.concat " " (pretty <$> vals) +:+ tail) = Some vals.
Proof. intros Hbits. by apply parse_row_numerals. Qed.

Lemma row_of_nine_integers_is_accepted_witness :
  parse_row 64
    (String.concat " " (pretty <$> [5; 3; 4; 6; 7; 8; 9; 1; -2]%Z) +:+ " 10 x")
  = Some [5; 3; 4; 6; 7; 8; 9; 1; -2]%Z.
Proof.
  apply (row_of_nine_integers_is_accepted 64).
  - lia.
  - split; [reflexivity|].
    repeat (apply Forall_cons_2; [unfold Ints.is_int; lia|]). constructor.
  - right. exists " "%char, "10 x". split; reflexivity.
Defined.

(** X14.  On an input made of lines that fit the buffer, each ended by a line
    feed, [read_board_from_stdin] stores the first nine lines that are
    accepted as rows, in this order, and returns [true]; the other lines
    before them are skipped.  It returns [false] exactly if fewer than nine
    lines are accepted. *)
Theorem board_is_first_nine_rows (long_bits : nat) (ls : list string) :
  Forall is_line ls →
  (9 ≤ length (omap (parse_row long_bits) ls) →
   ∃ rest, read_board_from_stdin long_bits (lines_text ls)
           = Some (board_of_rows (take 9 (omap (parse_row long_bits) ls)), rest))
  ∧ (length (omap (parse_row long_bits) ls) < 9 →
     read_board_from_stdin long_bits (lines_text ls) = None).
Proof.
  intros Hlines. unfold read_board_from_stdin.
  destruct (read_rows_lines long_bits ls 9 [] Hlines) as [H1 H2]. split.
  - intros Hn. destruct (H1 Hn) as [rest ->]. by exists rest.
  - intros Hn. by rewrite (H2 Hn).
Qed.

Lemma board_is_first_nine_rows_witness :
  (9 ≤ length (omap (parse_row 64) ["1 2 3"; ""; "x"]) →
   ∃ rest, read_board_from_stdin 64 (lines_text ["1 2 3"; ""; "x"])
           = Some (board_of_rows (take 9 (omap (parse_row 64) ["1 2 3"; ""; "x"])),
                   rest))
  ∧ (length (omap (parse_row 64) ["1 2 3"; ""; "x"]) < 9 →
     read_board_from_stdin 64 (lines_text ["1 2 3"; ""; "x"]) = None).
Proof.
  apply (board_is_first_nine_rows 64 ["1 2 3"; ""; "x"]).
  repeat (apply Forall_cons_2; [split; [reflexivity|simpl; lia]|]).
  constructor.
Defined.

(** X15.  A board typed as the prompt asks, nine lines of nine [int]s
    separated by single blanks, is read back as it was typed, and the input
    after it is left for the next board. *)
Theorem typed_board_is_read_back (long_bits : nat) (rows : list (list Z))
    (rest : string) :
  32 ≤ long_bits → is_grid rows →
  read_board_from_stdin long_bits (board_text rows +:+ rest)
  = Some (board_of_rows rows, rest).
Proof. intros Hbits. by apply read_board_text. Qed.

Lemma typed_board_is_read_back_witness :
  read_board_from_stdin 64 (board_text solved_rows +:+ "next")
  = Some (board_of_rows solved_rows, "next").
Proof.
  apply (typed_board_is_read_back 64 solved_rows "next").
  - lia.
  - exact solved_rows_grid.
Defined.

(** X16.  A board that [read_board_from_stdin] returns is made of nine rows
    of nine [int]s, whatever the input was, and reading it has taken at
    least nine characters from the input. *)
Theorem board_read_is_int_board (long_bits : nat) (input rest : string)
    (b : board) :
  read_board_from_stdin long_bits input = Some (b, rest) →
  Ints.int_board b
  ∧ (∃ rows, is_grid rows ∧ b = board_of_rows rows)
  ∧ String.length rest + 9 ≤ String.length input.
Proof.
  unfold read_board_from_stdin.
  destruct (read_rows long_bits 9 input []) as [[rows r]|] eqn:Hrows; [|done].
  intros [= <- <-].
  apply read_rows_grid in Hrows as (Hgrid & Hlen & Hrest); [|constructor].
  assert (Ints.int_board (board_of_rows rows)) as Hint.
  { apply int_board_of_rows. eapply Forall_impl; [done|]. by intros row [_ ?]. }
  split_and!; [done| |done]. by exists rows.
Qed.

Lemma board_read_is_int_board_witness :
  Ints.int_board solved
  ∧ (∃ rows, is_grid rows ∧ solved = board_of_rows rows)
  ∧ String.length "next" + 9 ≤ String.length (board_text solved_rows +:+ "next").
Proof.
  apply (board_read_is_int_board 64 (board_text solved_rows +:+ "next") "next"
           solved).
  by vm_compute.
Defined.

(** The count prompt on a line that holds a decimal number. *)
Lemma read_board_count_number long_bits (v : Z) rest :
  32 ≤ long_bits → String.length (pretty v) < 63 →
  read_board_count long_bits (pretty v +:+ nl +:+ rest)
  = if decide (0 < v)%Z
    then Some (to_int (v `min` LONG_MAX long_bits), rest)
    else read_board_count long_bits rest.
Proof.
  intros Hbits Hlen. pose proof (long_max_pos long_bits Hbits) as Hmax.
  pose proof (long_min_neg long_bits) as Hmin.
  rewrite read_board_count_line by done. rewrite strtol_pretty.
  cbn [value]. case_decide as Hv.
  - rewrite Z.max_r by lia. by rewrite bool_decide_eq_false_2 by lia.
  - by rewrite bool_decide_eq_true_2 by lia.
Qed.

(** X17.  The count prompt of [main] takes a line holding a decimal number
    [v] that fits the buffer as the count when [v] is positive, and asks
    again when it is not.  The count is [v] when [v] is an [int]; a larger [v]
    is cut to the range of [long] and then to its low 32 bits, which may give
    a count that is not positive. *)
Theorem count_prompt_takes_a_number (long_bits : nat) (v : Z) (rest : string) :
  32 ≤ long_bits → String.length (pretty v) < 63 →
  read_board_count long_bits (pretty v +:+ nl +:+ rest)
  = (if decide (0 < v)%Z
     then Some (to_int (v `min` LONG_MAX long_bits), rest)
     else read_board_count long_bits rest)
  ∧ ((0 < v < 2 ^ 31)%Z → to_int (v `min` LONG_MAX long_bits) = v).
Proof.
  intros Hbits Hlen. split; [by apply read_board_count_number|].
  pose proof (long_max_pos long_bits Hbits) as Hmax.
  intros Hv. rewrite Z.min_l by lia. apply to_int_id. unfold Ints.is_int. lia.
Qed.

Lemma count_prompt_takes_a_number_witness :
  read_board_count 64 (pretty 4294967296%Z +:+ nl +:+ "") = Some (0%Z, "")
  ∧ ((0 < 4294967296 < 2 ^ 31)%Z
     → to_int (4294967296 `min` LONG_MAX 64) = 4294967296%Z).
Proof.
  apply (count_prompt_takes_a_number 64 4294967296 "").
  - lia.
  - simpl. lia.
Defined.

(** X18.  A session typed as the prompts ask, the number of boards (below
    [INT_MAX], so that the loop counter of [main] does not overflow) and then
    the boards, nothing failing: [main] makes one task per board, numbered
    from 1 in the order typed; every run can be continued to its end; and
    when it has ended the exit status is 0 and the lines printed are, up to
    their order, the verdict lines of the boards typed, one for each. *)
Theorem typed_session_is_validated (long_bits : nat) (arg : option Z)
    (boards : list (list (list Z))) (rest : string)
    (malloc : node_heap → ptr) (s : system) :
  32 ≤ long_bits → Forall is_grid boards →
  (0 < Z.of_nat (length boards) < 2 ^ 31 - 1)%Z →
  malloc_fresh malloc → malloc_total malloc →
  reaches malloc
    (initial (main (env_of_input long_bits arg (session_text boards +:+ rest))))
    s →
  enqueued_tasks
    (main (env_of_input long_bits arg (session_text boards +:+ rest)))
  = tasks_of_boards boards
  ∧ (∃ s', reaches malloc s s' ∧ exited s' = Some 0%Z)
  ∧ ∀ c, exited s = Some c →
      c = 0%Z ∧ texts (log s) ≡ₚ line <$> tasks_of_boards boards.
Proof.
  intros Hbits Hgrids Hn Hfresh Htotal.
  rewrite (session_main long_bits Hbits arg boards rest Hgrids Hn).
  set (N := worker_count _). intros Hreach. split_and!.
  - apply enqueued_tasks_pool_run.
  - apply (pool_inv_exits malloc Hfresh Htotal N (tasks_of_boards boards) 0
             (S (potential s))); [lia|].
    by apply (pool_inv_reaches malloc Hfresh Htotal).
  - intros c He.
    destruct (pool_run_reports_each_task malloc N (tasks_of_boards boards) 0 c s
                Hfresh Htotal (worker_count_pos _) Hreach He)
      as (Hc & _ & _ & Hperm & _).
    by split.
Qed.

Lemma typed_session_is_validated_witness :
  enqueued_tasks
    (main (env_of_input 64 (Some 1%Z) (session_text [solved_rows] +:+ "")))
  = tasks_of_boards [solved_rows]
  ∧ (∃ s', reaches malloc_next one_worker_final s' ∧ exited s' = Some 0%Z)
  ∧ ∀ c, exited one_worker_final = Some c →
      c = 0%Z
      ∧ texts (log one_worker_final) ≡ₚ line <$> tasks_of_boards [solved_rows].
Proof.
  apply (typed_session_is_validated 64 (Some 1%Z) [solved_rows] ""
           malloc_next one_worker_final).
  - lia.
  - apply Forall_cons_2; [exact solved_rows_grid|constructor].
  - simpl. lia.
  - exact malloc_next_fresh.
  - exact malloc_next_total.
  - exact one_worker_final_reached.
Defined.

(** *** Lines that are not accepted *)

Lemma skip_space_suffix s : ∃ pre, s = pre +:+ skip_space s.
Proof.
  induction s as [|a s [pre IH]]; [by exists ""|]. simpl.
  destruct (isspace a); [|by exists ""].
  exists (String a pre). by rewrite string_app_cons, <-IH.
Qed.

(** When [strtol] converts, [endptr] is where the digits end in what is left
    of its argument after the white space and the sign. *)
Lemma strtol_converted long_bits s :
  converted (strtol long_bits s) = true →
  ∃ pre s2 m, s = pre +:+ s2 ∧ s2 ≠ ""
              ∧ digits 0 s2 = (m, endptr (strtol long_bits s)).
Proof.
  unfold strtol. destruct (skip_space_suffix s) as [pre Hpre].
  destruct (skip_space s) as [|a r] eqn:Hs1; [done|].
  assert (∀ neg p s2,
            s = p +:+ s2 →
            converted
              match s2 with
              | "" => {| value := 0; endptr := s; converted := false;
                         erange := false |}
              | String c0 _ =>
                  match digit_of c0 with
                  | Some _ =>
                      let '(m, rest) := digits 0 s2 in
                      let v := if neg : bool then (- m)%Z else m in
                      {| value := LONG_MIN long_bits
                                    `max` (v `min` LONG_MAX long_bits);
                         endptr := rest; converted := true;
                         erange := bool_decide
                           (v < LONG_MIN long_bits ∨ LONG_MAX long_bits < v)%Z |}
                  | None => {| value := 0; endptr := s; converted := false;
                               erange := false |}
                  end
              end = true →
            ∃ pre s2' m, s = pre +:+ s2' ∧ s2' ≠ ""
              ∧ digits 0 s2'
                = (m, endptr
                        match s2 with
                        | "" => {| value := 0; endptr := s; converted := false;
                                   erange := false |}
                        | String c0 _ =>
                            match digit_of c0 with
                            | Some _ =>
                                let '(m, rest) := digits 0 s2 in
                                let v := if neg : bool then (- m)%Z else m in
                                {| value := LONG_MIN long_bits
                                      `max` (v `min` LONG_MAX long_bits);
                                   endptr := rest; converted := true;
                                   erange := bool_decide
                                     (v < LONG_MIN long_bits
                                      ∨ LONG_MAX long_bits < v)%Z |}
                            | None => {| value := 0; endptr := s;
                                         converted := false; erange := false |}
                            end
                        end)) as Hcore.
  { intros neg p s2 Hp. destruct s2 as [|c0 r0]; [done|].
    destruct (digit_of c0); [|done].
    destruct (digits 0 (String c0 r0)) as [m rest] eqn:Hd. simpl. intros _.
    exists p, (String c0 r0), m. by split_and!. }
  repeat case_decide.
  - apply (Hcore true (pre +:+ String a "") r).
    by rewrite string_app_assoc.
  - apply (Hcore false (pre +:+ String a "") r).
    by rewrite string_app_assoc.
  - by apply (Hcore false pre (String a r)).
Qed.

Lemma suffix_trailing c : ∀ pre t s2,
  pre +:+ s2 = t +:+ String c "" → s2 ≠ "" → ∃ t', s2 = t' +:+ String c "".
Proof.
  induction pre as [|a pre IH]; intros t s2 Heq Hne; [by exists t|].
  destruct t as [|b t].
  - rewrite string_app_cons in Heq.
    change ("" +:+ String c "") with (String c "") in Heq.
    injection Heq as _ Heq. destruct pre, s2; done.
  - rewrite !string_app_cons in Heq. injection Heq as _ Heq. by eapply IH.
Qed.

Lemma digits_trailing c : ∀ t acc m rest,
  digit_of c = None →
  digits acc (t +:+ String c "") = (m, rest) → rest ≠ "".
Proof.
  induction t as [|a t IH]; intros acc m rest Hc.
  - change ("" +:+ String c "") with (String c ""). simpl. rewrite Hc.
    by intros [= _ <-].
  - rewrite string_app_cons. simpl. destruct (digit_of a); [by apply IH|].
    by intros [= _ <-].
Qed.

(** A number followed by a character that is no digit is not a number for
    the tests after [strtol]. *)
Lemma strtol_trailing long_bits s c :
  digit_of c = None →
  let r := strtol long_bits (s +:+ String c "") in
  negb (converted r) || negb (bool_decide (endptr r = "")) = true.
Proof.
  intros Hc r. destruct (converted r) eqn:Hconv; [|done]. simpl.
  apply strtol_converted in Hconv as (pre & s2 & m & Heq & Hne & Hd).
  symmetry in Heq. apply suffix_trailing in Heq as [t' ->]; [|done].
  apply digits_trailing in Hd; [|done].
  by rewrite bool_decide_eq_false_2.
Qed.

Lemma token_plain t :
  all_chars (λ c, negb (is_delim c)) t = true → token t = (t, "").
Proof.
  induction t as [|c t IH]; [done|]. simpl.
  intros [Hc Ht]%andb_true_iff. apply negb_true_iff in Hc.
  by rewrite Hc, (IH Ht).
Qed.

Section Rejected.
Variable long_bits : nat.
Hypothesis Hbits : 32 ≤ long_bits.
Variable c : ascii.
Hypothesis Hdigit : digit_of c = None.
Hypothesis Hdelim : is_delim c = false.

Lemma strtok_last (z : Z) :
  strtok (pretty z +:+ String c "") = Some (pretty z +:+ String c "", "").
Proof.
  pose proof (pretty_Z_numeral z) as Hnum.
  assert (all_chars (λ c, negb (is_delim c)) (pretty z +:+ String c "") = true)
    as Hplain.
  { rewrite all_chars_app. simpl. rewrite Hdelim, andb_true_r. simpl.
    apply (all_chars_impl is_numeral_char); [|done].
    intros a Ha. destruct (numeral_char a Ha) as [-> _]. done. }
  unfold strtok.
  destruct (pretty z) as [|a t] eqn:Hz; [by destruct (pretty_Z_nonempty z)|].
  simpl in Hnum. apply andb_true_iff in Hnum as [Ha _].
  destruct (numeral_char a Ha) as [Hnd _].
  rewrite string_app_cons. cbn [skip_delims]. rewrite Hnd.
  rewrite <-string_app_cons. by rewrite token_plain.
Qed.

Lemma row_loop_trailing : ∀ vals k acc,
  vals ≠ [] → length vals ≤ k → Forall Ints.is_int vals →
  row_loop long_bits k
    (strtok (String.concat " " (pretty <$> vals) +:+ String c "")) acc
  = None.
Proof.
  induction vals as [|v vals IH]; intros k acc Hne Hk Hints; [done|].
  apply Forall_cons in Hints as [Hv Hints].
  destruct k as [|k]; [simpl in Hk; lia|].
  destruct vals as [|v2 vals].
  - change (String.concat " " (pretty <$> [v])) with (pretty v).
    rewrite strtok_last. cbn [row_loop].
    by rewrite (strtol_trailing long_bits (pretty v) c Hdigit).
  - destruct (strtol_int long_bits Hbits v Hv) as [Hok Hval].
    change (pretty <$> v :: v2 :: vals)
      with (pretty v :: pretty v2 :: (pretty <$> vals)).
    rewrite concat_cons_cons, !string_app_assoc.
    change (" " +:+ ?s) with (String " " s).
    rewrite (strtok_numeral v); [|right; by eexists _, _].
    cbn [row_loop]. rewrite Hok, Hval.
    apply (IH k (acc ++ [v])); [done|simpl in *; lia|done].
Qed.
End Rejected.

(** X19.  A line of nine [int]s followed at once by a character that is
    neither a digit nor a blank nor a tab (and neither the NUL that would end
    the C string nor a line feed) is not accepted as a row, and the row is
    read from the lines after it; so a line typed with a carriage return
    before its line feed is asked for again. *)
Theorem row_with_trailing_character_is_rejected (long_bits : nat)
    (vals : list Z) (c : ascii) (rest : string) :
  32 ≤ long_bits → is_row vals →
  digit_of c = None → is_delim c = false → c ≠ NUL → c ≠ LF →
  parse_row long_bits (String.concat " " (pretty <$> vals) +:+ String c "")
  = None
  ∧ read_row long_bits
      (String.concat " " (pretty <$> vals) +:+ String c "" +:+ nl +:+ rest)
    = read_row long_bits rest.
Proof.
  intros Hbits [Hlen Hints] Hdigit Hdelim Hnul Hlf.
  assert (parse_row long_bits
            (String.concat " " (pretty <$> vals) +:+ String c "") = None)
    as Hparse.
  { unfold parse_row.
    rewrite (row_loop_trailing long_bits Hbits c Hdigit Hdelim);
      [done| |lia|done].
    by destruct vals. }
  split; [done|].
  rewrite <-string_app_assoc, <-(string_app_assoc _ nl rest).
  rewrite string_app_assoc. rewrite read_row_line; [by rewrite Hparse|].
  destruct (numerals_text vals Hints) as [Ht Hl]. split.
  - rewrite all_chars_app, Ht. simpl. rewrite andb_true_r.
    by apply bool_decide_eq_true_2.
  - rewrite string_length_app. unfold MAX_LINE. simpl. lia.
Qed.

Lemma row_with_trailing_character_is_rejected_witness :
  parse_row 64
    (String.concat " " (pretty <$> [5; 3; 4; 6; 7; 8; 9; 1; 2]%Z)
       +:+ String "013"%char "")
  = None
  ∧ read_row 64
      (String.concat " " (pretty <$> [5; 3; 4; 6; 7; 8; 9; 1; 2]%Z)
         +:+ String "013"%char "" +:+ nl +:+ row_text [1; 2; 3; 4; 5; 6; 7; 8; 9]%Z)
    = read_row 64 (row_text [1; 2; 3; 4; 5; 6; 7; 8; 9]%Z).
Proof.
  apply (row_with_trailing_character_is_rejected 64).
  - lia.
  - split; [reflexivity|].
    repeat (apply Forall_cons_2; [unfold Ints.is_int; lia|]). constructor.
  - reflexivity.
  - reflexivity.
  - discriminate.
  - discriminate.
Defined.

(** X20.  A count beyond the range of [int] whose low 32 bits are not
    positive makes [main] ask for no board at all: it goes straight to the
    shutdown protocol and returns 0. *)
Theorem count_cut_to_nothing (long_bits : nat) (arg : option Z) (v : Z)
    (rest : string) :
  32 ≤ long_bits → String.length (pretty v) < 63 → (0 < v)%Z →
  (to_int (v `min` LONG_MAX long_bits) ≤ 0)%Z →
  main (env_of_input long_bits arg (pretty v +:+ nl +:+ rest))
  = pool_run
      (worker_count (env_of_input long_bits arg (pretty v +:+ nl +:+ rest)))
      [] 0.
Proof.
  intros Hbits Hlen Hv Hcut.
  set (env := env_of_input long_bits arg (pretty v +:+ nl +:+ rest)).
  assert (Pool.read_board_count env
          = Some (to_int (v `min` LONG_MAX long_bits))) as Hcount.
  { unfold env, env_of_input. cbn [Pool.read_board_count].
    rewrite read_board_count_number by done. by rewrite decide_True. }
  rewrite (main_ok env _ eq_refl (λ _ _, eq_refl) Hcount).
  - by rewrite Z2Nat.nonpos.
  - unfold INT_MAX. lia.
  - rewrite Z2Nat.nonpos by done. intros j Hj. lia.
Qed.

Lemma count_cut_to_nothing_witness :
  main (env_of_input 64 (Some 2%Z) (pretty 4294967296%Z +:+ nl +:+ "5 3 4"))
  = pool_run
      (worker_count
         (env_of_input 64 (Some 2%Z) (pretty 4294967296%Z +:+ nl +:+ "5 3 4")))
      [] 0.
Proof.
  apply (count_cut_to_nothing 64 (Some 2%Z) 4294967296 "5 3 4").
  - lia.
  - simpl. lia.
  - lia.
  - by vm_compute.
Defined.
